(** * geolabel-maker: tile math, mask compositor and the annotation record

    A shallow embedding of [geolabel_maker/rasters/utils.py] and of the
    [Annotation] base class of [geolabel_maker/annotations/annotation.py],
    with the properties of the specification proved (or refuted) on it.

    - [TileMath]: a double is a real number; the rounding of the
      arithmetic operations and the functions of [math] are parameters of
      the model, and an exception is an explicit error result.
    - [MaskCompositor]: [uint8] images as nested lists of pixels, numpy
      arrays as objects of a store so that copy and in-place update can be
      told apart.
    - [Annotations]: Python objects live in a heap; lists, tuples and dicts
      are heap objects named by references, which makes aliasing, [deepcopy]
      and mutation observable. *)

From Stdlib Require Import Reals Lra ZArith.
From stdpp Require Import base option list strings gmap.

(** Python exceptions raised by the modelled code. *)
Inductive exn : Type :=
  | ValueError
  | ZeroDivisionError
  | IndexError
  | KeyError
  | TypeError
  | AttributeError.

(** ** Tile math ([rasters/utils.py], lines 59-168) *)
Module TileMath.

Local Open Scope R_scope.

(** *** Floating point *)

(** The code computes on doubles: an arithmetic operation returns its exact
    result rounded to a double, and [math.pi] and the functions of [math]
    approximate the real ones. The model leaves both open. A double is a
    real number, [rnd] is the rounding of a real number to a double, and the
    other fields are what the code imports from [math]. Infinities and NaN
    are not modelled: an operation whose result is too large for a double
    (the conversion of an integer above the largest double, [sinh] of a
    large argument) is outside of the model, so the statements below are
    about arguments for which the code does not overflow. *)
Record floats : Type := {
  rnd : R -> R;
  math_pi : R;
  math_cos : R -> R;
  math_tan : R -> R;
  math_log : R -> R;
  math_atan : R -> R;
  math_sinh : R -> R;
  math_radians : R -> R;
  math_degrees : R -> R
}.

(** What the statements about orders use of doubles: rounding is monotone
    and leaves a double, and zero, as it is; [math.pi] is positive; [sinh],
    [atan] and [degrees] never decrease. *)
Record sound (F : floats) : Prop := {
  rnd_monotone : forall a b, a <= b -> rnd F a <= rnd F b;
  rnd_idempotent : forall a, rnd F (rnd F a) = rnd F a;
  rnd_zero : rnd F 0 = 0;
  pi_positive : 0 < math_pi F;
  sinh_monotone : forall a b, a <= b -> math_sinh F a <= math_sinh F b;
  atan_monotone : forall a b, a <= b -> math_atan F a <= math_atan F b;
  degrees_monotone :
    forall a b, a <= b -> math_degrees F a <= math_degrees F b
}.

(** Arithmetic without rounding errors and the real functions. *)
Definition exact : floats :=
  {| rnd := fun x => x;
     math_pi := PI;
     math_cos := cos;
     math_tan := tan;
     math_log := ln;
     math_atan := atan;
     math_sinh := sinh;
     math_radians := fun deg => deg * PI / 180;
     math_degrees := fun rad => rad * 180 / PI |}.

(** A Python number: an integer or a float. *)
Inductive number : Type :=
  | Int (n : Z)
  | Float (r : R).

(** The float an integer becomes when it meets a float. *)
Definition to_float (F : floats) (n : number) : R :=
  match n with
  | Int n => rnd F (IZR n)
  | Float r => r
  end.

(** [a / n] for an integer [a]: the quotient, rounded once;
    [ZeroDivisionError] when [n] is zero. *)
Definition int_div (F : floats) (a : Z) (n : number) : exn + R :=
  let d := match n with Int n => IZR n | Float r => r end in
  if Req_dec_T d 0 then inl ZeroDivisionError
  else inr (rnd F (IZR a / d)).

Section Tiles.

Variable F : floats.

(** [sec]: [1 / cos(radian)] divides by zero when the cosine is zero. *)
Definition sec (radian : R) : exn + R :=
  if Req_dec_T (math_cos F radian) 0 then inl ZeroDivisionError
  else inr (rnd F (1 / math_cos F radian)).

(** [math.log] raises [ValueError] outside of the positive numbers. *)
Definition log (x : R) : exn + R :=
  if Rlt_dec 0 x then inr (math_log F x) else inl ValueError.

(** [math.floor] on a float returns an integer. *)
Definition floor (x : R) : Z := Int_part x.

(** [2 ** z] (and [pow(2, z)]): an integer for [z >= 0], a float
    otherwise. *)
Definition tile_count (z : Z) : number :=
  if (0 <=? z)%Z then Int (2 ^ z) else Float (rnd F (powerRZ 2 z)).

Definition latlon2xyz (lat lon : R) (z : Z) : exn + (Z * Z) :=
  let tile_count := to_float F (tile_count z) in
  let x := rnd F (rnd F (lon + 180) / 360) in
  match sec (math_radians F lat) with
  | inl e => inl e
  | inr s =>
      match log (rnd F (math_tan F (math_radians F lat) + s)) with
      | inl e => inl e
      | inr l =>
          let y := rnd F (rnd F (1 - rnd F (l / math_pi F)) / 2) in
          inr (floor (rnd F (tile_count * x)), floor (rnd F (tile_count * y)))
      end
  end.

Definition bbox2xyz (lon_min lat_min lon_max lat_max : R) (z : Z)
  : exn + (Z * Z * Z * Z) :=
  match latlon2xyz lat_min lon_min z with
  | inl e => inl e
  | inr (x_min, y_max) =>
      match latlon2xyz lat_max lon_max z with
      | inl e => inl e
      | inr (x_max, y_min) => inr (x_min, y_min, x_max, y_max)
      end
  end.

Definition mercator2lat (mercator_y : R) : R :=
  math_degrees F (math_atan F (math_sinh F mercator_y)).

Definition yz2bounds (y z : Z) : exn + (R * R) :=
  let tile_count := tile_count z in
  match int_div F 1 tile_count with
  | inl e => inl e
  | inr unit =>
      let relative_y1 := rnd F (rnd F (IZR y) * unit) in
      let relative_y2 := rnd F (relative_y1 + unit) in
      let lat1 :=
        mercator2lat
          (rnd F (math_pi F * rnd F (1 - rnd F (2 * relative_y1)))) in
      let lat2 :=
        mercator2lat
          (rnd F (math_pi F * rnd F (1 - rnd F (2 * relative_y2)))) in
      inr (lat1, lat2)
  end.

Definition xz2bounds (x z : Z) : exn + (R * R) :=
  let tile_count := tile_count z in
  match int_div F 360 tile_count with
  | inl e => inl e
  | inr unit =>
      let lon1 := rnd F (-180 + rnd F (rnd F (IZR x) * unit)) in
      let lon2 := rnd F (lon1 + unit) in
      inr (lon1, lon2)
  end.

Definition xyz2bounds (x y z : Z) : exn + (R * R * R * R) :=
  match yz2bounds y z with
  | inl e => inl e
  | inr (lat1, lat2) =>
      match xz2bounds x z with
      | inl e => inl e
      | inr (lon1, lon2) => inr (lon1, lat1, lon2, lat2)
      end
  end.

End Tiles.

(** The four components of a bounding box, in the order of the tuple. *)
Definition bbox_1 {A} (b : A * A * A * A) : A := fst (fst (fst b)).
Definition bbox_2 {A} (b : A * A * A * A) : A := snd (fst (fst b)).
Definition bbox_3 {A} (b : A * A * A * A) : A := snd (fst b).
Definition bbox_4 {A} (b : A * A * A * A) : A := snd b.

Lemma exact_sound : sound exact.
Proof.
  assert (Hpi := PI_RGT_0).
  split; cbn; try done.
  - intros a b [Hlt | ->]; [left; now apply sinh_lt | right; reflexivity].
  - intros a b [Hlt | ->];
      [left; now apply atan_increasing | right; reflexivity].
  - intros a b Hab. unfold Rdiv.
    apply Rmult_le_compat_r; [left; now apply Rinv_0_lt_compat | lra].
Qed.

(** For [z >= 0] the tile count is the integer [2 ^ z], which is not zero:
    the divisions of [yz2bounds] and [xz2bounds] return a unit that is not
    negative. *)
Lemma int_div_tile_count (F : floats) (a z : Z) :
  sound F -> (0 <= a)%Z -> (0 <= z)%Z ->
  exists unit, int_div F a (tile_count F z) = inr unit /\ 0 <= unit.
Proof.
  intros HF Ha Hz. unfold int_div, tile_count.
  destruct (Z.leb_spec 0 z) as [_ | Hneg]; [| lia].
  assert (Hpos : 0 < IZR (2 ^ z)).
  { apply IZR_lt. apply Z.pow_pos_nonneg; lia. }
  destruct (Req_dec_T (IZR (2 ^ z)) 0) as [H0 | _]; [lra |].
  eexists. split; [reflexivity |].
  rewrite <- (rnd_zero F HF). apply (rnd_monotone F HF).
  unfold Rdiv. apply Rmult_le_pos; [now apply IZR_le |].
  left. now apply Rinv_0_lt_compat.
Qed.

(** Adding a unit that is not negative to a double does not give less. *)
Lemma add_unit_le (F : floats) (t unit : R) :
  sound F -> 0 <= unit -> rnd F t <= rnd F (rnd F t + unit).
Proof.
  intros HF Hu. rewrite <- (rnd_idempotent F HF t) at 1.
  apply (rnd_monotone F HF). lra.
Qed.

Lemma xz2bounds_ordered (F : floats) (x z : Z) :
  sound F -> (0 <= z)%Z ->
  exists lon1 lon2, xz2bounds F x z = inr (lon1, lon2) /\ lon1 <= lon2.
Proof.
  intros HF Hz. unfold xz2bounds.
  destruct (int_div_tile_count F 360 z HF) as (unit & -> & Hu); [lia | done |].
  eexists _, _. split; [reflexivity |]. now apply add_unit_le.
Qed.

Lemma yz2bounds_ordered (F : floats) (y z : Z) :
  sound F -> (0 <= z)%Z ->
  exists lat1 lat2, yz2bounds F y z = inr (lat1, lat2) /\ lat2 <= lat1.
Proof.
  intros HF Hz. unfold yz2bounds.
  destruct (int_div_tile_count F 1 z HF) as (unit & -> & Hu); [lia | done |].
  eexists _, _. split; [reflexivity |].
  pose proof (add_unit_le F (rnd F (IZR y) * unit) unit HF Hu) as Hr.
  pose proof (pi_positive F HF) as Hpi.
  unfold mercator2lat.
  apply (degrees_monotone F HF), (atan_monotone F HF), (sinh_monotone F HF).
  apply (rnd_monotone F HF). apply Rmult_le_compat_l; [lra |].
  apply (rnd_monotone F HF).
  apply Rplus_le_compat_l, Ropp_le_contravar.
  apply (rnd_monotone F HF). lra.
Qed.

(** C1 (as stated) fails: on the tile (0, 0) at zoom 0, with exact
    arithmetic, the second component of [xyz2bounds] is the latitude of the
    northern edge, which is strictly greater than the fourth component, the
    latitude of the southern edge. *)
Lemma xyz2bounds_second_above_fourth_at_origin :
  exists b,
    xyz2bounds exact 0 0 0 = inr b /\ ~ (bbox_2 b <= bbox_4 b).
Proof.
  assert (Hpi := PI_RGT_0).
  unfold xyz2bounds, yz2bounds, xz2bounds, int_div, tile_count. cbn.
  change (2 ^ 0)%Z with 1%Z.
  destruct (Req_dec_T 1 0) as [H10 | _]; [lra |].
  eexists. split; [reflexivity |]. unfold bbox_2, bbox_4. cbn.
  assert (Hlt : atan (sinh (PI * (1 - 2 * (0 * (1 / 1) + 1 / 1))))
                < atan (sinh (PI * (1 - 2 * (0 * (1 / 1)))))).
  { apply atan_increasing, sinh_lt. nra. }
  intros Hle. unfold Rdiv in Hle.
  assert (Hinv : 0 < / PI) by now apply Rinv_0_lt_compat.
  nra.
Qed.

(** C1 (amended): whatever the rounding, for every zoom [z] from 0 to 1023
    (the zooms whose tile coordinates are all doubles) and every tile
    [(x, y)] of the grid, [xyz2bounds] returns
    [(lon1, lat1, lon2, lat2)] with [lon1, lon2] the bounds of [xz2bounds]
    and [lat1, lat2] those of [yz2bounds]: the order is
    (lon_min, lat_max, lon_max, lat_min), the first component at most the
    third and the fourth at most the second. *)
Theorem xyz2bounds_order (F : floats) (x y z : Z) :
  sound F ->
  (0 <= z <= 1023)%Z -> (0 <= x < 2 ^ z)%Z -> (0 <= y < 2 ^ z)%Z ->
  exists lon1 lat1 lon2 lat2,
    xyz2bounds F x y z = inr (lon1, lat1, lon2, lat2)
    /\ xz2bounds F x z = inr (lon1, lon2)
    /\ yz2bounds F y z = inr (lat1, lat2)
    /\ lon1 <= lon2
    /\ lat2 <= lat1.
Proof.
  intros HF [Hz _] _ _.
  destruct (xz2bounds_ordered F x z HF Hz) as (lon1 & lon2 & Hlon & Hle1).
  destruct (yz2bounds_ordered F y z HF Hz) as (lat1 & lat2 & Hlat & Hle2).
  exists lon1, lat1, lon2, lat2. unfold xyz2bounds. rewrite Hlat, Hlon.
  done.
Qed.

(** A rounding that is not the identity: downwards, to a multiple of
    1/1024. With it [math.pi] is 3217/1024 and the functions of [math] are
    the real ones, rounded. *)
Definition down (x : R) : R := IZR (Int_part (x * 1024)) / 1024.

Definition fixed_point : floats :=
  {| rnd := down;
     math_pi := 3217 / 1024;
     math_cos := fun x => down (cos x);
     math_tan := fun x => down (tan x);
     math_log := fun x => down (ln x);
     math_atan := fun x => down (atan x);
     math_sinh := fun x => down (sinh x);
     math_radians := fun deg => down (deg * PI / 180);
     math_degrees := fun rad => down (rad * 180 / PI) |}.

Lemma Int_part_le (a b : R) : a <= b -> (Int_part a <= Int_part b)%Z.
Proof.
  intros Hab. destruct (base_Int_part a) as [Ha _].
  destruct (base_Int_part b) as [_ Hb].
  assert (Hlt : IZR (Int_part a) < IZR (Int_part b + 1)).
  { rewrite plus_IZR. lra. }
  apply lt_IZR in Hlt. lia.
Qed.

Lemma down_le (a b : R) : a <= b -> down a <= down b.
Proof.
  intros Hab. unfold down, Rdiv.
  apply Rmult_le_compat_r; [lra |]. apply IZR_le, Int_part_le. lra.
Qed.

Lemma fixed_point_sound : sound fixed_point.
Proof.
  assert (Hpi := PI_RGT_0).
  split; cbn.
  - apply down_le.
  - intros a. unfold down. f_equal. f_equal. symmetry.
    apply Int_part_spec. lra.
  - unfold down. rewrite Rmult_0_l.
    replace (Int_part 0) with 0%Z; [lra |].
    apply Int_part_spec. lra.
  - lra.
  - intros a b [Hlt | ->]; [| lra]. apply down_le. left. now apply sinh_lt.
  - intros a b [Hlt | ->]; [| lra]. apply down_le. left.
    now apply atan_increasing.
  - intros a b Hab. apply down_le. unfold Rdiv.
    apply Rmult_le_compat_r; [left; now apply Rinv_0_lt_compat | lra].
Qed.

Lemma xyz2bounds_order_witness :
  exists lon1 lat1 lon2 lat2,
    xyz2bounds fixed_point 1 2 2 = inr (lon1, lat1, lon2, lat2)
    /\ xz2bounds fixed_point 1 2 = inr (lon1, lon2)
    /\ yz2bounds fixed_point 2 2 = inr (lat1, lat2)
    /\ lon1 <= lon2
    /\ lat2 <= lat1.
Proof.
  apply (xyz2bounds_order fixed_point 1 2 2 fixed_point_sound); lia.
Defined.

(** C3: [bbox2xyz] takes [x_min] and [y_max] from the corner of minimum
    latitude and [x_max] and [y_min] from the corner of maximum latitude:
    whatever the rounding, whenever the two point conversions return, the
    result is [(fst p, snd q, fst q, snd p)] for
    [p = latlon2xyz lat_min lon_min z] and
    [q = latlon2xyz lat_max lon_max z]; when one of them raises, so does
    [bbox2xyz]. *)
Theorem bbox2xyz_corners (F : floats) (lon_min lat_min lon_max lat_max : R)
    (z : Z) (p q : Z * Z) :
  latlon2xyz F lat_min lon_min z = inr p ->
  latlon2xyz F lat_max lon_max z = inr q ->
  bbox2xyz F lon_min lat_min lon_max lat_max z
    = inr (fst p, snd q, fst q, snd p).
Proof.
  intros Hp Hq. unfold bbox2xyz. rewrite Hp, Hq.
  now destruct p, q.
Qed.

Lemma floor_between (k : Z) (r : R) : IZR k <= r < IZR k + 1 -> floor r = k.
Proof.
  intros [Hlo Hhi]. unfold floor. symmetry. apply Int_part_spec. lra.
Qed.

(** With exact arithmetic, at zoom 2: the point of latitude 0 and
    longitude 0 lies in tile (2, 2), the point of latitude 45 and longitude
    90 in tile (3, 1). *)
Lemma latlon2xyz_0_0 : latlon2xyz exact 0 0 2 = inr (2%Z, 2%Z).
Proof.
  assert (Hpi := PI_RGT_0).
  unfold latlon2xyz, sec, log, tile_count. cbn.
  change (2 ^ 2)%Z with 4%Z.
  replace (0 * PI / 180) with 0 by lra.
  rewrite cos_0, tan_0.
  destruct (Req_dec_T 1 0) as [H10 | _]; [lra |].
  destruct (Rlt_dec 0 (0 + 1 / 1)) as [_ | Hn]; [| lra].
  replace (0 + 1 / 1) with 1 by lra. rewrite ln_1.
  do 2 f_equal; apply floor_between; unfold Rdiv; rewrite ?Rmult_0_l; lra.
Qed.

Lemma ln_1_sqrt2 : 0 < ln (1 + sqrt 2) < 3 / 2.
Proof.
  assert (Hs : 0 < sqrt 2) by (apply sqrt_lt_R0; lra).
  assert (Hs2 : sqrt 2 * sqrt 2 = 2) by (apply sqrt_def; lra).
  split.
  - rewrite <- ln_1. apply ln_increasing; lra.
  - rewrite <- (ln_exp (3 / 2)). apply ln_increasing; [lra |].
    assert (He : 1 + 3 / 2 < exp (3 / 2)) by (apply exp_ineq1; lra).
    nra.
Qed.

Lemma latlon2xyz_45_90 : latlon2xyz exact 45 90 2 = inr (3%Z, 1%Z).
Proof.
  assert (Hpi := PI_RGT_0). assert (Hpi2 := PI2_3_2).
  assert (Hs : 0 < sqrt 2) by (apply sqrt_lt_R0; lra).
  destruct ln_1_sqrt2 as [Hl0 Hl1].
  unfold latlon2xyz, sec, log, tile_count. cbn.
  change (2 ^ 2)%Z with 4%Z.
  replace (45 * PI / 180) with (PI / 4) by lra.
  rewrite cos_PI4, tan_PI4.
  destruct (Req_dec_T (1 / sqrt 2) 0) as [H0 | _].
  { exfalso. assert (0 < 1 / sqrt 2) by (apply Rdiv_lt_0_compat; lra). lra. }
  replace (1 / (1 / sqrt 2)) with (sqrt 2) by (field; lra).
  destruct (Rlt_dec 0 (1 + sqrt 2)) as [_ | Hn]; [| lra].
  assert (Hq : 0 < ln (1 + sqrt 2) / PI <= 1 / 2).
  { split; [apply Rdiv_lt_0_compat; lra |].
    apply (Rmult_le_reg_r PI); [lra |]. unfold Rdiv.
    rewrite Rmult_assoc, Rinv_l by lra. lra. }
  do 2 f_equal; apply floor_between; lra.
Qed.

Lemma bbox2xyz_corners_witness :
  bbox2xyz exact 0 0 90 45 2 = inr (2%Z, 1%Z, 3%Z, 2%Z).
Proof.
  exact (bbox2xyz_corners exact 0 0 90 45 2 (2%Z, 2%Z) (3%Z, 1%Z)
           latlon2xyz_0_0 latlon2xyz_45_90).
Defined.

End TileMath.

(** The result of running modelled Python code: a value, an exception, or
    [Stuck] when the model cannot proceed (a reference that names no object,
    recursion fuel exhausted): no Python execution ends in [Stuck]. *)
Inductive outcome (A : Type) : Type :=
  | Ret (a : A)
  | Raise (e : exn)
  | Stuck.
Arguments Ret {A} a.
Arguments Raise {A} e.
Arguments Stuck {A}.

(** ** Mask compositor ([rasters/utils.py], lines 16-56) *)
Module MaskCompositor.

Local Open Scope Z_scope.

(** An RGB image is an array of shape (H, W, 3): rows of pixels of three
    channels. The arrays are [uint8] images, as [merge_masks] makes them
    with [astype("uint8")]: a value stored in one is converted to [uint8].
    An array of a wider integer type would store the colours 0..255 as they
    are, like a [uint8] array, and differ on the others; the statements
    that depend on the value stored are about colours 0..255 or about
    [uint8] masks. *)
Definition pixel : Type := Z * Z * Z.
Definition image : Type := list (list pixel).

Definition black : pixel := (0, 0, 0).

(** Conversion of an integer to [uint8] wraps around. *)
Definition to_uint8 (c : Z) : Z := c mod 256.
Definition pixel_to_uint8 (p : pixel) : pixel :=
  let '(r, g, b) := p in (to_uint8 r, to_uint8 g, to_uint8 b).

(** numpy arrays are mutable objects: a store maps a reference to the
    array it names. *)
Definition ref : Type := nat.
Definition store : Type := list image.

(** [np.any(color_img != [0, 0, 0], axis=-1)] at one pixel. *)
Definition any_ne_black (p : pixel) : bool :=
  let '(r, g, b) := p in negb (r =? 0) || negb (g =? 0) || negb (b =? 0).

Definition nonblack_mask (img : image) : list (list bool) :=
  map (map any_ne_black) img.

(** [color_img[mask] = np.array(color)]: the pixels selected by the boolean
    mask receive the colour, converted to the element type of the array. *)
Definition assign_masked (img : image) (mask : list (list bool))
    (color : pixel) : image :=
  zip_with (zip_with (fun p (m : bool) =>
                        if m then pixel_to_uint8 color else p)) img mask.

Definition color_mask (mask : ref) (color : pixel) (st : store)
  : outcome ref * store :=
  match st !! mask with
  | None => (Stuck, st)
  | Some img =>
      (* color_img = mask.copy() *)
      let color_img := length st in
      let st := st ++ [img] in
      (* mask = np.any((color_img != [0, 0, 0]), axis=-1) *)
      let mask := nonblack_mask img in
      (* color_img[mask] = np.array(color) *)
      let st := alter (fun a => assign_masked a mask color) color_img st in
      (Ret color_img, st)
  end.

(** [ImageChops.add(image1, image2)]: per channel [min (a + b) 255], over
    the common extent of the two images. *)
Definition clip8 (c : Z) : Z := Z.max 0 (Z.min c 255).
Definition pixel_add (p q : pixel) : pixel :=
  let '(r1, g1, b1) := p in
  let '(r2, g2, b2) := q in
  (clip8 (r1 + r2), clip8 (g1 + g2), clip8 (b1 + b2)).
Definition chops_add (image1 image2 : image) : image :=
  zip_with (zip_with pixel_add) image1 image2.

Definition astype_uint8 (a : image) : image := map (map pixel_to_uint8) a.

(** [merge_masks] reads its arguments only, so it takes the arrays by
    value. [masks[0]] raises [IndexError] on an empty list. *)
Definition merge_masks (masks : list image) : exn + image :=
  match masks with
  | [] => inl IndexError
  | mask0 :: rest =>
      let out_image := astype_uint8 mask0 in
      inr (fold_left (fun out_image mask =>
                        chops_add out_image (astype_uint8 mask))
                     rest out_image)
  end.

(** What [color_mask] leaves in the new array: every pixel that is not
    black has become the colour. *)
Definition recolor_pixel (color : pixel) (p : pixel) : pixel :=
  if any_ne_black p then pixel_to_uint8 color else p.
Definition recolored (color : pixel) (img : image) : image :=
  map (map (recolor_pixel color)) img.

Lemma assign_masked_row (color : pixel) (row : list pixel) :
  zip_with (fun p (m : bool) => if m then pixel_to_uint8 color else p)
           row (map any_ne_black row)
  = map (recolor_pixel color) row.
Proof.
  induction row as [| p row IH]; [reflexivity |].
  cbn [map zip_with]. now rewrite IH.
Qed.

Lemma assign_masked_nonblack (color : pixel) (img : image) :
  assign_masked img (nonblack_mask img) color = recolored color img.
Proof.
  unfold assign_masked, nonblack_mask, recolored.
  induction img as [| row img IH]; [reflexivity |].
  cbn [map zip_with]. now rewrite assign_masked_row, IH.
Qed.

Lemma color_mask_spec (mask : ref) (color : pixel) (st : store) (img : image) :
  st !! mask = Some img ->
  color_mask mask color st
    = (Ret (length st), st ++ [recolored color img]).
Proof.
  intros Hm. unfold color_mask. rewrite Hm. f_equal.
  apply list_eq. intros i.
  destruct (decide (i = length st)) as [-> | Hne].
  - rewrite list_lookup_alter_eq.
    rewrite !lookup_app_r by lia. rewrite Nat.sub_diag. cbn.
    now rewrite assign_masked_nonblack.
  - rewrite list_lookup_alter_ne by congruence.
    destruct (decide (i < length st)%nat) as [Hlt | Hge].
    + now rewrite !lookup_app_l by lia.
    + rewrite !lookup_app_r by lia.
      destruct (i - length st)%nat as [| k] eqn:Hk; [lia | reflexivity].
Qed.

Lemma recolor_pixel_idempotent (color p : pixel) :
  recolor_pixel color (recolor_pixel color p) = recolor_pixel color p.
Proof.
  unfold recolor_pixel. destruct (any_ne_black p) eqn:Hp.
  - now destruct (any_ne_black (pixel_to_uint8 color)).
  - now rewrite Hp.
Qed.

Lemma recolored_idempotent (color : pixel) (img : image) :
  recolored color (recolored color img) = recolored color img.
Proof.
  unfold recolored. rewrite map_map. apply map_ext. intros row.
  rewrite map_map. apply map_ext. intros p. apply recolor_pixel_idempotent.
Qed.

Lemma recolored_black_pixel (p : pixel) : recolor_pixel black p = black.
Proof.
  unfold recolor_pixel. destruct (any_ne_black p) eqn:Hp; [reflexivity |].
  destruct p as [[r g] b]. cbn in Hp.
  destruct (Z.eqb_spec r 0), (Z.eqb_spec g 0), (Z.eqb_spec b 0);
    cbn in Hp; try discriminate.
  now subst.
Qed.

(** An image of the same shape with every pixel black. *)
Definition all_black (img : image) : image := map (map (fun _ => black)) img.

Lemma recolored_black (img : image) : recolored black img = all_black img.
Proof.
  unfold recolored, all_black. apply map_ext. intros row.
  apply map_ext. intros p. apply recolored_black_pixel.
Qed.

(** C4 (as stated) fails: with black as the colour, [color_mask] on a one
    pixel red mask raises nothing; it returns a new array, all black. *)
Lemma color_mask_black_returns :
  color_mask 0%nat black [ [[(255, 0, 0)]] ]
    = (Ret 1%nat, [ [[(255, 0, 0)]]; [[(0, 0, 0)]] ])
  /\ forall e st', color_mask 0%nat black [ [[(255, 0, 0)]] ] <> (Raise e, st').
Proof. split; [reflexivity | intros e st' H; discriminate H]. Qed.

(** C4 (amended): for every RGB mask, [color_mask] with black as the colour
    raises no exception: it returns a new array of the same shape whose
    pixels are all black. *)
Theorem color_mask_black (mask : ref) (st : store) (img : image) :
  st !! mask = Some img ->
  color_mask mask black st = (Ret (length st), st ++ [all_black img]).
Proof.
  intros Hm. rewrite (color_mask_spec mask black st img Hm).
  now rewrite recolored_black.
Qed.

Lemma color_mask_black_witness :
  color_mask 0%nat black [ [[(255, 0, 0); (0, 0, 0)]] ]
    = (Ret 1%nat,
       [ [[(255, 0, 0); (0, 0, 0)]] ]
         ++ [all_black [[(255, 0, 0); (0, 0, 0)]]]).
Proof.
  apply (color_mask_black 0%nat [ [[(255, 0, 0); (0, 0, 0)]] ]
           [[(255, 0, 0); (0, 0, 0)]]).
  reflexivity.
Defined.

(** C5: [merge_masks] on an empty sequence of masks fails: [masks[0]]
    raises (the exception is Python's [IndexError]). *)
Theorem merge_masks_empty : merge_masks [] = inl IndexError.
Proof. reflexivity. Qed.

(** C8: for every RGB mask and every colour [c] other than black,
    [color_mask] is idempotent: the array returned by
    [color_mask (color_mask mask c) c] has the contents of the array
    returned by [color_mask mask c]. *)
Theorem color_mask_idempotent (mask : ref) (c : pixel) (st : store)
    (img : image) :
  c <> black ->
  st !! mask = Some img ->
  exists once twice st1 st2 out,
    color_mask mask c st = (Ret once, st1)
    /\ color_mask once c st1 = (Ret twice, st2)
    /\ st1 !! once = Some out
    /\ st2 !! twice = Some out.
Proof.
  intros _ Hm.
  pose proof (color_mask_spec mask c st img Hm) as H1.
  assert (Hl : (st ++ [recolored c img]) !! length st
               = Some (recolored c img)).
  { now apply list_lookup_middle. }
  pose proof (color_mask_spec _ c _ _ Hl) as H2.
  eexists _, _, _, _, (recolored c img).
  split; [exact H1 |]. split; [exact H2 |]. split; [exact Hl |].
  rewrite recolored_idempotent. now apply list_lookup_middle.
Qed.

Lemma color_mask_idempotent_witness :
  exists once twice st1 st2 out,
    color_mask 0%nat (0, 128, 255) [ [[(7, 0, 0); (0, 0, 0)]] ]
      = (Ret once, st1)
    /\ color_mask once (0, 128, 255) st1 = (Ret twice, st2)
    /\ st1 !! once = Some out
    /\ st2 !! twice = Some out.
Proof.
  apply (color_mask_idempotent 0%nat (0, 128, 255)
           [ [[(7, 0, 0); (0, 0, 0)]] ] [[(7, 0, 0); (0, 0, 0)]]).
  - discriminate.
  - reflexivity.
Defined.

(** C10: for every RGB mask and every colour, [color_mask] does not mutate
    its input: the call returns a reference different from that of the
    input, and afterwards every array of the store before the call, the
    input among them, is unchanged. *)
Theorem color_mask_input_unchanged (mask : ref) (color : pixel) (st : store)
    (img : image) :
  st !! mask = Some img ->
  exists color_img st',
    color_mask mask color st = (Ret color_img, st')
    /\ color_img <> mask
    /\ st' !! mask = Some img
    /\ forall r a, st !! r = Some a -> st' !! r = Some a.
Proof.
  intros Hm. exists (length st), (st ++ [recolored color img]).
  split; [now apply color_mask_spec |].
  apply lookup_lt_Some in Hm as Hlt.
  split; [lia |].
  split; [now apply lookup_app_l_Some |].
  intros r a Hr. now apply lookup_app_l_Some.
Qed.

Lemma color_mask_input_unchanged_witness :
  exists color_img st',
    color_mask 0%nat (0, 128, 255) [ [[(7, 0, 0); (0, 0, 0)]] ]
      = (Ret color_img, st')
    /\ color_img <> 0%nat
    /\ st' !! 0%nat = Some [[(7, 0, 0); (0, 0, 0)]]
    /\ forall r a,
         [ [[(7, 0, 0); (0, 0, 0)]] ] !! r = Some a -> st' !! r = Some a.
Proof.
  apply (color_mask_input_unchanged 0%nat (0, 128, 255)
           [ [[(7, 0, 0); (0, 0, 0)]] ] [[(7, 0, 0); (0, 0, 0)]]).
  reflexivity.
Defined.

(** *** Further properties of the mask compositor *)

(** A pixel, and an image, whose channels are [uint8] values. *)
Definition pixel_in_range (p : pixel) : Prop :=
  let '(r, g, b) := p in
  (0 <= r <= 255) /\ (0 <= g <= 255) /\ (0 <= b <= 255).

Definition image_in_range (img : image) : Prop :=
  Forall (Forall pixel_in_range) img.

Lemma pixel_to_uint8_in_range (p : pixel) : pixel_in_range (pixel_to_uint8 p).
Proof.
  destruct p as [[r g] b]. unfold pixel_to_uint8, to_uint8. cbn.
  pose proof (Z.mod_pos_bound r 256). pose proof (Z.mod_pos_bound g 256).
  pose proof (Z.mod_pos_bound b 256). lia.
Qed.

Lemma pixel_to_uint8_id (p : pixel) : pixel_in_range p -> pixel_to_uint8 p = p.
Proof.
  destruct p as [[r g] b]. unfold pixel_to_uint8, to_uint8. cbn.
  intros (Hr & Hg & Hb). now rewrite !Z.mod_small by lia.
Qed.

Lemma astype_uint8_in_range (a : image) : image_in_range (astype_uint8 a).
Proof.
  unfold image_in_range, astype_uint8.
  apply Forall_forall. intros row Hrow.
  apply list_elem_of_fmap in Hrow as (row0 & -> & _).
  apply Forall_forall. intros p Hp.
  apply list_elem_of_fmap in Hp as (p0 & -> & _).
  apply pixel_to_uint8_in_range.
Qed.

Lemma astype_uint8_id (a : image) : image_in_range a -> astype_uint8 a = a.
Proof.
  unfold image_in_range, astype_uint8. intros Ha.
  induction Ha as [| row a Hrow _ IH]; [done |].
  cbn [map]. rewrite IH. f_equal.
  induction Hrow as [| p row Hp _ IHrow]; [done |].
  cbn [map]. now rewrite IHrow, pixel_to_uint8_id.
Qed.

Lemma pixel_add_in_range (p q : pixel) : pixel_in_range (pixel_add p q).
Proof.
  destruct p as [[r1 g1] b1], q as [[r2 g2] b2].
  unfold pixel_add, clip8. cbn. lia.
Qed.

Lemma pixel_add_comm (p q : pixel) : pixel_add p q = pixel_add q p.
Proof.
  destruct p as [[r1 g1] b1], q as [[r2 g2] b2]. unfold pixel_add.
  now rewrite (Z.add_comm r1), (Z.add_comm g1), (Z.add_comm b1).
Qed.

Lemma pixel_add_assoc (p q s : pixel) :
  pixel_in_range p -> pixel_in_range q -> pixel_in_range s ->
  pixel_add (pixel_add p q) s = pixel_add p (pixel_add q s).
Proof.
  destruct p as [[r1 g1] b1], q as [[r2 g2] b2], s as [[r3 g3] b3].
  unfold pixel_add, clip8, pixel_in_range.
  intros (? & ? & ?) (? & ? & ?) (? & ? & ?).
  f_equal; [f_equal |]; lia.
Qed.

Lemma chops_add_in_range (a b : image) : image_in_range (chops_add a b).
Proof.
  unfold image_in_range, chops_add. revert b.
  induction a as [| ra a IH]; intros [| rb b]; cbn; try constructor.
  - clear. revert rb. induction ra as [| p ra IH]; intros [| q rb]; cbn;
      try constructor; [apply pixel_add_in_range | apply IH].
  - apply IH.
Qed.

Lemma chops_add_comm (a b : image) : chops_add a b = chops_add b a.
Proof.
  unfold chops_add. revert b.
  induction a as [| ra a IH]; intros [| rb b]; cbn; try done.
  rewrite IH. f_equal. clear. revert rb.
  induction ra as [| p ra IH]; intros [| q rb]; cbn; try done.
  now rewrite IH, pixel_add_comm.
Qed.

Lemma chops_add_assoc (a b c : image) :
  image_in_range a -> image_in_range b -> image_in_range c ->
  chops_add (chops_add a b) c = chops_add a (chops_add b c).
Proof.
  unfold chops_add, image_in_range. intros Ha. revert b c.
  induction Ha as [| ra a Hra _ IH]; intros b c Hb Hc; [done |].
  destruct Hb as [| rb b Hrb Hb]; [done |].
  destruct Hc as [| rc c Hrc Hc]; [done |].
  cbn. rewrite IH by done. f_equal. clear - Hra Hrb Hrc.
  revert rb rc Hrb Hrc.
  induction Hra as [| p ra Hp _ IH]; intros rb rc Hrb Hrc; [done |].
  destruct Hrb as [| q rb Hq Hrb]; [done |].
  destruct Hrc as [| s rc Hs Hrc]; [done |].
  cbn. now rewrite IH, pixel_add_assoc.
Qed.

(** Merging images that are already [uint8]. *)
Definition merged (ms : list image) : option image :=
  match ms with
  | [] => None
  | m :: ms => Some (fold_left chops_add ms m)
  end.

Lemma merge_masks_merged (masks : list image) :
  merge_masks masks
    = match merged (map astype_uint8 masks) with
      | Some out => inr out
      | None => inl IndexError
      end.
Proof.
  destruct masks as [| m rest]; [done |]. cbn. f_equal.
  generalize (astype_uint8 m). induction rest as [| b rest IH]; intros a;
    [done |].
  cbn. apply IH.
Qed.

Lemma fold_chops_add_perm (ms ms' : list image) :
  Permutation ms ms' ->
  forall a, image_in_range a -> Forall image_in_range ms ->
       fold_left chops_add ms a = fold_left chops_add ms' a.
Proof.
  induction 1 as [| m ms ms' _ IH | m1 m2 ms | ms1 ms2 ms3 H12 IH12 H23 IH23];
    intros a Ha Hms.
  - done.
  - apply Forall_cons in Hms as [Hm Hms]. cbn.
    apply IH; [apply chops_add_in_range | done].
  - apply Forall_cons in Hms as [H2 Hms].
    apply Forall_cons in Hms as [H1 Hms]. cbn. f_equal.
    rewrite !chops_add_assoc by done. f_equal. apply chops_add_comm.
  - rewrite IH12 by done. apply IH23; [done |].
    eapply Permutation_Forall; eauto.
Qed.

Lemma merged_perm (ms ms' : list image) :
  Permutation ms ms' -> Forall image_in_range ms -> merged ms = merged ms'.
Proof.
  induction 1 as [| m ms ms' Hperm _ | m1 m2 ms | ms1 ms2 ms3 H12 IH12 H23 IH23];
    intros Hms.
  - done.
  - apply Forall_cons in Hms as [Hm Hms]. cbn. f_equal.
    now apply fold_chops_add_perm.
  - cbn. f_equal. f_equal. apply chops_add_comm.
  - rewrite IH12 by done. apply IH23. eapply Permutation_Forall; eauto.
Qed.

(** The result of [merge_masks] does not depend on the order of the
    masks. *)
Theorem merge_masks_permutation (masks masks' : list image) :
  Permutation masks masks' -> merge_masks masks = merge_masks masks'.
Proof.
  intros Hperm. rewrite !merge_masks_merged.
  rewrite (merged_perm (map astype_uint8 masks) (map astype_uint8 masks')).
  - done.
  - now apply Permutation_map.
  - apply Forall_forall. intros m Hm.
    apply list_elem_of_fmap in Hm as (m0 & -> & _).
    apply astype_uint8_in_range.
Qed.

Lemma merge_masks_permutation_witness :
  merge_masks [ [[(255, 0, 0); (0, 0, 0)]]; [[(0, 0, 0); (0, 200, 0)]] ]
  = merge_masks [ [[(0, 0, 0); (0, 200, 0)]]; [[(255, 0, 0); (0, 0, 0)]] ].
Proof. apply merge_masks_permutation. apply perm_swap. Defined.

(** The sum of two images channel by channel, without a bound, and the
    bound at 255. *)
Definition pixel_sum (p q : pixel) : pixel :=
  let '(r1, g1, b1) := p in
  let '(r2, g2, b2) := q in
  (r1 + r2, g1 + g2, b1 + b2).
Definition image_sum (a b : image) : image :=
  zip_with (zip_with pixel_sum) a b.

Definition bounded (c : Z) : Z := Z.min c 255.
Definition pixel_bounded (p : pixel) : pixel :=
  let '(r, g, b) := p in (bounded r, bounded g, bounded b).
Definition image_bounded (a : image) : image := map (map pixel_bounded) a.

Definition pixel_nonneg (p : pixel) : Prop :=
  let '(r, g, b) := p in 0 <= r /\ 0 <= g /\ 0 <= b.
Definition image_nonneg (a : image) : Prop := Forall (Forall pixel_nonneg) a.

Lemma pixel_add_bounded (p q : pixel) :
  pixel_nonneg p -> pixel_in_range q ->
  pixel_add (pixel_bounded p) q = pixel_bounded (pixel_sum p q)
  /\ pixel_nonneg (pixel_sum p q).
Proof.
  destruct p as [[r1 g1] b1], q as [[r2 g2] b2].
  unfold pixel_add, pixel_bounded, pixel_sum, clip8, bounded. cbn.
  intros (? & ? & ?) (? & ? & ?).
  split; [f_equal; [f_equal |]; lia | lia].
Qed.

Lemma chops_add_bounded (a b : image) :
  image_nonneg a -> image_in_range b ->
  chops_add (image_bounded a) b = image_bounded (image_sum a b)
  /\ image_nonneg (image_sum a b).
Proof.
  unfold chops_add, image_bounded, image_sum, image_nonneg, image_in_range.
  intros Ha. revert b.
  induction Ha as [| ra a Hra _ IH]; intros [| rb b] Hb; cbn;
    try (split; [done | constructor]).
  apply Forall_cons in Hb as [Hrb Hb].
  destruct (IH b Hb) as [-> Hnn].
  assert (Hrow : zip_with pixel_add (map pixel_bounded ra) rb
                 = map pixel_bounded (zip_with pixel_sum ra rb)
                 /\ Forall pixel_nonneg (zip_with pixel_sum ra rb)).
  { clear - Hra Hrb. revert rb Hrb.
    induction Hra as [| p ra Hp _ IH]; intros [| q rb] Hrb; cbn;
      try (split; [done | constructor]).
    apply Forall_cons in Hrb as [Hq Hrb].
    destruct (IH rb Hrb) as [-> Hnn].
    destruct (pixel_add_bounded p q Hp Hq) as [-> Hpq].
    split; [done | now constructor]. }
  destruct Hrow as [-> Hrow]. split; [done | now constructor].
Qed.

Lemma fold_chops_add_bounded (ms : list image) (a : image) :
  image_nonneg a -> Forall image_in_range ms ->
  fold_left chops_add ms (image_bounded a)
  = image_bounded (fold_left image_sum ms a).
Proof.
  revert a. induction ms as [| b ms IH]; intros a Ha Hms; [done |].
  apply Forall_cons in Hms as [Hb Hms]. cbn.
  destruct (chops_add_bounded a b Ha Hb) as [-> Hnn]. now apply IH.
Qed.

Lemma image_bounded_id (a : image) :
  image_in_range a -> image_bounded a = a /\ image_nonneg a.
Proof.
  unfold image_in_range, image_bounded, image_nonneg. intros Ha.
  induction Ha as [| row a Hrow _ [IH1 IH2]]; [split; [done | constructor] |].
  cbn [map]. rewrite IH1.
  assert (Hr : map pixel_bounded row = row /\ Forall pixel_nonneg row).
  { clear - Hrow. induction Hrow as [| p row Hp _ [IH1 IH2]];
      [split; [done | constructor] |].
    cbn [map]. rewrite IH1. destruct p as [[r g] b].
    destruct Hp as (? & ? & ?). unfold pixel_bounded, bounded.
    split; [do 2 f_equal; [f_equal |]; lia | constructor; [cbn; lia | done]]. }
  destruct Hr as [-> Hr]. split; [done | now constructor].
Qed.

(** The sums of [merge_masks] saturate instead of overflowing: on [uint8]
    masks, every channel of the result is the sum of the channels of all
    the masks at that position, or 255 when the sum is above 255 (over the
    extent the masks have in common). *)
Theorem merge_masks_saturates (m : image) (rest : list image) :
  image_in_range m -> Forall image_in_range rest ->
  merge_masks (m :: rest) = inr (image_bounded (fold_left image_sum rest m)).
Proof.
  intros Hm Hrest. rewrite merge_masks_merged. cbn [map merged].
  rewrite (astype_uint8_id m Hm).
  replace (map astype_uint8 rest) with rest.
  - destruct (image_bounded_id m Hm) as [Hid Hnn].
    rewrite <- Hid at 1. now rewrite fold_chops_add_bounded.
  - clear - Hrest. induction Hrest as [| b rest Hb _ IH]; [done |].
    cbn [map]. now rewrite <- IH, astype_uint8_id.
Qed.

Lemma merge_masks_saturates_witness :
  merge_masks [ [[(200, 100, 0); (0, 0, 0)]]; [[(100, 100, 0); (0, 0, 9)]];
                [[(100, 50, 1); (0, 0, 9)]] ]
  = inr (image_bounded
           (fold_left image_sum
              [ [[(100, 100, 0); (0, 0, 9)]]; [[(100, 50, 1); (0, 0, 9)]] ]
              [[(200, 100, 0); (0, 0, 0)]])).
Proof.
  apply merge_masks_saturates.
  - repeat (apply Forall_cons; split); try apply Forall_nil; cbn; lia.
  - repeat (apply Forall_cons; split); try apply Forall_nil; cbn; lia.
Defined.

(** The example above, computed: 200 + 100 + 100 gives 255. *)
Example merge_masks_saturates_example :
  merge_masks [ [[(200, 100, 0); (0, 0, 0)]]; [[(100, 100, 0); (0, 0, 9)]];
                [[(100, 50, 1); (0, 0, 9)]] ]
  = inr [[(255, 250, 1); (0, 0, 18)]].
Proof. reflexivity. Qed.

(** A single [uint8] mask is returned as it is. *)
Theorem merge_masks_single (m : image) :
  image_in_range m -> merge_masks [m] = inr m.
Proof. intros Hm. cbn. now rewrite astype_uint8_id. Qed.

Lemma merge_masks_single_witness :
  merge_masks [ [[(255, 0, 0); (0, 0, 0)]] ] = inr [[(255, 0, 0); (0, 0, 0)]].
Proof.
  apply merge_masks_single. repeat constructor; cbn; lia.
Defined.

Lemma any_ne_black_false (p : pixel) : any_ne_black p = false <-> p = black.
Proof.
  destruct p as [[r g] b]. unfold any_ne_black, black. split.
  - intros Hp.
    destruct (Z.eqb_spec r 0), (Z.eqb_spec g 0), (Z.eqb_spec b 0);
      cbn in Hp; try discriminate.
    now subst.
  - intros Hp. injection Hp as -> -> ->. reflexivity.
Qed.

(** Where the coloured regions of two [uint8] masks of one shape do not
    overlap (at every position one of the two pixels is black), the merge
    has at every position the pixel of the first mask if it is coloured,
    and that of the second otherwise: no colour is altered. *)
Theorem merge_masks_disjoint (a b : image) :
  image_in_range a -> image_in_range b ->
  Forall2 (Forall2 (fun p q => p = black \/ q = black)) a b ->
  merge_masks [a; b]
    = inr (zip_with (zip_with (fun p q => if any_ne_black p then p else q))
             a b).
Proof.
  intros Ha Hb Hdisj. cbn. rewrite !astype_uint8_id by done. f_equal.
  unfold chops_add, image_in_range in *.
  induction Hdisj as [| ra rb a b Hrow _ IH]; [done |].
  apply Forall_cons in Ha as [Hra Ha]. apply Forall_cons in Hb as [Hrb Hb].
  cbn. rewrite IH by done. f_equal. clear - Hrow Hra Hrb.
  induction Hrow as [| p q ra rb Hpq _ IH]; [done |].
  apply Forall_cons in Hra as [Hp Hra]. apply Forall_cons in Hrb as [Hq Hrb].
  cbn. rewrite IH by done. f_equal.
  destruct p as [[r1 g1] b1], q as [[r2 g2] b2].
  unfold pixel_in_range in Hp, Hq.
  destruct Hpq as [Hblack | Hblack]; injection Hblack as -> -> ->.
  - cbn. unfold clip8. f_equal; [f_equal |]; lia.
  - destruct (any_ne_black (r1, g1, b1)) eqn:Hne.
    + unfold pixel_add, clip8. f_equal; [f_equal |]; lia.
    + apply any_ne_black_false in Hne. injection Hne as -> -> ->.
      reflexivity.
Qed.

Lemma merge_masks_disjoint_witness :
  merge_masks [ [[(255, 0, 0); (0, 0, 0)]]; [[(0, 0, 0); (0, 200, 0)]] ]
  = inr (zip_with (zip_with (fun p q => if any_ne_black p then p else q))
           [[(255, 0, 0); (0, 0, 0)]] [[(0, 0, 0); (0, 200, 0)]]).
Proof.
  apply merge_masks_disjoint.
  - repeat (apply Forall_cons; split); try apply Forall_nil; cbn; lia.
  - repeat (apply Forall_cons; split); try apply Forall_nil; cbn; lia.
  - constructor; [| constructor].
    constructor; [right; reflexivity |].
    constructor; [left; reflexivity | constructor].
Defined.

(** The array [color_mask] returns has the shape of the mask; a black
    pixel of the mask is black in it, and every other pixel has the colour.
    The colour has its channels between 0 and 255, values that an array of
    any integer type holds as they are. *)
Theorem color_mask_pixels (mask : ref) (color : pixel) (st : store)
    (img : image) :
  st !! mask = Some img ->
  pixel_in_range color ->
  exists color_img st' out,
    color_mask mask color st = (Ret color_img, st')
    /\ st' !! color_img = Some out
    /\ Forall2 (Forall2 (fun p p' =>
                           p' = if decide (p = black) then black else color))
         img out.
Proof.
  intros Hm Hcolor. exists (length st), (st ++ [recolored color img]),
    (recolored color img).
  split; [now apply color_mask_spec |].
  split; [now apply list_lookup_middle |].
  assert (Hpix : forall p,
            recolor_pixel color p
            = if decide (p = black) then black else color).
  { intros p. unfold recolor_pixel. rewrite (pixel_to_uint8_id color Hcolor).
    destruct (any_ne_black p) eqn:Hp.
    - destruct (decide (p = black)) as [Hb | _]; [| done].
      apply any_ne_black_false in Hb. congruence.
    - apply any_ne_black_false in Hp. subst.
      now destruct (decide (black = black)). }
  unfold recolored. clear Hm.
  induction img as [| row img IH]; cbn [map]; constructor; [| exact IH].
  clear IH. induction row as [| p row IH]; cbn [map]; constructor;
    [apply Hpix | exact IH].
Qed.

Lemma color_mask_pixels_witness :
  exists color_img st' out,
    color_mask 0%nat (0, 128, 255) [ [[(7, 0, 0); (0, 0, 0)]] ]
      = (Ret color_img, st')
    /\ st' !! color_img = Some out
    /\ Forall2 (Forall2 (fun p p' =>
                           p' = if decide (p = black) then black
                                else (0, 128, 255)))
         [[(7, 0, 0); (0, 0, 0)]] out.
Proof.
  apply (color_mask_pixels 0%nat (0, 128, 255)
           [ [[(7, 0, 0); (0, 0, 0)]] ] [[(7, 0, 0); (0, 0, 0)]]).
  - reflexivity.
  - cbn. lia.
Defined.

End MaskCompositor.

(** ** The annotation record ([annotations/annotation.py]) *)
Module Annotations.

Local Open Scope string_scope.
Local Open Scope list_scope.
Local Open Scope Z_scope.

(** *** Python values and the heap *)

(** A value is an immutable atom or a reference to a container of the
    heap. Two occurrences of one reference name one object: a mutation made
    through either is seen through both. *)
Inductive val : Type :=
  | VNone
  | VBool (b : bool)
  | VInt (n : Z)
  | VStr (s : string)
  | VRef (l : nat).

(** The containers: lists, tuples, and dicts with string keys, in insertion
    order. *)
Inductive obj : Type :=
  | OList (items : list val)
  | OTuple (items : list val)
  | ODict (entries : list (string * val)).

(** The heap: the object of reference [l] is the element of index [l];
    allocation appends. *)
Abbreviation heap := (list obj) (only parsing).

#[global] Instance val_eq_dec : EqDecision val.
Proof. solve_decision. Defined.
#[global] Instance obj_eq_dec : EqDecision obj.
Proof. solve_decision. Defined.

(** The values an object holds, and the references among them. *)
Definition obj_vals (o : obj) : list val :=
  match o with
  | OList items | OTuple items => items
  | ODict entries => map snd entries
  end.

Definition val_refs (v : val) : list nat :=
  match v with VRef l => [l] | _ => [] end.

Definition obj_refs (o : obj) : list nat := concat (map val_refs (obj_vals o)).

(** Lists and dicts can be mutated; a tuple cannot. *)
Definition is_mutable (o : obj) : bool :=
  match o with
  | OList _ | ODict _ => true
  | OTuple _ => false
  end.

(** *** Running Python code: heap passing with exceptions *)

Definition M (A : Type) : Type := heap -> outcome A * heap.

Definition ret {A} (a : A) : M A := fun h => (Ret a, h).
Definition raise {A} (e : exn) : M A := fun h => (Raise e, h).
Definition stuck {A} : M A := fun h => (Stuck, h).

Definition bind {A B} (m : M A) (k : A -> M B) : M B :=
  fun h =>
    match m h with
    | (Ret a, h') => k a h'
    | (Raise e, h') => (Raise e, h')
    | (Stuck, h') => (Stuck, h')
    end.

Notation "'let*' x ':=' m 'in' k" := (bind m (fun x => k))
  (at level 10, x pattern, m at level 100, k at level 200).
Notation "m ';;' k" := (bind m (fun _ => k))
  (at level 100, k at level 200, right associativity).

(** A new object gets the next reference. *)
Definition alloc (o : obj) : M val :=
  fun h => (Ret (VRef (length h)), h ++ [o]).

(** The object a reference names. *)
Definition deref (l : nat) : M obj :=
  fun h => match h !! l with Some o => (Ret o, h) | None => (Stuck, h) end.

Definition store (l : nat) (o : obj) : M unit :=
  fun h => match h !! l with
           | Some _ => (Ret tt, <[l := o]> h)
           | None => (Stuck, h)
           end.

(** [for x in xs: body(x)] over the items already read from a container. *)
Fixpoint for_each (xs : list val) (body : val -> M unit) : M unit :=
  match xs with
  | [] => ret tt
  | x :: xs => body x;; for_each xs body
  end.

(** *** Built-in operations *)

(** Truth value of an object, as [x or default] tests it. *)
Definition truthy (v : val) : M bool :=
  match v with
  | VNone => ret false
  | VBool b => ret b
  | VInt n => ret (negb (n =? 0))
  | VStr s => ret (negb (String.eqb s ""))
  | VRef l =>
      let* o := deref l in
      ret (match obj_vals o with [] => false | _ :: _ => true end)
  end.

(** [x or default]: the default is evaluated only when [x] is false. *)
Definition py_or (x : val) (default : M val) : M val :=
  let* t := truthy x in
  if t then ret x else default.

(** [isinstance(value, dict)] and [isinstance(values, (list, tuple))]. *)
Definition isinstance_dict (v : val) : M bool :=
  match v with
  | VRef l =>
      let* o := deref l in
      ret (match o with ODict _ => true | _ => false end)
  | _ => ret false
  end.

Definition isinstance_list_tuple (v : val) : M bool :=
  match v with
  | VRef l =>
      let* o := deref l in
      ret (match o with OList _ | OTuple _ => true | ODict _ => false end)
  | _ => ret false
  end.

(** The items [for x in v] goes through: the elements of a list or tuple,
    the keys of a dict, the characters of a string; other atoms are not
    iterable. *)
Fixpoint chars (s : string) : list val :=
  match s with
  | EmptyString => []
  | String c s => VStr (String c EmptyString) :: chars s
  end.

Definition py_iter (v : val) : M (list val) :=
  match v with
  | VRef l =>
      let* o := deref l in
      ret (match o with
           | OList items | OTuple items => items
           | ODict entries => map (fun e => VStr (fst e)) entries
           end)
  | VStr s => ret (chars s)
  | VNone | VBool _ | VInt _ => raise TypeError
  end.

(** Dict entries: lookup, and assignment, which keeps the position of a
    key already present and appends a new key. *)
Fixpoint entries_lookup (entries : list (string * val)) (key : string)
  : option val :=
  match entries with
  | [] => None
  | (k, v) :: entries =>
      if String.eqb k key then Some v else entries_lookup entries key
  end.

Fixpoint entries_set (entries : list (string * val)) (key : string) (v : val)
  : list (string * val) :=
  match entries with
  | [] => [(key, v)]
  | (k, w) :: entries =>
      if String.eqb k key then (k, v) :: entries
      else (k, w) :: entries_set entries key v
  end.

(** [d.get(key, None)]: only a dict has the method. *)
Definition dict_get (d : val) (key : string) : M val :=
  match d with
  | VRef l =>
      let* o := deref l in
      match o with
      | ODict entries => ret (default VNone (entries_lookup entries key))
      | OList _ | OTuple _ => raise AttributeError
      end
  | _ => raise AttributeError
  end.

(** [d[key]] with a string key: [KeyError] when a dict lacks the key,
    [TypeError] on any other object. *)
Definition getitem (d : val) (key : string) : M val :=
  match d with
  | VRef l =>
      let* o := deref l in
      match o with
      | ODict entries =>
          match entries_lookup entries key with
          | Some v => ret v
          | None => raise KeyError
          end
      | OList _ | OTuple _ => raise TypeError
      end
  | _ => raise TypeError
  end.

(** [d[key] = v] with a string key. *)
Definition setitem (d : val) (key : string) (v : val) : M unit :=
  match d with
  | VRef l =>
      let* o := deref l in
      match o with
      | ODict entries => store l (ODict (entries_set entries key v))
      | OList _ | OTuple _ => raise TypeError
      end
  | _ => raise TypeError
  end.

(** [xs.append(v)]. *)
Definition list_append (xs : val) (v : val) : M unit :=
  match xs with
  | VRef l =>
      let* o := deref l in
      match o with
      | OList items => store l (OList (items ++ [v]))
      | OTuple _ | ODict _ => raise AttributeError
      end
  | _ => raise AttributeError
  end.

(** [value == image_id] for an integer [image_id]: [True == 1] and
    [False == 0] hold in Python; a string, [None] or a container is never
    equal to an integer. *)
Definition eq_int (v : val) (n : Z) : bool :=
  match v with
  | VInt m => m =? n
  | VBool b => Z.b2z b =? n
  | VNone | VStr _ | VRef _ => false
  end.

(** *** [copy.deepcopy] *)

(** [deepcopy] keeps a memo from the objects already met to their copies, so
    that sharing and cycles are reproduced. An atom is its own copy. A
    container not in the memo gets a new, empty object, entered in the memo
    before its items are copied in order and put into it. Recursion is
    bounded by [fuel].

    Tuples are copied like lists. CPython does so only for a tuple one of
    whose items changed in the copy; a tuple that holds nothing but atoms
    and such tuples is returned as it is, so that the copy shares it with
    the source. The two differ in the identity of an object that cannot be
    mutated, and in nothing else: the contents are the same. The statements
    about copies are therefore about contents ([copy_of]) and about the
    lists and dicts a copy leads to ([is_mutable]), which are always
    new. *)
Definition emptied (o : obj) : obj :=
  match o with
  | OList _ => OList []
  | OTuple _ => OTuple []
  | ODict _ => ODict []
  end.

Definition refilled (o : obj) (vals : list val) : obj :=
  match o with
  | OList _ => OList vals
  | OTuple _ => OTuple vals
  | ODict entries => ODict (zip (map fst entries) vals)
  end.

Fixpoint copy_items
    (copy : val -> gmap nat nat -> heap -> option (val * gmap nat nat * heap))
    (items : list val) (memo : gmap nat nat) (h : heap)
  : option (list val * gmap nat nat * heap) :=
  match items with
  | [] => Some ([], memo, h)
  | a :: items =>
      match copy a memo h with
      | None => None
      | Some (a', memo, h) =>
          match copy_items copy items memo h with
          | None => None
          | Some (items', memo, h) => Some (a' :: items', memo, h)
          end
      end
  end.

Fixpoint deepcopy_rec (fuel : nat) (x : val) (memo : gmap nat nat) (h : heap)
  : option (val * gmap nat nat * heap) :=
  match x with
  | VRef l =>
      match memo !! l with
      | Some y => Some (VRef y, memo, h)
      | None =>
          match fuel with
          | O => None
          | S fuel =>
              match h !! l with
              | None => None
              | Some o =>
                  let y := length h in
                  match copy_items (deepcopy_rec fuel) (obj_vals o)
                          (<[l := y]> memo) (h ++ [emptied o]) with
                  | None => None
                  | Some (vals, memo, h) =>
                      Some (VRef y, memo, <[y := refilled o vals]> h)
                  end
              end
          end
      end
  | VNone | VBool _ | VInt _ | VStr _ => Some (x, memo, h)
  end.

(** [deepcopy(x)] starts from an empty memo. One more unit of fuel than the
    heap has objects is enough (lemma [deepcopy_returns]). *)
Definition deepcopy (x : val) : M val :=
  fun h =>
    match deepcopy_rec (S (length h)) x ∅ h with
    | Some (y, _, h') => (Ret y, h')
    | None => (Stuck, h)
    end.

(** *** The class [Annotation] *)

(** The attributes of an instance. No method below assigns an attribute,
    so a method takes the instance by value; the containers its attributes
    name live in the heap. *)
Record Annotation : Type := {
  images : val;
  categories : val;
  annotations : val;
  info : val
}.

Definition _check_value (value : val) : M unit :=
  let* is_dict := isinstance_dict value in
  if negb is_dict then raise ValueError else ret tt.

Definition _check_values (values : val) : M unit :=
  let* is_seq := isinstance_list_tuple values in
  if negb is_seq then raise ValueError
  else let* items := py_iter values in for_each items _check_value.

(** The default of [info]; [today] is
    [datetime.now().strftime("%Y/%m/%d")]. *)
Definition default_info (today : string) : obj :=
  ODict [("description", VStr "Auto-generated by Geolabel-Maker");
         ("date_created", VStr today)].

(** [Annotation(images, categories, annotations, info)]; an argument left
    out is [None]. *)
Definition __init__ (today : string)
    (images categories annotations info : val) : M Annotation :=
  let* images := py_or images (alloc (OList [])) in
  let* categories := py_or categories (alloc (OList [])) in
  let* annotations := py_or annotations (alloc (OList [])) in
  let* info := py_or info (alloc (default_info today)) in
  _check_values images;;
  _check_values categories;;
  _check_values annotations;;
  _check_value info;;
  ret {| images := images; categories := categories;
         annotations := annotations; info := info |}.

Section Methods.

(** [relative_path] is defined in [geolabel_maker/utils.py], outside of the
    modelled files: given a path and a root it returns a path or [None], or
    raises. *)
Variable relative_path : val -> val -> exn + option string.

Definition path_val (p : option string) : val :=
  match p with Some s => VStr s | None => VNone end.

(** [record[key] = relative_path(record.get(key, None), root)] *)
Definition make_relative (key : string) (root : val) (record : val) : M unit :=
  let* path := dict_get record key in
  match relative_path path root with
  | inl e => raise e
  | inr p => setitem record key (path_val p)
  end.

Definition to_dict (self : Annotation) (root : val) : M val :=
  let* root := py_or root (ret (VStr ".")) in
  let* images := deepcopy (images self) in
  let* categories := deepcopy (categories self) in
  let* annotations := deepcopy (annotations self) in
  (let* items := py_iter images in
   for_each items (make_relative "file_name" root));;
  (let* items := py_iter categories in
   for_each items (make_relative "file_name" root));;
  (let* items := py_iter annotations in
   for_each items (make_relative "image_name" root));;
  alloc (ODict [("info", info self); ("images", images);
                ("categories", categories); ("annotations", annotations)]).

End Methods.

(** [get_labels(image_id)], for an integer [image_id]. *)
Definition get_labels (self : Annotation) (image_id : Z) : M val :=
  let* labels := alloc (OList []) in
  let* items := py_iter (annotations self) in
  for_each items (fun annotation =>
    let* v := getitem annotation "image_id" in
    if eq_int v image_id
    then let* copy := deepcopy annotation in list_append labels copy
    else ret tt);;
  ret labels.

(** *** The heap only grows *)

Local Open Scope nat_scope.

(** [extends h h']: every object of [h] is in [h'], unchanged. *)
Definition extends (h h' : heap) : Prop :=
  length h <= length h' /\ forall l, l < length h -> h' !! l = h !! l.

Lemma extends_refl (h : heap) : extends h h.
Proof. split; auto. Qed.

Lemma extends_trans (h1 h2 h3 : heap) :
  extends h1 h2 -> extends h2 h3 -> extends h1 h3.
Proof.
  intros [Hl1 H1] [Hl2 H2]. split; [lia |].
  intros l Hl. rewrite H2 by lia. now apply H1.
Qed.

Lemma extends_app (h : heap) (o : obj) : extends h (h ++ [o]).
Proof.
  split; [rewrite length_app; lia |].
  intros l Hl. now apply lookup_app_l.
Qed.

Lemma extends_insert (h h' : heap) (y : nat) (o : obj) :
  extends h h' -> length h <= y -> extends h (<[y := o]> h').
Proof.
  intros [Hlen Hsame] Hy. split; [now rewrite length_insert |].
  intros l Hl. rewrite list_lookup_insert_ne by lia. now apply Hsame.
Qed.

Lemma extends_lookup (h h' : heap) (l : nat) (o : obj) :
  extends h h' -> h !! l = Some o -> h' !! l = Some o.
Proof.
  intros [_ Hsame] Hl. rewrite Hsame; [done |].
  now apply lookup_lt_Some in Hl.
Qed.

Lemma copy_items_extends copy :
  (forall x m (h : heap) y m' h',
      copy x m h = Some (y, m', h') -> extends h h') ->
  forall items m (h : heap) ys m' h',
    copy_items copy items m h = Some (ys, m', h') -> extends h h'.
Proof.
  intros Hcopy items. induction items as [| a items IH];
    intros m h ys m' h' Hrun; cbn in Hrun.
  - inversion Hrun; subst. apply extends_refl.
  - destruct (copy a m h) as [[[a' m1] h1] |] eqn:Ha; [| discriminate].
    destruct (copy_items copy items m1 h1) as [[[ys' m2] h2] |] eqn:Hi;
      [| discriminate].
    inversion Hrun; subst.
    eapply extends_trans; [eapply Hcopy, Ha | eapply IH, Hi].
Qed.

Lemma deepcopy_rec_extends fuel :
  forall x m (h : heap) y m' h',
    deepcopy_rec fuel x m h = Some (y, m', h') -> extends h h'.
Proof.
  induction fuel as [| fuel IH]; intros x m h y m' h' Hrun.
  - destruct x; cbn in Hrun; try (inversion Hrun; subst; apply extends_refl).
    destruct (m !! l); [| discriminate].
    inversion Hrun; subst; apply extends_refl.
  - destruct x; cbn in Hrun; try (inversion Hrun; subst; apply extends_refl).
    destruct (m !! l); [inversion Hrun; subst; apply extends_refl |].
    destruct (h !! l) as [o |]; [| discriminate].
    destruct (copy_items _ _ _ _) as [[[vals m2] h2] |] eqn:Hi;
      [| discriminate].
    inversion Hrun; subst.
    apply copy_items_extends in Hi; [| exact IH].
    apply extends_insert; [| lia].
    eapply extends_trans; [apply extends_app | exact Hi].
Qed.

(** *** What [deepcopy] builds *)

(** The copy of a value under a memo, and of an object. *)
Definition rename (memo : gmap nat nat) (v : val) : val :=
  match v with
  | VRef l => match memo !! l with Some y => VRef y | None => v end
  | _ => v
  end.

Definition rename_obj (memo : gmap nat nat) (o : obj) : obj :=
  refilled o (map (rename memo) (obj_vals o)).

(** From reference [n] on, the objects of [h] only hold references between
    [n] and the end of [h]. With [n = 0]: no reference of the heap
    dangles. *)
Definition closed_from (n : nat) (h : heap) : Prop :=
  forall l o r,
    n <= l -> h !! l = Some o -> r ∈ obj_refs o -> n <= r < length h.

(** A value whose reference, if it is one, lies between [n] and [k]. *)
Definition val_within (n k : nat) (v : val) : Prop :=
  forall r, r ∈ val_refs v -> n <= r < k.

Lemma obj_refs_spec (o : obj) (r : nat) :
  r ∈ obj_refs o <-> VRef r ∈ obj_vals o.
Proof.
  unfold obj_refs. induction (obj_vals o) as [| v vs IH]; cbn.
  - split; intros H; inversion H.
  - rewrite elem_of_app, elem_of_cons, IH. split.
    + intros [Hv | Hvs]; [left | now right].
      destruct v; cbn in Hv; try (inversion Hv; fail).
      apply list_elem_of_singleton in Hv. now subst.
    + intros [Hv | Hvs]; [left | now right].
      subst v. cbn. now apply list_elem_of_singleton.
Qed.

Lemma obj_vals_refilled (o : obj) (vals : list val) :
  length vals = length (obj_vals o) -> obj_vals (refilled o vals) = vals.
Proof.
  destruct o as [items | items | entries]; cbn; try done.
  intros Hlen. rewrite length_map in Hlen.
  rewrite snd_zip; [done |]. rewrite length_map. lia.
Qed.

Lemma obj_refs_emptied (o : obj) : obj_refs (emptied o) = [].
Proof. now destruct o. Qed.

Lemma rename_subseteq (m m' : gmap nat nat) (v : val) :
  m ⊆ m' -> (forall r, r ∈ val_refs v -> is_Some (m !! r)) ->
  rename m' v = rename m v.
Proof.
  intros Hsub Hdom. destruct v as [| | | | l]; try done. cbn.
  destruct (Hdom l) as [y Hy]; [cbn; now apply list_elem_of_singleton |].
  rewrite Hy. now rewrite (lookup_weaken _ _ _ _ Hy Hsub).
Qed.

Lemma rename_obj_subseteq (m m' : gmap nat nat) (o : obj) :
  m ⊆ m' -> (forall r, r ∈ obj_refs o -> is_Some (m !! r)) ->
  rename_obj m' o = rename_obj m o.
Proof.
  intros Hsub Hdom. unfold rename_obj. f_equal.
  apply map_ext_in. intros v Hv. apply rename_subseteq; [done |].
  intros r Hr. apply Hdom, obj_refs_spec.
  destruct v; cbn in Hr; try (inversion Hr; fail).
  apply list_elem_of_singleton in Hr. subst. now apply list_elem_of_In.
Qed.

(** The number of references below [n] that a memo does not hold. *)
Definition unmemoized (n : nat) (memo : gmap nat nat) : nat :=
  length (filter (fun l => memo !! l = None) (seq 0 n)).

Lemma unmemoized_empty (n : nat) : unmemoized n ∅ = n.
Proof.
  unfold unmemoized. transitivity (length (seq 0 n)); [| apply length_seq].
  f_equal. induction (seq 0 n) as [| a ls IH]; [done |].
  rewrite filter_cons_True by apply lookup_empty. now rewrite IH.
Qed.

Lemma unmemoized_subseteq (n : nat) (m m' : gmap nat nat) :
  m ⊆ m' -> unmemoized n m' <= unmemoized n m.
Proof.
  intros Hsub. unfold unmemoized.
  induction (seq 0 n) as [| a ls IH]; [done |].
  destruct (m' !! a) as [y |] eqn:Ha'.
  - rewrite (filter_cons_False _ _ ls) by (rewrite Ha'; done).
    destruct (m !! a) eqn:Ha.
    + rewrite filter_cons_False by (rewrite Ha; done). exact IH.
    + rewrite filter_cons_True by done. cbn. lia.
  - assert (Ha : m !! a = None).
    { destruct (m !! a) as [y |] eqn:Ha; [| done].
      rewrite (lookup_weaken _ _ _ _ Ha Hsub) in Ha'. discriminate. }
    rewrite !filter_cons_True by done. cbn. lia.
Qed.

Lemma unmemoized_insert (n : nat) (m : gmap nat nat) (l y : nat) :
  l < n -> m !! l = None -> unmemoized n (<[l := y]> m) < unmemoized n m.
Proof.
  intros Hl Hm. unfold unmemoized.
  assert (Hin : l ∈ seq 0 n) by (apply elem_of_seq; lia).
  induction (seq 0 n) as [| a ls IH]; [inversion Hin |].
  assert (Hle : length (filter (fun l0 => <[l := y]> m !! l0 = None) ls)
                <= length (filter (fun l0 => m !! l0 = None) ls)).
  { clear. induction ls as [| b ls IH]; [done |].
    destruct (decide (l = b)) as [-> | Hne].
    - rewrite filter_cons_False by (rewrite lookup_insert_eq; done).
      destruct (m !! b) eqn:Hb.
      + rewrite filter_cons_False by (rewrite Hb; done). exact IH.
      + rewrite filter_cons_True by done. cbn. lia.
    - destruct (m !! b) eqn:Hb.
      + rewrite !filter_cons_False
          by (rewrite ?lookup_insert_ne by done; rewrite Hb; done).
        exact IH.
      + rewrite !filter_cons_True
          by (rewrite ?lookup_insert_ne by done; done).
        cbn. lia. }
  destruct (decide (l = a)) as [-> | Hne].
  - rewrite filter_cons_False by (rewrite lookup_insert_eq; done).
    rewrite filter_cons_True by done. cbn. lia.
  - apply elem_of_cons in Hin as [? | Hin]; [done |].
    specialize (IH Hin).
    destruct (m !! a) eqn:Ha.
    + rewrite !filter_cons_False
        by (rewrite ?lookup_insert_ne by done; rewrite Ha; done).
      exact IH.
    + rewrite !filter_cons_True
        by (rewrite ?lookup_insert_ne by done; done).
      cbn. lia.
Qed.

Lemma rename_ref_inv (m : gmap nat nat) (v : val) (r : nat) :
  (forall l, l ∈ val_refs v -> is_Some (m !! l)) ->
  rename m v = VRef r -> exists l, v = VRef l /\ m !! l = Some r.
Proof.
  intros Hdom Hr. destruct v as [| | | | l]; try discriminate.
  destruct (Hdom l) as [y Hy]; [cbn; now apply list_elem_of_singleton |].
  cbn in Hr. rewrite Hy in Hr. inversion Hr; subst. eauto.
Qed.

Lemma closed_from_vals (n : nat) (h : heap) (l : nat) (o : obj) :
  closed_from n h -> n <= l -> h !! l = Some o ->
  Forall (val_within n (length h)) (obj_vals o).
Proof.
  intros Hc Hl Ho. apply Forall_forall. intros v Hv r Hr.
  apply (Hc l o r Hl Ho). apply obj_refs_spec.
  destruct v; cbn in Hr; try (inversion Hr; fail).
  apply list_elem_of_singleton in Hr. now subst.
Qed.

Section Copy.

(** The heap [deepcopy] is called in; none of its references dangles. *)
Variable h0 : heap.
Hypothesis h0_closed : closed_from 0 h0.

(** While the copy runs: the objects of [h0] are unchanged, the memo sends
    references of [h0] to new objects, and the new objects only refer to new
    objects. *)
Definition memo_ok (memo : gmap nat nat) (h : heap) : Prop :=
  forall l y, memo !! l = Some y -> l < length h0 /\ length h0 <= y < length h.

Definition copying (memo : gmap nat nat) (h : heap) : Prop :=
  extends h0 h /\ memo_ok memo h /\ closed_from (length h0) h.

(** The object at [y] is the finished copy of the object at [l]. *)
Definition copied (memo : gmap nat nat) (h : heap) (l y : nat) : Prop :=
  exists o,
    h0 !! l = Some o
    /\ h !! y = Some (rename_obj memo o)
    /\ forall r, r ∈ obj_refs o -> is_Some (memo !! r).

(** What a call leaves: the entries it added to the memo are finished
    copies, allocated by the call. *)
Definition copy_post (memo : gmap nat nat) (h : heap)
    (memo' : gmap nat nat) (h' : heap) : Prop :=
  copying memo' h'
  /\ memo ⊆ memo'
  /\ extends h h'
  /\ forall l y, memo' !! l = Some y -> memo !! l = None ->
       length h <= y /\ copied memo' h' l y.

Definition copy_spec (fuel : nat)
    (copy : val -> gmap nat nat -> heap -> option (val * gmap nat nat * heap))
  : Prop :=
  forall x memo (h : heap),
    copying memo h -> val_within 0 (length h0) x ->
    unmemoized (length h0) memo < fuel ->
    exists y memo' h',
      copy x memo h = Some (y, memo', h')
      /\ copy_post memo h memo' h'
      /\ y = rename memo' x
      /\ forall r, r ∈ val_refs x -> is_Some (memo' !! r).

Lemma copied_mono (m m' : gmap nat nat) (h h' : heap) (l y : nat) :
  copied m h l y -> m ⊆ m' -> extends h h' -> y < length h ->
  copied m' h' l y.
Proof.
  intros (o & Ho & Hy & Hdom) Hsub [_ Hsame] Hlt. exists o.
  split; [done |]. split; [| intros r Hr; destruct (Hdom r Hr) as [y' Hy'];
                             exists y'; eapply lookup_weaken; eauto].
  rewrite Hsame by done. rewrite Hy. f_equal.
  symmetry. now apply rename_obj_subseteq.
Qed.

Lemma copy_items_spec (fuel : nat) copy :
  copy_spec fuel copy ->
  forall items memo (h : heap),
    copying memo h -> Forall (val_within 0 (length h0)) items ->
    unmemoized (length h0) memo < fuel ->
    exists ys memo' h',
      copy_items copy items memo h = Some (ys, memo', h')
      /\ copy_post memo h memo' h'
      /\ ys = map (rename memo') items
      /\ forall v r, v ∈ items -> r ∈ val_refs v -> is_Some (memo' !! r).
Proof.
  intros Hcopy items. induction items as [| a items IH];
    intros memo h Hc Hitems Hfuel.
  - exists [], memo, h. split; [done |]. split; [| split; [done |]].
    + split; [done |]. split; [done |]. split; [apply extends_refl |].
      intros l y Hy Hn. congruence.
    + intros v r Hv. inversion Hv.
  - apply Forall_cons in Hitems as [Ha Hitems].
    destruct (Hcopy a memo h Hc Ha Hfuel)
      as (a' & m1 & h1 & Hrun1 & (Hc1 & Hsub1 & Hext1 & Hnew1) & Ha' & Hdom1).
    assert (Hfuel1 : unmemoized (length h0) m1 < fuel).
    { pose proof (unmemoized_subseteq (length h0) memo m1 Hsub1). lia. }
    destruct (IH m1 h1 Hc1 Hitems Hfuel1)
      as (ys & m2 & h2 & Hrun2 & (Hc2 & Hsub2 & Hext2 & Hnew2) & Hys & Hdom2).
    exists (a' :: ys), m2, h2. cbn. rewrite Hrun1, Hrun2.
    split; [done |]. split; [| split].
    + split; [done |]. split; [by etrans |].
      split; [eapply extends_trans; eauto |].
      intros l y Hy Hn. destruct (m1 !! l) as [y1 |] eqn:Hm1.
      * assert (y1 = y) as ->.
        { pose proof (lookup_weaken _ _ _ _ Hm1 Hsub2). congruence. }
        destruct (Hnew1 l y Hm1 Hn) as [Hge Hcp]. split; [done |].
        eapply copied_mono; eauto.
        destruct Hc1 as (_ & Hok1 & _). apply (Hok1 l y Hm1).
      * destruct (Hnew2 l y Hy Hm1) as [Hge Hcp]. split; [| done].
        destruct Hext1 as [Hlen _]. lia.
    + cbn. f_equal; [| done]. rewrite Ha'. symmetry.
      now apply rename_subseteq.
    + intros v r Hv Hr. apply elem_of_cons in Hv as [-> | Hv].
      * destruct (Hdom1 r Hr) as [y Hy]. exists y.
        eapply lookup_weaken; eauto.
      * eapply Hdom2; eauto.
Qed.

Lemma deepcopy_rec_spec (fuel : nat) : copy_spec fuel (deepcopy_rec fuel).
Proof.
  induction fuel as [| fuel IH]; intros x memo h Hc Hx Hfuel; [lia |].
  assert (Hatom : forall a, (forall r, r ∈ val_refs a -> False) ->
            rename memo a = a ->
            exists y memo' h',
              Some (a, memo, h) = Some (y, memo', h')
              /\ copy_post memo h memo' h'
              /\ y = rename memo' a
              /\ forall r, r ∈ val_refs a -> is_Some (memo' !! r)).
  { intros a Hnone Hren. exists a, memo, h. split; [done |].
    split; [| split; [done | intros r Hr; destruct (Hnone r Hr)]].
    split; [done |]. split; [done |]. split; [apply extends_refl |].
    intros l y Hy Hn. congruence. }
  destruct x as [| b | n | s | l]; cbn [deepcopy_rec];
    try (apply Hatom; [intros r Hr; inversion Hr | done]).
  destruct (memo !! l) as [y |] eqn:Hm.
  - exists (VRef y), memo, h. split; [done |]. split; [| split].
    + split; [done |]. split; [done |]. split; [apply extends_refl |].
      intros l' y' Hy Hn. congruence.
    + cbn. now rewrite Hm.
    + intros r Hr. apply list_elem_of_singleton in Hr. subst. eauto.
  - destruct Hc as (Hext & Hok & Hcl).
    assert (Hl : l < length h0).
    { apply (Hx l). cbn. now apply list_elem_of_singleton. }
    destruct (lookup_lt_is_Some_2 h0 l Hl) as [o Ho].
    rewrite (extends_lookup _ _ _ _ Hext Ho).
    assert (Hlen : length h0 <= length h) by apply Hext.
    assert (Hc1 : copying (<[l := length h]> memo) (h ++ [emptied o])).
    { split; [eapply extends_trans; [exact Hext | apply extends_app] |].
      split.
      - intros l' y' Hy'. rewrite length_app. cbn.
        destruct (decide (l = l')) as [<- | Hne].
        + rewrite lookup_insert_eq in Hy'. inversion Hy'; subst. lia.
        + rewrite lookup_insert_ne in Hy' by done.
          destruct (Hok l' y' Hy'). lia.
      - intros l' o' r Hl' Ho' Hr. rewrite length_app. cbn.
        destruct (decide (l' < length h)) as [Hlt | Hge].
        + rewrite lookup_app_l in Ho' by done.
          destruct (Hcl l' o' r Hl' Ho' Hr). lia.
        + rewrite lookup_app_r in Ho' by lia.
          destruct (l' - length h) as [| k]; [| done].
          cbn in Ho'. inversion Ho'; subst.
          rewrite obj_refs_emptied in Hr. inversion Hr. }
    assert (Hitems : Forall (val_within 0 (length h0)) (obj_vals o)).
    { apply (closed_from_vals 0 h0 l o h0_closed); [lia | done]. }
    assert (Hfuel1 : unmemoized (length h0) (<[l := length h]> memo) < fuel).
    { pose proof (unmemoized_insert (length h0) memo l (length h) Hl Hm).
      lia. }
    destruct (copy_items_spec fuel _ IH _ _ _ Hc1 Hitems Hfuel1)
      as (vals & m2 & h2 & Hrun & (Hc2 & Hsub2 & Hext2 & Hnew2) & Hvals
          & Hdom2).
    rewrite Hrun.
    exists (VRef (length h)), m2, (<[length h := refilled o vals]> h2).
    destruct Hc2 as (Hext02 & Hok2 & Hcl2).
    assert (Hml : m2 !! l = Some (length h)).
    { eapply lookup_weaken; [apply lookup_insert_eq | exact Hsub2]. }
    assert (Hlen2 : length h < length h2).
    { destruct Hext2 as [Hlen2 _]. rewrite length_app in Hlen2.
      cbn in Hlen2. lia. }
    assert (Hrefs : forall r, r ∈ obj_refs o -> is_Some (m2 !! r)).
    { intros r Hr. apply obj_refs_spec in Hr.
      apply (Hdom2 (VRef r) r Hr). cbn. now apply list_elem_of_singleton. }
    split; [done |]. split; [| split].
    + split; [| split; [| split]].
      * split; [apply extends_insert; [done | lia] |].
        split; [intros l' y' Hy'; rewrite length_insert; eauto |].
        intros l' o' r Hl' Ho' Hr. rewrite length_insert.
        destruct (decide (l' = length h)) as [-> | Hne].
        -- rewrite list_lookup_insert_eq in Ho' by done.
           inversion Ho'; subst o'. apply obj_refs_spec in Hr.
           rewrite obj_vals_refilled in Hr
             by (rewrite Hvals; apply length_map).
           rewrite Hvals in Hr. apply list_elem_of_fmap in Hr as (v & Hv & Hin).
           symmetry in Hv. apply rename_ref_inv in Hv as (l'' & -> & Hl'').
           ++ apply (Hok2 l'' r Hl'').
           ++ intros r' Hr'. eapply Hdom2; eauto.
        -- rewrite list_lookup_insert_ne in Ho' by done. eauto.
      * etrans; [apply insert_subseteq, Hm | exact Hsub2].
      * apply extends_insert; [| lia].
        eapply extends_trans; [apply extends_app | exact Hext2].
      * intros l' y' Hy' Hn. destruct (decide (l = l')) as [<- | Hne].
        -- assert (y' = length h) as -> by congruence. split; [lia |].
           exists o. split; [done |]. split; [| done].
           rewrite list_lookup_insert_eq by done.
           unfold rename_obj. now rewrite Hvals.
        -- assert (Hn1 : <[l := length h]> memo !! l' = None)
             by now rewrite lookup_insert_ne.
           destruct (Hnew2 l' y' Hy' Hn1) as [Hge (o' & Ho' & Hy2 & Hd)].
           rewrite length_app in Hge. cbn in Hge. split; [lia |].
           exists o'. split; [done |]. split; [| done].
           rewrite list_lookup_insert_ne by lia. done.
    + cbn. now rewrite Hml.
    + intros r Hr. apply list_elem_of_singleton in Hr. subst. eauto.
Qed.

End Copy.

(** *** Contents and reachability *)

(** What a value looks like to a given depth, references followed and
    forgotten: two values with the same contents at every depth cannot be
    told apart without comparing identities. *)
Inductive kind : Type :=
  | KList
  | KTuple
  | KDict (keys : list string).

#[local] Unset Elimination Schemes.
Inductive tree : Type :=
  | TAtom (a : val)
  | TNode (k : kind) (children : list tree)
  | TCut
  | TDangling.
#[local] Set Elimination Schemes.

Definition kind_of (o : obj) : kind :=
  match o with
  | OList _ => KList
  | OTuple _ => KTuple
  | ODict entries => KDict (map fst entries)
  end.

Fixpoint content (depth : nat) (h : heap) (v : val) : tree :=
  match v with
  | VRef l =>
      match depth with
      | O => TCut
      | S depth =>
          match h !! l with
          | Some o => TNode (kind_of o) (map (content depth h) (obj_vals o))
          | None => TDangling
          end
      end
  | _ => TAtom v
  end.

(** [y] in [h'] is a copy of [x] in [h]. *)
Definition copy_of (h : heap) (x : val) (h' : heap) (y : val) : Prop :=
  forall depth, content depth h' y = content depth h x.

(** The objects a value leads to. *)
Inductive reachable (h : heap) : val -> nat -> Prop :=
  | reachable_here (l : nat) : reachable h (VRef l) l
  | reachable_step (l : nat) (o : obj) (v : val) (r : nat) :
      h !! l = Some o -> v ∈ obj_vals o -> reachable h v r ->
      reachable h (VRef l) r.

(** The objects of [h] from [n] to [k] only hold references from [n] to
    [k]. *)
Definition closed_between (n k : nat) (h : heap) : Prop :=
  forall l o r,
    n <= l < k -> h !! l = Some o -> r ∈ obj_refs o -> n <= r < k.

Lemma closed_from_between (n : nat) (h h' : heap) :
  closed_from n h -> extends h h' -> closed_between n (length h) h'.
Proof.
  intros Hc [_ Hsame] l o r [Hn Hk] Ho Hr. rewrite Hsame in Ho by done.
  eapply Hc; eauto.
Qed.

Lemma closed_between_from (n : nat) (h : heap) :
  closed_between n (length h) h -> closed_from n h.
Proof.
  intros Hc l o r Hn Ho Hr. apply (Hc l o r); [| done | done].
  apply lookup_lt_Some in Ho. lia.
Qed.

Lemma closed_between_same (n k : nat) (h h' : heap) :
  closed_between n k h -> (forall l, n <= l < k -> h' !! l = h !! l) ->
  closed_between n k h'.
Proof.
  intros Hc Hsame l o r Hl Ho Hr. rewrite Hsame in Ho by done. eauto.
Qed.

Lemma closed_between_join (n k j : nat) (h : heap) :
  n <= k <= j -> closed_between n k h -> closed_between k j h ->
  closed_between n j h.
Proof.
  intros Hnk H1 H2 l o r [Hn Hj] Ho Hr.
  destruct (decide (l < k)) as [Hlt | Hge].
  - assert (n <= r < k) by (apply (H1 l o r); [lia | done | done]). lia.
  - assert (k <= r < j) by (apply (H2 l o r); [lia | done | done]). lia.
Qed.

Lemma closed_between_vals (n k : nat) (h : heap) (l : nat) (o : obj) :
  closed_between n k h -> n <= l < k -> h !! l = Some o ->
  Forall (val_within n k) (obj_vals o).
Proof.
  intros Hc Hl Ho. apply Forall_forall. intros v Hv r Hr.
  apply (Hc l o r Hl Ho). apply obj_refs_spec.
  destruct v; cbn in Hr; try (inversion Hr; fail).
  apply list_elem_of_singleton in Hr. now subst.
Qed.

Lemma val_within_ref (n k l : nat) : val_within n k (VRef l) <-> n <= l < k.
Proof.
  split.
  - intros H. apply H. cbn. now apply list_elem_of_singleton.
  - intros H r Hr. cbn in Hr. apply list_elem_of_singleton in Hr. now subst.
Qed.

Lemma reachable_between (n k : nat) (h : heap) (v : val) (r : nat) :
  closed_between n k h -> val_within n k v -> reachable h v r -> n <= r < k.
Proof.
  intros Hc Hv Hreach. induction Hreach as [l | l o v r Ho Hin _ IH].
  - now apply val_within_ref.
  - apply IH. apply val_within_ref in Hv.
    pose proof (closed_between_vals n k h l o Hc Hv Ho) as Hall.
    rewrite Forall_forall in Hall. now apply Hall.
Qed.

Lemma content_same (n k : nat) (h h' : heap) (depth : nat) (v : val) :
  closed_between n k h -> (forall l, n <= l < k -> h' !! l = h !! l) ->
  val_within n k v -> content depth h' v = content depth h v.
Proof.
  intros Hc Hsame. revert v. induction depth as [| depth IH]; intros v Hv.
  - now destruct v.
  - destruct v as [| | | | l]; try done. cbn.
    apply val_within_ref in Hv. rewrite (Hsame l Hv).
    destruct (h !! l) as [o |] eqn:Ho; [| done]. f_equal.
    apply map_ext_in. intros w Hw. apply IH.
    pose proof (closed_between_vals n k h l o Hc Hv Ho) as Hall.
    rewrite Forall_forall in Hall. apply Hall. now apply list_elem_of_In.
Qed.

Lemma kind_of_refilled (o : obj) (vals : list val) :
  length vals = length (obj_vals o) -> kind_of (refilled o vals) = kind_of o.
Proof.
  destruct o as [items | items | entries]; cbn; try done.
  intros Hlen. rewrite length_map in Hlen. f_equal.
  apply fst_zip. rewrite length_map. lia.
Qed.

(** A memo all of whose entries are finished copies turns a value into a
    copy of it. *)
Lemma rename_copy_of (h h' : heap) (memo : gmap nat nat) :
  extends h h' ->
  (forall l y, memo !! l = Some y -> copied h memo h' l y) ->
  forall x, (forall r, r ∈ val_refs x -> is_Some (memo !! r)) ->
       copy_of h x h' (rename memo x).
Proof.
  intros Hext Hall x Hx depth. revert x Hx.
  induction depth as [| depth IH]; intros x Hx.
  - destruct x as [| | | | l]; try done. cbn.
    destruct (Hx l) as [y Hy]; [cbn; now apply list_elem_of_singleton |].
    now rewrite Hy.
  - destruct x as [| | | | l]; try done.
    destruct (Hx l) as [y Hy]; [cbn; now apply list_elem_of_singleton |].
    cbn [rename]. rewrite Hy. cbn [content].
    destruct (Hall l y Hy) as (o & Ho & Hcopy & Hdom).
    rewrite Ho, Hcopy. unfold rename_obj.
    rewrite kind_of_refilled, obj_vals_refilled by apply length_map.
    f_equal. rewrite map_map. apply map_ext_in. intros v Hv. apply IH.
    intros r Hr. apply Hdom, obj_refs_spec.
    destruct v; cbn in Hr; try (inversion Hr; fail).
    apply list_elem_of_singleton in Hr. subst. now apply list_elem_of_In.
Qed.

(** [deepcopy] returns on a heap without dangling references: the heap is
    extended by new objects that only refer to new objects, and the result
    is a copy of the argument, an atom or a new reference. *)
Lemma deepcopy_returns (h : heap) (x : val) :
  closed_from 0 h -> val_within 0 (length h) x ->
  exists y h',
    deepcopy x h = (Ret y, h')
    /\ extends h h'
    /\ closed_between (length h) (length h') h'
    /\ val_within (length h) (length h') y
    /\ copy_of h x h' y.
Proof.
  intros Hc Hx.
  destruct (deepcopy_rec_spec h Hc (S (length h)) x ∅ h)
    as (y & memo & h' & Hrun & (Hc' & _ & Hext & Hnew) & Hy & Hdom).
  - split; [apply extends_refl |]. split.
    + intros l y Hy. rewrite lookup_empty in Hy. discriminate.
    + intros l o r Hl Ho Hr. apply lookup_lt_Some in Ho. lia.
  - done.
  - rewrite unmemoized_empty. lia.
  - exists y, h'. unfold deepcopy. rewrite Hrun.
    destruct Hc' as (_ & Hok & Hcl).
    split; [done |]. split; [done |].
    split; [intros l o r Hl; apply Hcl; lia |]. split.
    + intros r Hr. subst y. destruct x as [| | | | l]; try (inversion Hr; fail).
      destruct (Hdom l) as [y Hy]; [cbn; now apply list_elem_of_singleton |].
      cbn in Hr. rewrite Hy in Hr. cbn in Hr.
      apply list_elem_of_singleton in Hr. subst. apply (Hok l y Hy).
    + subst y. apply rename_copy_of; [done | | done].
      intros l y Hy. apply Hnew; [done | apply lookup_empty].
Qed.

(** *** Construction *)

(** The tests of the constructor, read off the heap: the truth value of an
    object, being a map, being a sequence of maps. *)
Definition is_true (h : heap) (v : val) : bool :=
  match v with
  | VNone => false
  | VBool b => b
  | VInt n => negb (n =? 0)%Z
  | VStr s => negb (String.eqb s "")
  | VRef l =>
      match h !! l with
      | Some o => match obj_vals o with [] => false | _ :: _ => true end
      | None => false
      end
  end.

Definition is_map (h : heap) (v : val) : bool :=
  match v with
  | VRef l => match h !! l with Some (ODict _) => true | _ => false end
  | _ => false
  end.

Definition is_seq_of_maps (h : heap) (v : val) : bool :=
  match v with
  | VRef l =>
      match h !! l with
      | Some (OList items) | Some (OTuple items) => forallb (is_map h) items
      | _ => false
      end
  | _ => false
  end.

(** [x or default] with a default that allocates [o]. *)
Definition or_default (h : heap) (v : val) (o : obj) : val * heap :=
  if is_true h v then (v, h) else (VRef (length h), h ++ [o]).

Lemma deref_run (h : heap) (l : nat) (o : obj) :
  h !! l = Some o -> deref l h = (Ret o, h).
Proof. intros Ho. unfold deref. now rewrite Ho. Qed.

(** Runs the code up to the next step that is not a read of the object
    known by [H]. *)
Ltac run_deref H :=
  repeat first [ rewrite (deref_run _ _ _ H)
               | progress cbn -[deref for_each]
               | progress unfold bind ].

Lemma truthy_run (h : heap) (v : val) :
  val_within 0 (length h) v -> truthy v h = (Ret (is_true h v), h).
Proof.
  intros Hv. destruct v as [| | | | l]; try done.
  apply val_within_ref in Hv as [_ Hl].
  destruct (lookup_lt_is_Some_2 h l Hl) as [o Ho].
  cbn. unfold bind, deref. now rewrite Ho.
Qed.

Lemma py_or_alloc_run (h : heap) (v : val) (o : obj) :
  val_within 0 (length h) v ->
  py_or v (alloc o) h = (Ret (or_default h v o).1, (or_default h v o).2).
Proof.
  intros Hv. unfold py_or, bind, or_default. rewrite (truthy_run h v Hv).
  now destruct (is_true h v).
Qed.

Lemma _check_value_run (h : heap) (v : val) :
  val_within 0 (length h) v ->
  _check_value v h = (if is_map h v then Ret tt else Raise ValueError, h).
Proof.
  intros Hv. destruct v as [| | | | l]; try done.
  apply val_within_ref in Hv as [_ Hl].
  destruct (lookup_lt_is_Some_2 h l Hl) as [o Ho].
  unfold _check_value, bind. cbn. unfold bind, deref. rewrite Ho.
  now destruct o.
Qed.

Lemma for_each_check_run (h : heap) (items : list val) :
  Forall (val_within 0 (length h)) items ->
  for_each items _check_value h
    = (if forallb (is_map h) items then Ret tt else Raise ValueError, h).
Proof.
  induction items as [| v items IH]; intros Hall; [done |].
  apply Forall_cons in Hall as [Hv Hall]. cbn [for_each forallb].
  unfold bind. rewrite (_check_value_run h v Hv).
  destruct (is_map h v); [now apply IH | done].
Qed.

Lemma _check_values_run (h : heap) (v : val) :
  closed_from 0 h -> val_within 0 (length h) v ->
  _check_values v h
    = (if is_seq_of_maps h v then Ret tt else Raise ValueError, h).
Proof.
  intros Hc Hv. destruct v as [| | | | l]; try done.
  apply val_within_ref in Hv as [_ Hl].
  destruct (lookup_lt_is_Some_2 h l Hl) as [o Ho].
  pose proof (closed_from_vals 0 h l o Hc (Nat.le_0_l l) Ho) as Hitems.
  destruct o as [items | items | entries];
    unfold _check_values; run_deref Ho; rewrite ?Ho; try done;
    now apply for_each_check_run.
Qed.

(** The tests give the same answer once the heap has grown. *)
Lemma is_true_extends (h h' : heap) (v : val) :
  extends h h' -> val_within 0 (length h) v -> is_true h' v = is_true h v.
Proof.
  intros [_ Hsame] Hv. destruct v as [| | | | l]; try done.
  apply val_within_ref in Hv as [_ Hl]. cbn. now rewrite Hsame.
Qed.

Lemma is_map_extends (h h' : heap) (v : val) :
  extends h h' -> val_within 0 (length h) v -> is_map h' v = is_map h v.
Proof.
  intros [_ Hsame] Hv. destruct v as [| | | | l]; try done.
  apply val_within_ref in Hv as [_ Hl]. cbn. now rewrite Hsame.
Qed.

Lemma is_seq_of_maps_extends (h h' : heap) (v : val) :
  closed_from 0 h -> extends h h' -> val_within 0 (length h) v ->
  is_seq_of_maps h' v = is_seq_of_maps h v.
Proof.
  intros Hc Hext Hv. destruct v as [| | | | l]; try done.
  apply val_within_ref in Hv as [_ Hl]. cbn.
  destruct Hext as [Hlen Hsame]. rewrite Hsame by done.
  destruct (h !! l) as [o |] eqn:Ho; [| done].
  pose proof (closed_from_vals 0 h l o Hc (Nat.le_0_l l) Ho) as Hitems.
  assert (Heq : forall items, Forall (val_within 0 (length h)) items ->
            forallb (is_map h') items = forallb (is_map h) items).
  { intros items Hall. induction Hall as [| w items Hw _ IH]; [done |].
    cbn. rewrite IH. f_equal. now apply is_map_extends. }
  destruct o; cbn in *; auto.
Qed.

Lemma closed_from_app (h : heap) (o : obj) :
  closed_from 0 h -> obj_refs o = [] -> closed_from 0 (h ++ [o]).
Proof.
  intros Hc Ho l o' r _ Hl Hr. rewrite length_app. cbn.
  destruct (decide (l < length h)) as [Hlt | Hge].
  - rewrite lookup_app_l in Hl by done.
    destruct (Hc l o' r (Nat.le_0_l l) Hl Hr). lia.
  - rewrite lookup_app_r in Hl by lia.
    destruct (l - length h) as [| k]; [| done].
    cbn in Hl. inversion Hl; subst. rewrite Ho in Hr. inversion Hr.
Qed.

Lemma val_within_weaken (n k k' : nat) (v : val) :
  val_within n k v -> k <= k' -> val_within n k' v.
Proof. intros Hv Hk r Hr. destruct (Hv r Hr). lia. Qed.

(** One defaulting step: the heap stays closed, grows, and the value kept
    passes the test of the constructor exactly when the argument was false
    or passed it. *)
Lemma or_default_spec (h : heap) (v : val) (o : obj) :
  closed_from 0 h -> val_within 0 (length h) v -> obj_refs o = [] ->
  let v' := (or_default h v o).1 in
  let h' := (or_default h v o).2 in
  closed_from 0 h' /\ extends h h' /\ val_within 0 (length h') v'
  /\ (is_true h v = true -> v' = v /\ h' = h)
  /\ (is_true h v = false -> v' = VRef (length h) /\ h' = h ++ [o]).
Proof.
  intros Hc Hv Ho. unfold or_default. destruct (is_true h v); cbn.
  - split; [done |]. split; [apply extends_refl |]. split; [done |].
    split; [done | discriminate].
  - split; [now apply closed_from_app |]. split; [apply extends_app |].
    split; [| split; [discriminate | done]].
    apply val_within_ref. rewrite length_app. cbn. lia.
Qed.

(** What the constructor accepts for a sequence argument and for [info]: a
    false value is replaced by the default before the test. *)
Definition accepts_seq (h : heap) (v : val) : bool :=
  negb (is_true h v) || is_seq_of_maps h v.

Definition accepts_map (h : heap) (v : val) : bool :=
  negb (is_true h v) || is_map h v.

Lemma seq_after_default (h h' : heap) (v : val) :
  closed_from 0 h -> val_within 0 (length h) v ->
  extends (or_default h v (OList [])).2 h' ->
  is_seq_of_maps h' (or_default h v (OList [])).1 = accepts_seq h v.
Proof.
  intros Hc Hv. unfold or_default, accepts_seq.
  destruct (is_true h v); cbn; intros Hext.
  - now apply is_seq_of_maps_extends.
  - erewrite extends_lookup; [| exact Hext | now apply list_lookup_middle].
    done.
Qed.

Lemma map_after_default (h h' : heap) (v : val) (today : string) :
  val_within 0 (length h) v ->
  extends (or_default h v (default_info today)).2 h' ->
  is_map h' (or_default h v (default_info today)).1 = accepts_map h v.
Proof.
  intros Hv. unfold or_default, accepts_map.
  destruct (is_true h v); cbn; intros Hext.
  - now apply is_map_extends.
  - erewrite extends_lookup; [| exact Hext | now apply list_lookup_middle].
    done.
Qed.

(** The constructor, run. *)
Lemma init_run (today : string) (h : heap) (i c a f : val) :
  closed_from 0 h ->
  val_within 0 (length h) i -> val_within 0 (length h) c ->
  val_within 0 (length h) a -> val_within 0 (length h) f ->
  let d1 := or_default h i (OList []) in
  let d2 := or_default d1.2 c (OList []) in
  let d3 := or_default d2.2 a (OList []) in
  let d4 := or_default d3.2 f (default_info today) in
  extends h d4.2
  /\ __init__ today i c a f h
     = (if accepts_seq h i && accepts_seq h c && accepts_seq h a
           && accepts_map h f
        then Ret {| images := d1.1; categories := d2.1;
                    annotations := d3.1; info := d4.1 |}
        else Raise ValueError,
        d4.2).
Proof.
  intros Hc Hi Hcat Ha Hf d1 d2 d3 d4.
  destruct (or_default_spec h i (OList []) Hc Hi eq_refl)
    as (Hc1 & He1 & Hv1 & _).
  fold d1 in Hc1, He1, Hv1.
  assert (Hcat1 : val_within 0 (length d1.2) c)
    by (eapply val_within_weaken; [exact Hcat | apply He1]).
  destruct (or_default_spec d1.2 c (OList []) Hc1 Hcat1 eq_refl)
    as (Hc2 & He2 & Hv2 & _).
  fold d2 in Hc2, He2, Hv2.
  assert (He02 : extends h d2.2) by (eapply extends_trans; eauto).
  assert (Ha2 : val_within 0 (length d2.2) a)
    by (eapply val_within_weaken; [exact Ha | apply He02]).
  destruct (or_default_spec d2.2 a (OList []) Hc2 Ha2 eq_refl)
    as (Hc3 & He3 & Hv3 & _).
  fold d3 in Hc3, He3, Hv3.
  assert (He03 : extends h d3.2) by (eapply extends_trans; eauto).
  assert (Hf3 : val_within 0 (length d3.2) f)
    by (eapply val_within_weaken; [exact Hf | apply He03]).
  destruct (or_default_spec d3.2 f (default_info today) Hc3 Hf3 eq_refl)
    as (Hc4 & He4 & Hv4 & _).
  fold d4 in Hc4, He4, Hv4.
  assert (He04 : extends h d4.2) by (eapply extends_trans; eauto).
  split; [done |].
  assert (Hs1 : is_seq_of_maps d4.2 d1.1 = accepts_seq h i).
  { apply seq_after_default; [done | done |].
    eapply extends_trans; [exact He2 |]. eapply extends_trans; eauto. }
  assert (Hs2 : is_seq_of_maps d4.2 d2.1 = accepts_seq h c).
  { assert (He24 : extends d2.2 d4.2) by (eapply extends_trans; eauto).
    pose proof (seq_after_default d1.2 d4.2 c Hc1 Hcat1 He24) as Hx.
    fold d2 in Hx. rewrite Hx. unfold accepts_seq.
    rewrite (is_true_extends h d1.2 c He1 Hcat).
    now rewrite (is_seq_of_maps_extends h d1.2 c Hc He1 Hcat). }
  assert (Hs3 : is_seq_of_maps d4.2 d3.1 = accepts_seq h a).
  { pose proof (seq_after_default d2.2 d4.2 a Hc2 Ha2 He4) as Hx.
    fold d3 in Hx. rewrite Hx. unfold accepts_seq.
    rewrite (is_true_extends h d2.2 a He02 Ha).
    now rewrite (is_seq_of_maps_extends h d2.2 a Hc He02 Ha). }
  assert (Hs4 : is_map d4.2 d4.1 = accepts_map h f).
  { pose proof (map_after_default d3.2 d4.2 f today Hf3
                  (extends_refl _)) as Hx.
    fold d4 in Hx. rewrite Hx. unfold accepts_map.
    rewrite (is_true_extends h d3.2 f He03 Hf).
    now rewrite (is_map_extends h d3.2 f He03 Hf). }
  assert (Hw1 : val_within 0 (length d4.2) d1.1).
  { eapply val_within_weaken; [exact Hv1 |].
    destruct He2, He3, He4. lia. }
  assert (Hw2 : val_within 0 (length d4.2) d2.1).
  { eapply val_within_weaken; [exact Hv2 |]. destruct He3, He4. lia. }
  assert (Hw3 : val_within 0 (length d4.2) d3.1).
  { eapply val_within_weaken; [exact Hv3 |]. destruct He4. lia. }
  unfold __init__, bind.
  rewrite (py_or_alloc_run h i _ Hi). fold d1.
  rewrite (py_or_alloc_run d1.2 c _ Hcat1). fold d2.
  rewrite (py_or_alloc_run d2.2 a _ Ha2). fold d3.
  rewrite (py_or_alloc_run d3.2 f _ Hf3). fold d4.
  rewrite (_check_values_run d4.2 d1.1 Hc4 Hw1), Hs1.
  destruct (accepts_seq h i); [| done].
  rewrite (_check_values_run d4.2 d2.1 Hc4 Hw2), Hs2.
  destruct (accepts_seq h c); [| done].
  rewrite (_check_values_run d4.2 d3.1 Hc4 Hw3), Hs3.
  destruct (accepts_seq h a); [| done].
  rewrite (_check_value_run d4.2 d4.1 Hv4), Hs4.
  now destruct (accepts_map h f).
Qed.

(** Checkable forms of the conditions on a concrete heap. *)
Definition closed_b (h : heap) : bool :=
  forallb (fun o => forallb (fun r => r <? length h) (obj_refs o)) h.

Definition within_b (k : nat) (v : val) : bool :=
  forallb (fun r => r <? k) (val_refs v).

Lemma closed_b_spec (h : heap) : closed_b h = true -> closed_from 0 h.
Proof.
  intros Hb l o r _ Ho Hr. split; [lia |].
  unfold closed_b in Hb. rewrite forallb_forall in Hb.
  apply list_elem_of_lookup_2, list_elem_of_In, Hb in Ho.
  rewrite forallb_forall in Ho. apply list_elem_of_In, Ho in Hr.
  now apply Nat.ltb_lt.
Qed.

Lemma within_b_spec (k : nat) (v : val) :
  within_b k v = true -> val_within 0 k v.
Proof.
  intros Hb r Hr. split; [lia |].
  unfold within_b in Hb. rewrite forallb_forall in Hb.
  apply list_elem_of_In, Hb in Hr. now apply Nat.ltb_lt.
Qed.

(** C6 (as stated) fails: with the integer 0 as [info], which is not a
    map, and the sequences left out, construction raises nothing: 0 is
    false, so the default metadata replaces it. *)
Lemma init_accepts_zero_info :
  is_map [] (VInt 0) = false
  /\ __init__ "2021/02/07" VNone VNone VNone (VInt 0) []
     = (Ret {| images := VRef 0; categories := VRef 1;
               annotations := VRef 2; info := VRef 3 |},
        [OList []; OList []; OList [];
         ODict [("description", VStr "Auto-generated by Geolabel-Maker");
                ("date_created", VStr "2021/02/07")]]).
Proof. split; reflexivity. Qed.

(** C6 (amended): construction raises [ValueError] (SchemaError) exactly
    when one of [images], [categories], [annotations] is a true value that
    is not a list or tuple of dicts, or [info] is a true value that is not a
    dict. Each argument is first replaced, when it is a false value ([None],
    0, an empty string or container), by its default: a new empty list for
    the three sequences, a new dict with the description and the date for
    [info] ([or_default] gives the value kept and the heap after the
    allocation). When the arguments are accepted the instance holds these
    four values; when one is rejected no instance is returned. Either way
    the objects that existed before are left as they were, and the heap
    holds the defaults allocated. *)
Theorem init_raises_iff (today : string) (h : heap) (i c a f : val) :
  closed_from 0 h ->
  val_within 0 (length h) i -> val_within 0 (length h) c ->
  val_within 0 (length h) a -> val_within 0 (length h) f ->
  let d1 := or_default h i (OList []) in
  let d2 := or_default d1.2 c (OList []) in
  let d3 := or_default d2.2 a (OList []) in
  let d4 :=
    or_default d3.2 f
      (ODict [("description", VStr "Auto-generated by Geolabel-Maker");
              ("date_created", VStr today)]) in
  extends h d4.2
  /\ __init__ today i c a f h
     = (if accepts_seq h i && accepts_seq h c && accepts_seq h a
           && accepts_map h f
        then Ret {| images := d1.1; categories := d2.1;
                    annotations := d3.1; info := d4.1 |}
        else Raise ValueError,
        d4.2).
Proof.
  intros Hc Hi Hcat Ha Hf.
  exact (init_run today h i c a f Hc Hi Hcat Ha Hf).
Qed.

(** [images=[{"id": 1}]] is accepted; the three arguments left out are
    replaced by two new lists and a new dict. *)
Lemma init_raises_iff_witness :
  extends [ODict [("id", VInt 1)]; OList [VRef 0]]
    [ODict [("id", VInt 1)]; OList [VRef 0]; OList []; OList [];
     ODict [("description", VStr "Auto-generated by Geolabel-Maker");
            ("date_created", VStr "2021/02/07")]]
  /\ __init__ "2021/02/07" (VRef 1) VNone VNone VNone
       [ODict [("id", VInt 1)]; OList [VRef 0]]
     = (Ret {| images := VRef 1; categories := VRef 2;
               annotations := VRef 3; info := VRef 4 |},
        [ODict [("id", VInt 1)]; OList [VRef 0]; OList []; OList [];
         ODict [("description", VStr "Auto-generated by Geolabel-Maker");
                ("date_created", VStr "2021/02/07")]]).
Proof.
  apply (init_raises_iff "2021/02/07"
           [ODict [("id", VInt 1)]; OList [VRef 0]]
           (VRef 1) VNone VNone VNone).
  - apply closed_b_spec. reflexivity.
  - apply within_b_spec. reflexivity.
  - apply within_b_spec. reflexivity.
  - apply within_b_spec. reflexivity.
  - apply within_b_spec. reflexivity.
Defined.

(** [images=["not a dict"]] raises. *)
Example init_rejects_string_element :
  __init__ "2021/02/07" (VRef 0) VNone VNone VNone
    [OList [VStr "not a dict"]]
  = (Raise ValueError,
     [OList [VStr "not a dict"]; OList []; OList [];
      ODict [("description", VStr "Auto-generated by Geolabel-Maker");
             ("date_created", VStr "2021/02/07")]]).
Proof. reflexivity. Qed.

(** C9: constructing with [info] left out, [None] or an empty dict yields,
    whenever an instance is returned, the default metadata: [info] names a
    new dict, not the object passed, that holds the fixed description under
    "description" and the date of the day under "date_created". (The only
    other outcome is the [ValueError] of a rejected sequence argument.) *)
Theorem init_default_info (today : string) (h : heap) (i c a f : val) :
  closed_from 0 h ->
  val_within 0 (length h) i -> val_within 0 (length h) c ->
  val_within 0 (length h) a ->
  (f = VNone \/ exists l, f = VRef l /\ h !! l = Some (ODict [])) ->
  exists out h',
    __init__ today i c a f h = (out, h')
    /\ match out with
       | Ret self =>
           exists l',
             info self = VRef l'
             /\ length h <= l'
             /\ info self <> f
             /\ h' !! l'
                = Some (ODict
                          [("description",
                            VStr "Auto-generated by Geolabel-Maker");
                           ("date_created", VStr today)])
       | Raise e =>
           e = ValueError
           /\ accepts_seq h i && accepts_seq h c && accepts_seq h a = false
       | Stuck => False
       end.
Proof.
  intros Hc Hi Hcat Ha Hinfo.
  assert (Hf : val_within 0 (length h) f).
  { destruct Hinfo as [-> | (l & -> & Hl)].
    - intros r Hr. inversion Hr.
    - apply val_within_ref. apply lookup_lt_Some in Hl. lia. }
  assert (Hfalse : is_true h f = false).
  { destruct Hinfo as [-> | (l & -> & Hl)]; [done |]. cbn. now rewrite Hl. }
  destruct (init_run today h i c a f Hc Hi Hcat Ha Hf) as [_ Hrun].
  set (d3 := or_default
               (or_default (or_default h i (OList [])).2 c (OList [])).2
               a (OList [])) in *.
  assert (Hext3 : extends h d3.2).
  { destruct (or_default_spec h i (OList []) Hc Hi eq_refl)
      as (Hc1 & He1 & _).
    assert (Hcat1 : val_within 0 (length (or_default h i (OList [])).2) c)
      by (eapply val_within_weaken; [exact Hcat | apply He1]).
    destruct (or_default_spec _ c (OList []) Hc1 Hcat1 eq_refl)
      as (Hc2 & He2 & _).
    assert (He02 : extends h (or_default (or_default h i (OList [])).2
                                c (OList [])).2)
      by (eapply extends_trans; eauto).
    assert (Ha2 : val_within 0
                    (length (or_default (or_default h i (OList [])).2
                               c (OList [])).2) a)
      by (eapply val_within_weaken; [exact Ha | apply He02]).
    destruct (or_default_spec _ a (OList []) Hc2 Ha2 eq_refl)
      as (_ & He3 & _).
    eapply extends_trans; eauto. }
  assert (Hfalse3 : is_true d3.2 f = false)
    by (rewrite (is_true_extends h d3.2 f Hext3 Hf); exact Hfalse).
  eexists _, _. split; [exact Hrun |].
  unfold accepts_map. rewrite Hfalse. cbn [negb orb]. rewrite andb_true_r.
  destruct (accepts_seq h i && accepts_seq h c && accepts_seq h a);
    [| done].
  assert (Hd4 : or_default d3.2 f (default_info today)
                = (VRef (length d3.2), d3.2 ++ [default_info today]))
    by (unfold or_default; now rewrite Hfalse3).
  rewrite Hd4. cbn [fst snd info].
  exists (length d3.2).
  split; [done |]. split; [apply Hext3 |]. split.
  - destruct Hinfo as [-> | (l & -> & Hl)]; [done |].
    apply lookup_lt_Some in Hl. destruct Hext3 as [Hlen _].
    intros Heq. inversion Heq. lia.
  - now apply list_lookup_middle.
Qed.

(** An empty dict passed as [info] is replaced. *)
Lemma init_default_info_witness :
  exists out h',
    __init__ "2021/02/07" VNone VNone VNone (VRef 0) [ODict []] = (out, h')
    /\ match out with
       | Ret self =>
           exists l',
             info self = VRef l'
             /\ length [ODict []] <= l'
             /\ info self <> VRef 0
             /\ h' !! l'
                = Some (ODict
                          [("description",
                            VStr "Auto-generated by Geolabel-Maker");
                           ("date_created", VStr "2021/02/07")])
       | Raise e =>
           e = ValueError
           /\ accepts_seq [ODict []] VNone && accepts_seq [ODict []] VNone
              && accepts_seq [ODict []] VNone = false
       | Stuck => False
       end.
Proof.
  apply (init_default_info "2021/02/07" [ODict []] VNone VNone VNone (VRef 0)).
  - apply closed_b_spec. reflexivity.
  - apply within_b_spec. reflexivity.
  - apply within_b_spec. reflexivity.
  - apply within_b_spec. reflexivity.
  - right. exists 0. split; reflexivity.
Defined.

(** *** Reasoning about runs *)

(** [wp m h Q E]: run in [h], [m] returns a value and a heap satisfying [Q],
    or raises in a heap satisfying [E]; it is not stuck. *)
Definition wp {A} (m : M A) (h : heap)
    (Q : A -> heap -> Prop) (E : exn -> heap -> Prop) : Prop :=
  match m h with
  | (Ret a, h') => Q a h'
  | (Raise e, h') => E e h'
  | (Stuck, _) => False
  end.

Lemma wp_ret {A} (a : A) (h : heap) Q E : Q a h -> wp (ret a) h Q E.
Proof. done. Qed.

Lemma wp_raise {A} (e : exn) (h : heap) (Q : A -> heap -> Prop) E :
  E e h -> wp (raise e) h Q E.
Proof. done. Qed.

Lemma wp_bind {A B} (m : M A) (k : A -> M B) (h : heap) Q E :
  wp m h (fun a h' => wp (k a) h' Q E) E -> wp (bind m k) h Q E.
Proof.
  unfold wp, bind. now destruct (m h) as [[a | e |] h'].
Qed.

Lemma wp_mono {A} (m : M A) (h : heap) (Q Q' : A -> heap -> Prop)
    (E E' : exn -> heap -> Prop) :
  wp m h Q E ->
  (forall a h', Q a h' -> Q' a h') -> (forall e h', E e h' -> E' e h') ->
  wp m h Q' E'.
Proof.
  unfold wp. destruct (m h) as [[a | e |] h']; auto.
Qed.

Lemma wp_run {A} (m : M A) (h : heap) Q E :
  wp m h Q E ->
  exists out h',
    m h = (out, h')
    /\ match out with
       | Ret a => Q a h'
       | Raise e => E e h'
       | Stuck => False
       end.
Proof.
  unfold wp. destruct (m h) as [out h']. intros H. now exists out, h'.
Qed.

Lemma wp_deref (l : nat) (o : obj) (h : heap) Q E :
  h !! l = Some o -> Q o h -> wp (deref l) h Q E.
Proof. intros Ho HQ. unfold wp. now rewrite (deref_run h l o Ho). Qed.


Lemma wp_store (l : nat) (o : obj) (h : heap) (Q : unit -> heap -> Prop) E :
  l < length h -> Q tt (<[l := o]> h) -> wp (store l o) h Q E.
Proof.
  intros Hl HQ. unfold wp, store.
  destruct (lookup_lt_is_Some_2 h l Hl) as [o' Ho']. now rewrite Ho'.
Qed.



Lemma closed_between_grow (n : nat) (h h' : heap) :
  n <= length h ->
  closed_between n (length h) h -> extends h h' ->
  closed_between (length h) (length h') h' ->
  closed_between n (length h') h'.
Proof.
  intros Hn Hc Hext Hnew.
  apply (closed_between_join n (length h) (length h') h');
    [destruct Hext; lia | | done].
  apply (closed_between_same n (length h) h h' Hc).
  intros l Hl. apply Hext. lia.
Qed.


(** *** [to_dict] *)



Section ToDict.

Variable relative_path : val -> val -> exn + option string.

(** The heap [to_dict] is called in. *)
Variable h0 : heap.





End ToDict.


(** A stand-in for [relative_path] in the examples: the path as it is. *)
Definition keep_path (path root : val) : exn + option string :=
  inr (match path with VStr s => Some s | _ => None end).

(** An instance with empty sequences whose [info] is the dict of
    reference 0. *)
Definition shared_heap : list obj :=
  [ODict [("description", VStr "demo")]; OList []].

Definition shared_self : Annotation :=
  {| images := VRef 1; categories := VRef 1; annotations := VRef 1;
     info := VRef 0 |}.


(** *** [get_labels] *)

(** An annotation record that carries the key "image_id". *)
Definition has_image_id (h : heap) (v : val) : Prop :=
  exists l entries w,
    v = VRef l /\ h !! l = Some (ODict entries)
    /\ entries_lookup entries "image_id" = Some w.

(** The record's "image_id" equals the argument. *)
Definition label_matches (h : heap) (image_id : Z) (v : val) : bool :=
  match v with
  | VRef l =>
      match h !! l with
      | Some (ODict entries) =>
          match entries_lookup entries "image_id" with
          | Some w => eq_int w image_id
          | None => false
          end
      | _ => false
      end
  | _ => false
  end.

(** One round of the loop of [get_labels]. *)
Definition label_round (labels : val) (image_id : Z) (annotation : val)
  : M unit :=
  let* v := getitem annotation "image_id" in
  if eq_int v image_id
  then let* copy := deepcopy annotation in list_append labels copy
  else ret tt.

Lemma copy_of_kept (n : nat) (h h1 h2 : heap) (x y : val) :
  closed_between n (length h1) h1 -> val_within n (length h1) y ->
  (forall l, n <= l < length h1 -> h2 !! l = h1 !! l) ->
  copy_of h x h1 y -> copy_of h x h2 y.
Proof.
  intros Hcl Hy Hsame Hcopy depth.
  rewrite (content_same n (length h1) h1 h2 depth y Hcl Hsame Hy).
  apply Hcopy.
Qed.

Section GetLabels.

(** The heap [get_labels] is called in, and the identifier looked for. *)
Variable h : heap.
Hypothesis h_closed : closed_from 0 h.
Variable image_id : Z.

(** During the loop: the result list, at the first new reference, holds
    [ys]; the objects of [h] are unchanged; the copies made so far only
    refer to one another. *)
Definition collecting (hc : heap) (ys : list val) : Prop :=
  extends h hc
  /\ closed_from 0 hc
  /\ hc !! length h = Some (OList ys)
  /\ closed_between (S (length h)) (length hc) hc
  /\ Forall (val_within (S (length h)) (length hc)) ys.

(** The later heap keeps all the objects of the earlier one but the result
    list. *)
Definition keeps_copies (hc h' : heap) : Prop :=
  length hc <= length h'
  /\ forall l, l < length hc -> l <> length h -> h' !! l = hc !! l.

Lemma label_round_spec (hc : heap) (ys : list val) (x : val) :
  collecting hc ys -> has_image_id h x ->
  wp (label_round (VRef (length h)) image_id x) hc
     (fun _ h' =>
        exists ys',
          collecting h' (ys ++ ys')
          /\ keeps_copies hc h'
          /\ Forall2 (fun x y => copy_of h x h' y)
               (List.filter (label_matches h image_id) [x]) ys')
     (fun _ _ => False).
Proof.
  intros (Hext & Hc & Hlab & Hcl & Hys) (l & entries & w & -> & Hl & Hw).
  assert (Hlen : length h < length hc) by (now apply lookup_lt_Some in Hlab).
  assert (Hlc : hc !! l = Some (ODict entries))
    by (eapply extends_lookup; eauto).
  unfold wp, label_round, getitem, bind. rewrite (deref_run hc l _ Hlc).
  cbn [List.filter label_matches]. rewrite Hl, Hw.
  change (ret w hc) with (Ret w, hc). cbn beta iota.
  destruct (eq_int w image_id); cbn beta.
  - assert (Hx : val_within 0 (length hc) (VRef l)).
    { apply val_within_ref. apply lookup_lt_Some in Hlc. lia. }
    destruct (deepcopy_returns hc (VRef l) Hc Hx)
      as (y & h1 & Hrun & He1 & Hn1 & Hy & Hcopy).
    rewrite Hrun. unfold list_append, bind.
    assert (Hlab1 : h1 !! length h = Some (OList ys))
      by (eapply extends_lookup; eauto).
    rewrite (deref_run h1 _ _ Hlab1). unfold store. rewrite Hlab1.
    assert (Hl1 : length hc <= length h1) by apply He1.
    assert (Hcl1 : closed_between (S (length h)) (length h1) h1).
    { apply (closed_between_grow (S (length h)) hc h1); [lia | | |]; done. }
    assert (Hc1 : closed_from 0 h1).
    { apply closed_between_from.
      apply (closed_between_grow 0 hc h1); [lia | | done | done].
      apply (closed_from_between 0 hc hc Hc), extends_refl. }
    assert (Hy1 : val_within (S (length h)) (length h1) y)
      by (intros r Hr; destruct (Hy r Hr); lia).
    exists [y]. split; [| split].
    + split; [apply extends_insert; [eapply extends_trans; eauto | lia] |].
      split; [| split; [| split]].
      * intros l' o' r _ Ho' Hr. rewrite length_insert.
        split; [lia |].
        destruct (decide (l' = length h)) as [-> | Hne].
        -- rewrite list_lookup_insert_eq in Ho' by lia.
           inversion Ho'; subst o'. apply obj_refs_spec in Hr. cbn in Hr.
           apply elem_of_app in Hr as [Hr | Hr].
           ++ rewrite Forall_forall in Hys.
              destruct (Hys _ Hr r) as [_ Hlt];
                [cbn; now apply list_elem_of_singleton | lia].
           ++ apply list_elem_of_singleton in Hr. subst y.
              apply val_within_ref in Hy. lia.
        -- rewrite list_lookup_insert_ne in Ho' by done.
           apply (Hc1 l' o' r (Nat.le_0_l l') Ho' Hr).
      * apply list_lookup_insert_eq. lia.
      * rewrite length_insert.
        apply (closed_between_same _ _ h1); [done |].
        intros l' Hl'. apply list_lookup_insert_ne. lia.
      * rewrite length_insert. apply Forall_app. split.
        -- eapply Forall_impl; [exact Hys |].
           intros v Hv. eapply val_within_weaken; [exact Hv | lia].
        -- now constructor.
    + split; [rewrite length_insert; lia |].
      intros l' Hl' Hne. rewrite list_lookup_insert_ne by done.
      apply He1. lia.
    + constructor; [| constructor].
      apply (copy_of_kept (S (length h)) h h1 _ (VRef l) y Hcl1 Hy1).
      * intros l' Hl'. apply list_lookup_insert_ne. lia.
      * intros depth. rewrite Hcopy.
        apply (content_same 0 (length h) h hc depth (VRef l)).
        -- apply (closed_from_between 0 h h h_closed), extends_refl.
        -- intros l' Hl'. apply Hext. lia.
        -- apply val_within_ref. apply lookup_lt_Some in Hl. lia.
  - exists []. rewrite app_nil_r. split; [done |]. split; [| constructor].
    split; [lia | done].
Qed.

Lemma keeps_copies_trans (h1 h2 h3 : heap) :
  keeps_copies h1 h2 -> keeps_copies h2 h3 -> keeps_copies h1 h3.
Proof.
  intros [Hl1 H1] [Hl2 H2]. split; [lia |].
  intros l Hl Hne. rewrite H2 by (done || lia). now apply H1.
Qed.

Lemma copies_kept (h1 h2 : heap) (xs ys all : list val) :
  collecting h1 all -> keeps_copies h1 h2 -> (forall y, y ∈ ys -> y ∈ all) ->
  Forall2 (fun x y => copy_of h x h1 y) xs ys ->
  Forall2 (fun x y => copy_of h x h2 y) xs ys.
Proof.
  intros (_ & _ & _ & Hcl & Hall) [_ Hsame] Hsub Hcopies.
  induction Hcopies as [| x y xs ys Hxy _ IH]; constructor.
  - apply (copy_of_kept (S (length h)) h h1 h2 x y Hcl); [| | done].
    + rewrite Forall_forall in Hall. apply Hall, Hsub, elem_of_cons.
      now left.
    + intros l Hl. apply Hsame; lia.
  - apply IH. intros z Hz. apply Hsub, elem_of_cons. now right.
Qed.

Lemma labels_loop (items : list val) :
  forall (hc : heap) (ys : list val),
    collecting hc ys -> Forall (has_image_id h) items ->
    wp (for_each items (label_round (VRef (length h)) image_id)) hc
       (fun _ h' =>
          exists ys',
            collecting h' (ys ++ ys')
            /\ keeps_copies hc h'
            /\ Forall2 (fun x y => copy_of h x h' y)
                 (List.filter (label_matches h image_id) items) ys')
       (fun _ _ => False).
Proof.
  induction items as [| x items IH]; intros hc ys Hcol Hitems.
  - exists []. rewrite app_nil_r. split; [done |].
    split; [split; [lia | done] | constructor].
  - apply Forall_cons in Hitems as [Hx Hitems]. cbn [for_each].
    apply wp_bind.
    eapply wp_mono; [apply (label_round_spec hc ys x Hcol Hx) | | done].
    intros u h1 (ys1 & Hcol1 & Hk1 & Hf1).
    eapply wp_mono; [apply (IH h1 (ys ++ ys1) Hcol1 Hitems) | | done].
    intros u2 h2 (ys2 & Hcol2 & Hk2 & Hf2).
    exists (ys1 ++ ys2). rewrite app_assoc. split; [done |].
    split; [eapply keeps_copies_trans; eauto |].
    replace (List.filter (label_matches h image_id) (x :: items))
      with (List.filter (label_matches h image_id) [x]
              ++ List.filter (label_matches h image_id) items)
      by (cbn; now destruct (label_matches h image_id x)).
    apply Forall2_app; [| done].
    apply (copies_kept h1 h2 _ ys1 (ys ++ ys1) Hcol1 Hk2); [| done].
    intros y Hy. apply elem_of_app. now right.
Qed.

(** [get_labels], run. *)
Lemma get_labels_run (self : Annotation) (la : nat) (o : obj)
    (items : list val) :
  annotations self = VRef la -> h !! la = Some o ->
  o = OList items \/ o = OTuple items ->
  Forall (has_image_id h) items ->
  exists h' ys,
    get_labels self image_id h = (Ret (VRef (length h)), h')
    /\ collecting h' ys
    /\ Forall2 (fun x y => copy_of h x h' y)
         (List.filter (label_matches h image_id) items) ys.
Proof.
  intros Hann Hla Ho Hitems.
  assert (Hcol0 : collecting (h ++ [OList []]) []).
  { split; [apply extends_app |].
    split; [now apply closed_from_app |].
    split; [now apply list_lookup_middle |].
    split; [| constructor].
    intros l o' r Hl. rewrite length_app in Hl. cbn in Hl. lia. }
  pose proof (labels_loop items _ _ Hcol0 Hitems) as Hloop.
  apply wp_run in Hloop as (out & h' & Hrun & Hout).
  destruct out as [u | e |]; [| done | done].
  destruct Hout as (ys & Hcol & _ & Hcopies).
  exists h', ys. split; [| done].
  unfold get_labels, bind, alloc. rewrite Hann.
  assert (Hla' : (h ++ [OList []]) !! la = Some o)
    by now apply lookup_app_l_Some.
  unfold py_iter, bind. rewrite (deref_run _ la o Hla').
  assert (Hiter : (match o with
                   | OList items0 | OTuple items0 => items0
                   | ODict entries => map (fun e => VStr e.1) entries
                   end) = items) by (destruct Ho; now subst).
  unfold ret at 1. rewrite Hiter.
  change (for_each items _ (h ++ [OList []]))
    with (for_each items (label_round (VRef (length h)) image_id)
            (h ++ [OList []])).
  now rewrite Hrun.
Qed.

End GetLabels.

(** C7 (as stated) fails: on an instance whose only annotation record has
    an "image_name" and no "image_id", [get_labels] raises [KeyError]. *)
Lemma get_labels_raises_without_image_id :
  get_labels
    {| images := VNone; categories := VNone; annotations := VRef 1;
       info := VNone |}
    0%Z
    [ODict [("id", VInt 0); ("image_name", VStr "a.png")]; OList [VRef 0]]
  = (Raise KeyError,
     [ODict [("id", VInt 0); ("image_name", VStr "a.png")]; OList [VRef 0];
      OList []]).
Proof. reflexivity. Qed.

(** The example of the specification: the two records of image 2, in
    order, as new dicts in a new list. *)
Example get_labels_of_image_2 :
  get_labels
    {| images := VNone; categories := VNone; annotations := VRef 3;
       info := VNone |}
    2%Z
    [ODict [("id", VInt 0); ("image_id", VInt 1)];
     ODict [("id", VInt 1); ("image_id", VInt 2)];
     ODict [("id", VInt 2); ("image_id", VInt 2)];
     OList [VRef 0; VRef 1; VRef 2]]
  = (Ret (VRef 4),
     [ODict [("id", VInt 0); ("image_id", VInt 1)];
      ODict [("id", VInt 1); ("image_id", VInt 2)];
      ODict [("id", VInt 2); ("image_id", VInt 2)];
      OList [VRef 0; VRef 1; VRef 2];
      OList [VRef 5; VRef 6];
      ODict [("id", VInt 1); ("image_id", VInt 2)];
      ODict [("id", VInt 2); ("image_id", VInt 2)]]).
Proof. vm_compute. reflexivity. Qed.

(** C7 (amended): for every instance whose [annotations] is a list or
    tuple of records that all carry the key "image_id" (in a heap where no
    reference dangles), and for every integer [image_id], [get_labels]
    raises nothing and returns a new list that holds, in the order of
    [annotations], one deep copy of each record whose "image_id" equals the
    argument, and nothing else (the list is empty when no record matches).
    Every list and dict the copies lead to is new, and the objects that
    existed before the call are unchanged. *)
Theorem get_labels_copies (h : heap) (self : Annotation) (image_id : Z)
    (la : nat) (o : obj) (items : list val) :
  closed_from 0 h ->
  annotations self = VRef la -> h !! la = Some o ->
  o = OList items \/ o = OTuple items ->
  Forall (has_image_id h) items ->
  exists h' ys,
    get_labels self image_id h = (Ret (VRef (length h)), h')
    /\ extends h h'
    /\ h' !! length h = Some (OList ys)
    /\ Forall2 (fun x y => copy_of h x h' y)
         (List.filter (label_matches h image_id) items) ys
    /\ forall y r o,
         y ∈ ys -> reachable h' y r ->
         h' !! r = Some o -> is_mutable o = true -> length h < r.
Proof.
  intros Hc Hann Hla Ho Hitems.
  destruct (get_labels_run h Hc image_id self la o items Hann Hla Ho Hitems)
    as (h' & ys & Hrun & (Hext & _ & Hlab & Hcl & Hys) & Hcopies).
  exists h', ys. split; [done |]. split; [done |]. split; [done |].
  split; [done |].
  intros y r o' Hy Hreach _ _. rewrite Forall_forall in Hys.
  destruct (reachable_between _ _ h' y r Hcl (Hys y Hy) Hreach). lia.
Qed.

Lemma get_labels_copies_witness :
  exists h' ys,
    get_labels
      {| images := VNone; categories := VNone; annotations := VRef 4;
         info := VNone |}
      2%Z
      [OTuple [VInt 1; VInt 2];
       ODict [("id", VInt 0); ("image_id", VInt 1)];
       ODict [("id", VInt 1); ("image_id", VInt 2); ("bbox", VRef 0)];
       ODict [("id", VInt 2); ("image_id", VInt 2)];
       OList [VRef 1; VRef 2; VRef 3]]
    = (Ret (VRef 5), h')
    /\ extends
         [OTuple [VInt 1; VInt 2];
          ODict [("id", VInt 0); ("image_id", VInt 1)];
          ODict [("id", VInt 1); ("image_id", VInt 2); ("bbox", VRef 0)];
          ODict [("id", VInt 2); ("image_id", VInt 2)];
          OList [VRef 1; VRef 2; VRef 3]]
         h'
    /\ h' !! 5 = Some (OList ys)
    /\ Forall2
         (fun x y =>
            copy_of
              [OTuple [VInt 1; VInt 2];
               ODict [("id", VInt 0); ("image_id", VInt 1)];
               ODict [("id", VInt 1); ("image_id", VInt 2); ("bbox", VRef 0)];
               ODict [("id", VInt 2); ("image_id", VInt 2)];
               OList [VRef 1; VRef 2; VRef 3]]
              x h' y)
         [VRef 2; VRef 3] ys
    /\ forall y r o,
         y ∈ ys -> reachable h' y r ->
         h' !! r = Some o -> is_mutable o = true -> 5 < r.
Proof.
  apply (get_labels_copies
           [OTuple [VInt 1; VInt 2];
            ODict [("id", VInt 0); ("image_id", VInt 1)];
            ODict [("id", VInt 1); ("image_id", VInt 2); ("bbox", VRef 0)];
            ODict [("id", VInt 2); ("image_id", VInt 2)];
            OList [VRef 1; VRef 2; VRef 3]]
           {| images := VNone; categories := VNone; annotations := VRef 4;
              info := VNone |}
           2%Z 4 (OList [VRef 1; VRef 2; VRef 3])
           [VRef 1; VRef 2; VRef 3]).
  - apply closed_b_spec. reflexivity.
  - reflexivity.
  - reflexivity.
  - left. reflexivity.
  - repeat constructor; eexists _, _, _;
      (split; [reflexivity | split; reflexivity]).
Defined.

(** *** Lookups by identifier: [get_image], [get_category],
    [get_annotation] *)

(** [for x in items: if x["id"] == wanted: return found(x)], followed by
    [return None]. *)
Fixpoint first_with_id (items : list val) (wanted : Z) (found : val -> M val)
  : M val :=
  match items with
  | [] => ret VNone
  | x :: items =>
      let* v := getitem x "id" in
      if eq_int v wanted then found x else first_with_id items wanted found
  end.

(** [get_image] returns the record itself; the other two return a copy. *)
Definition get_image (self : Annotation) (image_id : Z) : M val :=
  let* items := py_iter (images self) in
  first_with_id items image_id ret.

Definition get_category (self : Annotation) (category_id : Z) : M val :=
  let* items := py_iter (categories self) in
  first_with_id items category_id deepcopy.

Definition get_annotation (self : Annotation) (annotation_id : Z) : M val :=
  let* items := py_iter (annotations self) in
  first_with_id items annotation_id deepcopy.

(** A record that carries the key "id". *)
Definition has_id (h : heap) (v : val) : Prop :=
  exists l entries w,
    v = VRef l /\ h !! l = Some (ODict entries)
    /\ entries_lookup entries "id" = Some w.

(** The record's "id" equals the argument. *)
Definition id_matches (h : heap) (wanted : Z) (v : val) : bool :=
  match v with
  | VRef l =>
      match h !! l with
      | Some (ODict entries) =>
          match entries_lookup entries "id" with
          | Some w => eq_int w wanted
          | None => false
          end
      | _ => false
      end
  | _ => false
  end.

(** The items of a list or tuple named by a value. *)
Definition sequence_at (h : heap) (v : val) (items : list val) : Prop :=
  exists l,
    v = VRef l
    /\ (h !! l = Some (OList items) \/ h !! l = Some (OTuple items)).

Lemma py_iter_sequence (h : heap) (v : val) (items : list val) :
  sequence_at h v items -> py_iter v h = (Ret items, h).
Proof.
  intros (l & -> & [Hl | Hl]); unfold py_iter, bind;
    now rewrite (deref_run h l _ Hl).
Qed.

Lemma first_with_id_run (h : heap) (wanted : Z) (found : val -> M val)
    (items : list val) :
  Forall (has_id h) items ->
  first_with_id items wanted found h
    = match List.find (id_matches h wanted) items with
      | Some x => found x h
      | None => (Ret VNone, h)
      end.
Proof.
  induction items as [| x items IH]; intros Hall; [done |].
  apply Forall_cons in Hall as [(l & entries & w & -> & Hl & Hw) Hall].
  cbn [first_with_id List.find id_matches]. unfold bind, getitem.
  unfold bind. rewrite (deref_run h l _ Hl), Hl, Hw.
  change (ret w h) with (Ret w, h). cbn beta iota.
  destruct (eq_int w wanted); [done | now apply IH].
Qed.

(** On records that all carry an "id", [get_image] returns the first
    record whose "id" equals the argument, the very object held by the
    instance and not a copy, or [None] when there is none; the heap is
    left as it is. *)
Theorem get_image_first (h : heap) (self : Annotation) (image_id : Z)
    (items : list val) :
  sequence_at h (images self) items ->
  Forall (has_id h) items ->
  get_image self image_id h
    = (Ret (default VNone (List.find (id_matches h image_id) items)), h).
Proof.
  intros Hseq Hall. unfold get_image, bind.
  rewrite (py_iter_sequence h _ items Hseq).
  rewrite (first_with_id_run h image_id ret items Hall).
  now destruct (List.find _ items).
Qed.

Lemma get_image_first_witness :
  get_image
    {| images := VRef 2; categories := VNone; annotations := VNone;
       info := VNone |}
    1%Z
    [ODict [("id", VInt 0)]; ODict [("id", VInt 1)]; OList [VRef 0; VRef 1]]
  = (Ret (default VNone
            (List.find
               (id_matches
                  [ODict [("id", VInt 0)]; ODict [("id", VInt 1)];
                   OList [VRef 0; VRef 1]] 1%Z)
               [VRef 0; VRef 1])),
     [ODict [("id", VInt 0)]; ODict [("id", VInt 1)]; OList [VRef 0; VRef 1]]).
Proof.
  apply (get_image_first
           [ODict [("id", VInt 0)]; ODict [("id", VInt 1)];
            OList [VRef 0; VRef 1]]
           {| images := VRef 2; categories := VNone; annotations := VNone;
              info := VNone |}
           1%Z [VRef 0; VRef 1]).
  - exists 2. split; [reflexivity | left; reflexivity].
  - repeat constructor; eexists _, _, _;
      (split; [reflexivity | split; reflexivity]).
Defined.

(** The first record with the wanted "id", copied. *)
Lemma first_with_id_copy (h : heap) (wanted : Z) (items : list val) :
  closed_from 0 h -> Forall (has_id h) items ->
  match List.find (id_matches h wanted) items with
  | Some x =>
      exists y h',
        first_with_id items wanted deepcopy h = (Ret y, h')
        /\ extends h h'
        /\ copy_of h x h' y
        /\ forall r, reachable h' y r -> length h <= r
  | None => first_with_id items wanted deepcopy h = (Ret VNone, h)
  end.
Proof.
  intros Hc Hall. rewrite (first_with_id_run h wanted deepcopy items Hall).
  destruct (List.find _ items) as [x |] eqn:Hfind; [| done].
  apply List.find_some in Hfind as [Hin _].
  rewrite Forall_forall in Hall.
  destruct (Hall x) as (l & entries & w & -> & Hl & _);
    [now apply list_elem_of_In |].
  assert (Hx : val_within 0 (length h) (VRef l)).
  { apply val_within_ref. apply lookup_lt_Some in Hl. lia. }
  destruct (deepcopy_returns h (VRef l) Hc Hx)
    as (y & h' & Hrun & Hext & Hnew & Hy & Hcopy).
  exists y, h'. split; [done |]. split; [done |]. split; [done |].
  intros r Hr. now destruct (reachable_between _ _ h' y r Hnew Hy Hr).
Qed.

(** On records that all carry an "id" (in a heap where no reference
    dangles), [get_category] returns a deep copy of the first record whose
    "id" equals the argument: it has the contents of the record, every list
    and dict it leads to is new, and the objects of the heap are unchanged.
    When no record has that "id" it returns [None] and allocates
    nothing. *)
Theorem get_category_first (h : heap) (self : Annotation) (category_id : Z)
    (items : list val) :
  closed_from 0 h ->
  sequence_at h (categories self) items ->
  Forall (has_id h) items ->
  match List.find (id_matches h category_id) items with
  | Some x =>
      exists y h',
        get_category self category_id h = (Ret y, h')
        /\ extends h h'
        /\ copy_of h x h' y
        /\ forall r o,
             reachable h' y r -> h' !! r = Some o -> is_mutable o = true ->
             length h <= r
  | None => get_category self category_id h = (Ret VNone, h)
  end.
Proof.
  intros Hc Hseq Hall. unfold get_category, bind.
  rewrite (py_iter_sequence h _ items Hseq).
  pose proof (first_with_id_copy h category_id items Hc Hall) as Hcopy.
  destruct (List.find _ items) as [x |]; [| done].
  destruct Hcopy as (y & h' & Hrun & Hext & Hc' & Hnew).
  exists y, h'. split; [done |]. split; [done |]. split; [done |].
  intros r o Hr _ _. now apply Hnew.
Qed.

Lemma get_category_first_witness :
  match List.find
          (id_matches
             [OTuple [VInt 255; VInt 0; VInt 0];
              ODict [("id", VInt 0); ("name", VStr "road");
                     ("color", VRef 0)];
              ODict [("id", VInt 1); ("name", VStr "building");
                     ("color", VRef 0)];
              OList [VRef 1; VRef 2]] 1%Z)
          [VRef 1; VRef 2]
  with
  | Some x =>
      exists y h',
        get_category
          {| images := VNone; categories := VRef 3; annotations := VNone;
             info := VNone |}
          1%Z
          [OTuple [VInt 255; VInt 0; VInt 0];
           ODict [("id", VInt 0); ("name", VStr "road");
                  ("color", VRef 0)];
           ODict [("id", VInt 1); ("name", VStr "building");
                  ("color", VRef 0)];
           OList [VRef 1; VRef 2]]
        = (Ret y, h')
        /\ extends
             [OTuple [VInt 255; VInt 0; VInt 0];
              ODict [("id", VInt 0); ("name", VStr "road");
                     ("color", VRef 0)];
              ODict [("id", VInt 1); ("name", VStr "building");
                     ("color", VRef 0)];
              OList [VRef 1; VRef 2]]
             h'
        /\ copy_of
             [OTuple [VInt 255; VInt 0; VInt 0];
              ODict [("id", VInt 0); ("name", VStr "road");
                     ("color", VRef 0)];
              ODict [("id", VInt 1); ("name", VStr "building");
                     ("color", VRef 0)];
              OList [VRef 1; VRef 2]]
             x h' y
        /\ forall r o,
             reachable h' y r -> h' !! r = Some o -> is_mutable o = true ->
             4 <= r
  | None =>
      get_category
        {| images := VNone; categories := VRef 3; annotations := VNone;
           info := VNone |}
        1%Z
        [OTuple [VInt 255; VInt 0; VInt 0];
         ODict [("id", VInt 0); ("name", VStr "road");
                ("color", VRef 0)];
         ODict [("id", VInt 1); ("name", VStr "building");
                ("color", VRef 0)];
         OList [VRef 1; VRef 2]]
      = (Ret VNone,
         [OTuple [VInt 255; VInt 0; VInt 0];
          ODict [("id", VInt 0); ("name", VStr "road");
                 ("color", VRef 0)];
          ODict [("id", VInt 1); ("name", VStr "building");
                 ("color", VRef 0)];
          OList [VRef 1; VRef 2]])
  end.
Proof.
  apply (get_category_first
           [OTuple [VInt 255; VInt 0; VInt 0];
            ODict [("id", VInt 0); ("name", VStr "road");
                   ("color", VRef 0)];
            ODict [("id", VInt 1); ("name", VStr "building");
                   ("color", VRef 0)];
            OList [VRef 1; VRef 2]]
           {| images := VNone; categories := VRef 3; annotations := VNone;
              info := VNone |}
           1%Z [VRef 1; VRef 2]).
  - apply closed_b_spec. reflexivity.
  - exists 3. split; [reflexivity | left; reflexivity].
  - repeat constructor; eexists _, _, _;
      (split; [reflexivity | split; reflexivity]).
Defined.

(** [get_annotation] does the same on the annotation records. *)
Theorem get_annotation_first (h : heap) (self : Annotation)
    (annotation_id : Z) (items : list val) :
  closed_from 0 h ->
  sequence_at h (annotations self) items ->
  Forall (has_id h) items ->
  match List.find (id_matches h annotation_id) items with
  | Some x =>
      exists y h',
        get_annotation self annotation_id h = (Ret y, h')
        /\ extends h h'
        /\ copy_of h x h' y
        /\ forall r o,
             reachable h' y r -> h' !! r = Some o -> is_mutable o = true ->
             length h <= r
  | None => get_annotation self annotation_id h = (Ret VNone, h)
  end.
Proof.
  intros Hc Hseq Hall. unfold get_annotation, bind.
  rewrite (py_iter_sequence h _ items Hseq).
  pose proof (first_with_id_copy h annotation_id items Hc Hall) as Hcopy.
  destruct (List.find _ items) as [x |]; [| done].
  destruct Hcopy as (y & h' & Hrun & Hext & Hc' & Hnew).
  exists y, h'. split; [done |]. split; [done |]. split; [done |].
  intros r o Hr _ _. now apply Hnew.
Qed.

Lemma get_annotation_first_witness :
  match List.find
          (id_matches
             [ODict [("id", VInt 7); ("image_id", VInt 0)]; OList [VRef 0]]
             7%Z)
          [VRef 0]
  with
  | Some x =>
      exists y h',
        get_annotation
          {| images := VNone; categories := VNone; annotations := VRef 1;
             info := VNone |}
          7%Z
          [ODict [("id", VInt 7); ("image_id", VInt 0)]; OList [VRef 0]]
        = (Ret y, h')
        /\ extends
             [ODict [("id", VInt 7); ("image_id", VInt 0)]; OList [VRef 0]]
             h'
        /\ copy_of
             [ODict [("id", VInt 7); ("image_id", VInt 0)]; OList [VRef 0]]
             x h' y
        /\ forall r o,
             reachable h' y r -> h' !! r = Some o -> is_mutable o = true ->
             2 <= r
  | None =>
      get_annotation
        {| images := VNone; categories := VNone; annotations := VRef 1;
           info := VNone |}
        7%Z
        [ODict [("id", VInt 7); ("image_id", VInt 0)]; OList [VRef 0]]
      = (Ret VNone,
         [ODict [("id", VInt 7); ("image_id", VInt 0)]; OList [VRef 0]])
  end.
Proof.
  apply (get_annotation_first
           [ODict [("id", VInt 7); ("image_id", VInt 0)]; OList [VRef 0]]
           {| images := VNone; categories := VNone; annotations := VRef 1;
              info := VNone |}
           7%Z [VRef 0]).
  - apply closed_b_spec. reflexivity.
  - exists 1. split; [reflexivity | left; reflexivity].
  - repeat constructor; eexists _, _, _;
      (split; [reflexivity | split; reflexivity]).
Defined.

(** A record without the key "id" that comes before any record with the
    wanted "id" makes [get_image] raise [KeyError]; the heap is left as it
    is. *)
Theorem get_image_key_error (h : heap) (self : Annotation) (image_id : Z)
    (before after : list val) (l : nat) (entries : list (string * val)) :
  sequence_at h (images self) (before ++ VRef l :: after) ->
  Forall (has_id h) before ->
  List.find (id_matches h image_id) before = None ->
  h !! l = Some (ODict entries) ->
  entries_lookup entries "id" = None ->
  get_image self image_id h = (Raise KeyError, h).
Proof.
  intros Hseq Hall Hnone Hl Hkey. unfold get_image, bind.
  rewrite (py_iter_sequence h _ _ Hseq). clear Hseq.
  induction before as [| x before IH].
  - cbn [app first_with_id]. unfold bind, getitem. unfold bind.
    now rewrite (deref_run h l _ Hl), Hkey.
  - apply Forall_cons in Hall as [(lx & ex & w & -> & Hlx & Hw) Hall].
    cbn [List.find id_matches] in Hnone. rewrite Hlx, Hw in Hnone.
    cbn [app first_with_id]. unfold bind at 1. unfold getitem, bind at 1.
    rewrite (deref_run h lx _ Hlx), Hw.
    change (ret w h) with (Ret w, h). cbn beta iota.
    destruct (eq_int w image_id); [discriminate |]. now apply IH.
Qed.

Lemma get_image_key_error_witness :
  get_image
    {| images := VRef 2; categories := VNone; annotations := VNone;
       info := VNone |}
    1%Z
    [ODict [("id", VInt 0)]; ODict [("file_name", VStr "a.png")];
     OList [VRef 0; VRef 1]]
  = (Raise KeyError,
     [ODict [("id", VInt 0)]; ODict [("file_name", VStr "a.png")];
      OList [VRef 0; VRef 1]]).
Proof.
  apply (get_image_key_error
           [ODict [("id", VInt 0)]; ODict [("file_name", VStr "a.png")];
            OList [VRef 0; VRef 1]]
           {| images := VRef 2; categories := VNone; annotations := VNone;
              info := VNone |}
           1%Z [VRef 0] [] 1 [("file_name", VStr "a.png")]).
  - exists 2. split; [reflexivity | left; reflexivity].
  - repeat constructor; eexists _, _, _;
      (split; [reflexivity | split; reflexivity]).
  - reflexivity.
  - reflexivity.
  - reflexivity.
Defined.

(** The constructor keeps the objects it is given: when the four arguments
    are true values and are accepted, the attributes of the instance are the
    arguments themselves (no copy is made) and nothing is allocated. *)
Theorem init_keeps_arguments (today : string) (h : heap) (i c a f : val)
    (self : Annotation) (h' : heap) :
  closed_from 0 h ->
  val_within 0 (length h) i -> val_within 0 (length h) c ->
  val_within 0 (length h) a -> val_within 0 (length h) f ->
  is_true h i = true -> is_true h c = true ->
  is_true h a = true -> is_true h f = true ->
  __init__ today i c a f h = (Ret self, h') ->
  self = {| images := i; categories := c; annotations := a; info := f |}
  /\ h' = h.
Proof.
  intros Hc Hi Hcat Ha Hf Ti Tc Ta Tf Hrun.
  destruct (init_run today h i c a f Hc Hi Hcat Ha Hf) as [_ Heq].
  rewrite Hrun in Heq. unfold or_default in Heq.
  rewrite Ti in Heq. cbn [fst snd] in Heq. rewrite Tc in Heq.
  cbn [fst snd] in Heq. rewrite Ta in Heq. cbn [fst snd] in Heq.
  rewrite Tf in Heq. cbn [fst snd] in Heq.
  destruct (accepts_seq h i && accepts_seq h c && accepts_seq h a
            && accepts_map h f); [| discriminate].
  now injection Heq as -> ->.
Qed.

Lemma init_keeps_arguments_witness :
  {| images := VRef 1; categories := VRef 1; annotations := VRef 1;
     info := VRef 0 |}
  = {| images := VRef 1; categories := VRef 1; annotations := VRef 1;
       info := VRef 0 |}
  /\ [ODict [("id", VInt 1)]; OList [VRef 0]]
     = [ODict [("id", VInt 1)]; OList [VRef 0]].
Proof.
  apply (init_keeps_arguments "2021/02/07"
           [ODict [("id", VInt 1)]; OList [VRef 0]]
           (VRef 1) (VRef 1) (VRef 1) (VRef 0)).
  - apply closed_b_spec. reflexivity.
  - apply within_b_spec. reflexivity.
  - apply within_b_spec. reflexivity.
  - apply within_b_spec. reflexivity.
  - apply within_b_spec. reflexivity.
  - reflexivity.
  - reflexivity.
  - reflexivity.
  - reflexivity.
  - reflexivity.
Defined.

(** A false [root] ([None], an empty string) stands for the current
    directory: [to_dict] runs as with ["."]. *)
Theorem to_dict_default_root relative_path (self : Annotation) (root : val)
    (h : heap) :
  val_within 0 (length h) root -> is_true h root = false ->
  to_dict relative_path self root h = to_dict relative_path self (VStr ".") h.
Proof.
  intros Hroot Hfalse. unfold to_dict, bind at 1.
  unfold py_or at 1. unfold bind at 1. rewrite (truthy_run h root Hroot).
  rewrite Hfalse. unfold bind at 5. reflexivity.
Qed.

Lemma to_dict_default_root_witness :
  to_dict keep_path shared_self VNone shared_heap
  = to_dict keep_path shared_self (VStr ".") shared_heap.
Proof.
  apply (to_dict_default_root keep_path shared_self VNone shared_heap).
  - apply within_b_spec. reflexivity.
  - reflexivity.
Defined.

(** *** Building the records: [build_categories], [make_categories],
    [build_images], [make_images] *)

(** [for k, x in enumerate(xs): body(k, x)], counting from [start]. *)
Fixpoint for_enum {A} (start : Z) (xs : list A) (body : Z -> A -> M unit)
  : M unit :=
  match xs with
  | [] => ret tt
  | x :: xs => body start x;; for_enum (start + 1) xs body
  end.

(** A category as the builders read it: [str(category.name)],
    [list(category.color)] and [str(category.filename)]. The categories are
    resolved by [get_categories], outside of the modelled files: the
    builders below take its result. *)
Record Category : Type := {
  name : string;
  color : list Z;
  filename : string
}.

(** The dict displays of [build_categories] and of [make_categories]:
    the same entries, in two orders. [list(category.color)] makes a new
    list. *)
Definition build_category_record (category_id : Z) (category : Category)
  : M val :=
  let* rgb := alloc (OList (map VInt (color category))) in
  alloc (ODict [("id", VInt category_id);
                ("name", VStr (name category));
                ("color", rgb);
                ("file_name", VStr (filename category));
                ("supercategory", VStr (name category))]).

Definition make_category_record (category_id : Z) (category : Category)
  : M val :=
  let* rgb := alloc (OList (map VInt (color category))) in
  alloc (ODict [("id", VInt category_id);
                ("name", VStr (name category));
                ("supercategory", VStr (name category));
                ("color", rgb);
                ("file_name", VStr (filename category))]).

Definition build_categories (categories : list Category) : M val :=
  let* info_categories := alloc (OList []) in
  for_enum 0 categories (fun category_id category =>
    let* record := build_category_record category_id category in
    list_append info_categories record);;
  ret info_categories.

Definition make_categories (categories : list Category) : M val :=
  let* info_categories := alloc (OList []) in
  for_enum 0 categories (fun category_id category =>
    let* record := make_category_record category_id category in
    list_append info_categories record);;
  ret info_categories.

Section Images.

(** [Image.open(image_path).size]: the width and height of the image file,
    or the exception raised on opening it. The paths are resolved by
    [get_paths], outside of the modelled files. *)
Variable image_size : string -> exn + (Z * Z).

Definition image_record (image_id : Z) (image_path : string) : M val :=
  match image_size image_path with
  | inl e => raise e
  | inr (width, height) =>
      alloc (ODict [("id", VInt image_id);
                    ("width", VInt width);
                    ("height", VInt height);
                    ("file_name", VStr image_path)])
  end.

Definition build_images (images_paths : list string) : M val :=
  let* info_images := alloc (OList []) in
  for_enum 0 images_paths (fun image_id image_path =>
    let* record := image_record image_id image_path in
    list_append info_images record);;
  ret info_images.

Definition make_images (images_paths : list string) : M val :=
  build_images images_paths.

End Images.

(** The items of [enumerate]. *)
Fixpoint enum_from {A} (start : Z) (xs : list A) : list (Z * A) :=
  match xs with
  | [] => []
  | x :: xs => (start, x) :: enum_from (start + 1) xs
  end.

Section Collect.

(** A loop that appends to the list made first, at the first new
    reference, one record per item. [make] builds the record, [good] is
    what it needs of the item, [built] what it builds. *)
Context {A : Type}.
Variable h : heap.
Variable make : Z -> A -> M val.
Variable good : A -> Prop.
Variable built : Z -> A -> heap -> val -> Prop.

Hypothesis make_spec :
  forall k x (hc : heap),
    good x -> extends h hc -> closed_from 0 hc -> length h < length hc ->
    wp (make k x) hc
       (fun y h1 =>
          extends hc h1 /\ closed_from 0 h1
          /\ val_within (S (length h)) (length h1) y
          /\ built k x h1 y)
       (fun _ _ => False).

Hypothesis built_stable :
  forall k x (h1 h2 : heap) y,
    built k x h1 y -> keeps_copies h h1 h2 -> built k x h2 y.

Definition collect_round (k : Z) (x : A) : M unit :=
  let* record := make k x in list_append (VRef (length h)) record.

Lemma built_all_stable (h1 h2 : heap) (kxs : list (Z * A)) (ys : list val) :
  keeps_copies h h1 h2 ->
  Forall2 (fun kx y => built kx.1 kx.2 h1 y) kxs ys ->
  Forall2 (fun kx y => built kx.1 kx.2 h2 y) kxs ys.
Proof.
  intros Hk Hall. induction Hall; constructor; eauto.
Qed.

Lemma collect_loop (xs : list A) :
  forall k (hc : heap) ys,
    Forall good xs -> extends h hc -> closed_from 0 hc ->
    hc !! length h = Some (OList ys) ->
    wp (for_enum k xs collect_round) hc
       (fun _ h' =>
          exists ys',
            extends h h' /\ closed_from 0 h'
            /\ h' !! length h = Some (OList (ys ++ ys'))
            /\ keeps_copies h hc h'
            /\ Forall2 (fun kx y => built kx.1 kx.2 h' y)
                 (enum_from k xs) ys')
       (fun _ _ => False).
Proof.
  induction xs as [| x xs IH]; intros k hc ys Hgood Hext Hc Hlab.
  - exists []. rewrite app_nil_r. split; [done |]. split; [done |].
    split; [done |]. split; [split; [lia | done] | constructor].
  - apply Forall_cons in Hgood as [Hx Hgood].
    assert (Hlen : length h < length hc) by now apply lookup_lt_Some in Hlab.
    cbn [for_enum enum_from]. apply wp_bind.
    unfold collect_round at 1. apply wp_bind.
    eapply wp_mono; [apply (make_spec k x hc Hx Hext Hc Hlen) | | done].
    intros y h1 (He1 & Hc1 & Hy & Hb).
    assert (Hlab1 : h1 !! length h = Some (OList ys))
      by (eapply extends_lookup; eauto).
    assert (Hl1 : length hc <= length h1) by apply He1.
    unfold list_append. apply wp_bind.
    eapply wp_deref; [exact Hlab1 |]. cbn beta iota.
    apply wp_store; [lia |].
    set (h2 := <[length h := OList (ys ++ [y])]> h1).
    assert (He2 : extends h h2).
    { apply extends_insert; [eapply extends_trans; eauto | lia]. }
    assert (Hc2 : closed_from 0 h2).
    { intros l' o' r _ Ho' Hr. unfold h2 in *. rewrite length_insert.
      split; [lia |].
      destruct (decide (l' = length h)) as [-> | Hne].
      - rewrite list_lookup_insert_eq in Ho' by lia.
        inversion Ho'; subst o'. apply obj_refs_spec in Hr. cbn in Hr.
        apply elem_of_app in Hr as [Hr | Hr].
        + assert (Hin : r ∈ obj_refs (OList ys))
            by now apply obj_refs_spec.
          destruct (Hc1 _ _ r (Nat.le_0_l _) Hlab1 Hin). lia.
        + apply list_elem_of_singleton in Hr. subst y.
          apply val_within_ref in Hy. lia.
      - rewrite list_lookup_insert_ne in Ho' by done.
        apply (Hc1 l' o' r (Nat.le_0_l l') Ho' Hr). }
    assert (Hlab2 : h2 !! length h = Some (OList (ys ++ [y])))
      by (apply list_lookup_insert_eq; lia).
    assert (Hk12 : keeps_copies h h1 h2).
    { split; [unfold h2; rewrite length_insert; lia |].
      intros l' Hl' Hne. unfold h2. now rewrite list_lookup_insert_ne. }
    eapply wp_mono; [apply (IH (k + 1)%Z h2 (ys ++ [y]) Hgood He2 Hc2 Hlab2)
                    | | done].
    intros u h3 (ys3 & He3 & Hc3 & Hlab3 & Hk3 & Hall3).
    exists (y :: ys3). rewrite <- app_assoc in Hlab3.
    split; [done |]. split; [done |]. split; [done |]. split.
    + eapply keeps_copies_trans; [| exact Hk3].
      split; [unfold h2; rewrite length_insert; lia |].
      intros l' Hl' Hne. unfold h2. rewrite list_lookup_insert_ne by done.
      apply He1. done.
    + constructor; [| done]. cbn.
      eapply built_stable; [| exact Hk3].
      eapply built_stable; [exact Hb | exact Hk12].
Qed.

End Collect.

(** What a category record is, whatever the order of its keys: a new dict
    with exactly the five keys, whose "color" is a new list of the
    channels. *)
Definition is_category_record (h h' : heap) (k : Z) (category : Category)
    (y : val) : Prop :=
  exists ly lc entries,
    y = VRef ly /\ length h < ly /\ length h < lc
    /\ h' !! ly = Some (ODict entries)
    /\ h' !! lc = Some (OList (map VInt (color category)))
    /\ length entries = 5
    /\ entries_lookup entries "id" = Some (VInt k)
    /\ entries_lookup entries "name" = Some (VStr (name category))
    /\ entries_lookup entries "supercategory" = Some (VStr (name category))
    /\ entries_lookup entries "color" = Some (VRef lc)
    /\ entries_lookup entries "file_name" = Some (VStr (filename category)).

Lemma is_category_record_stable (h h1 h2 : heap) (k : Z) (c : Category)
    (y : val) :
  is_category_record h h1 k c y -> keeps_copies h h1 h2 ->
  is_category_record h h2 k c y.
Proof.
  intros (ly & lc & entries & -> & Hly & Hlc & Hd & Hl & Hrest) [_ Hsame].
  exists ly, lc, entries. split; [done |]. split; [done |]. split; [done |].
  split; [| split; [| done]].
  - rewrite Hsame; [done | now apply lookup_lt_Some in Hd | lia].
  - rewrite Hsame; [done | now apply lookup_lt_Some in Hl | lia].
Qed.

Lemma closed_from_app_within (h : heap) (o : obj) :
  closed_from 0 h -> (forall r, r ∈ obj_refs o -> r < length h) ->
  closed_from 0 (h ++ [o]).
Proof.
  intros Hc Ho l o' r _ Hl Hr. rewrite length_app. cbn. split; [lia |].
  destruct (decide (l < length h)) as [Hlt | Hge].
  - rewrite lookup_app_l in Hl by done.
    destruct (Hc l o' r (Nat.le_0_l l) Hl Hr). lia.
  - rewrite lookup_app_r in Hl by lia.
    destruct (l - length h) as [| k]; [| done].
    cbn in Hl. inversion Hl; subst. specialize (Ho r Hr). lia.
Qed.

Lemma obj_refs_ints (ns : list Z) : obj_refs (OList (map VInt ns)) = [].
Proof.
  unfold obj_refs. cbn. induction ns as [| n ns IH]; [done |]. cbn. exact IH.
Qed.

(** The two dict displays build a category record. *)
Lemma category_record_spec (h : heap)
    (display : Z -> Category -> M val) :
  display = build_category_record \/ display = make_category_record ->
  forall k c (hc : heap),
    True -> extends h hc -> closed_from 0 hc -> length h < length hc ->
    wp (display k c) hc
       (fun y h1 =>
          extends hc h1 /\ closed_from 0 h1
          /\ val_within (S (length h)) (length h1) y
          /\ is_category_record h h1 k c y)
       (fun _ _ => False).
Proof.
  intros Hd k c hc _ Hext Hc Hlen.
  assert (Hc1 : closed_from 0 (hc ++ [OList (map VInt (color c))])).
  { apply closed_from_app; [done | apply obj_refs_ints]. }
  assert (Hrefs : forall entries,
            (forall r, r ∈ obj_refs (ODict entries) -> r = length hc) ->
            closed_from 0 ((hc ++ [OList (map VInt (color c))])
                             ++ [ODict entries])).
  { intros entries Hr. apply closed_from_app_within; [done |].
    intros r Hin. rewrite (Hr r Hin), length_app. cbn. lia. }
  assert (Hshape : forall entries,
            (forall r, r ∈ obj_refs (ODict entries) -> r = length hc) ->
            length entries = 5 ->
            entries_lookup entries "id" = Some (VInt k) ->
            entries_lookup entries "name" = Some (VStr (name c)) ->
            entries_lookup entries "supercategory" = Some (VStr (name c)) ->
            entries_lookup entries "color" = Some (VRef (length hc)) ->
            entries_lookup entries "file_name" = Some (VStr (filename c)) ->
            let h1 := (hc ++ [OList (map VInt (color c))])
                        ++ [ODict entries] in
            extends hc h1 /\ closed_from 0 h1
            /\ val_within (S (length h)) (length h1)
                 (VRef (length (hc ++ [OList (map VInt (color c))])))
            /\ is_category_record h h1 k c
                 (VRef (length (hc ++ [OList (map VInt (color c))])))).
  { intros entries Hr H5 Hid Hname Hsuper Hcolor Hfile h1.
    split; [eapply extends_trans; apply extends_app |].
    split; [now apply Hrefs |].
    split.
    - apply val_within_ref. unfold h1. rewrite !length_app. cbn. lia.
    - exists (length (hc ++ [OList (map VInt (color c))])), (length hc),
        entries.
      split; [done |]. split; [rewrite length_app; cbn; lia |].
      split; [lia |]. split; [now apply list_lookup_middle |].
      split.
      + unfold h1. rewrite lookup_app_l by (rewrite length_app; cbn; lia).
        now apply list_lookup_middle.
      + done. }
  destruct Hd as [-> | ->]; unfold wp, build_category_record,
    make_category_record, bind, alloc; cbn beta iota.
  - apply Hshape; try reflexivity.
    intros r Hr. unfold obj_refs in Hr. cbn in Hr.
    apply list_elem_of_singleton in Hr. done.
  - apply Hshape; try reflexivity.
    intros r Hr. unfold obj_refs in Hr. cbn in Hr.
    apply list_elem_of_singleton in Hr. done.
Qed.

(** A list of new dicts passes the test of the constructor. *)
Lemma records_are_maps (h' : heap) (ys : list val) :
  Forall (fun y => exists ly entries,
                     y = VRef ly /\ h' !! ly = Some (ODict entries)) ys ->
  forallb (is_map h') ys = true.
Proof.
  induction 1 as [| y ys (ly & entries & -> & Hly) _ IH]; [done |].
  cbn. now rewrite Hly, IH.
Qed.

(** The run of one of the two category builders. *)
Lemma categories_run (h : heap) (display : Z -> Category -> M val)
    (categories : list Category) :
  display = build_category_record \/ display = make_category_record ->
  closed_from 0 h ->
  exists h' ys,
    (let* info_categories := alloc (OList []) in
     for_enum 0 categories (fun category_id category =>
       let* record := display category_id category in
       list_append info_categories record);;
     ret info_categories) h
    = (Ret (VRef (length h)), h')
    /\ extends h h'
    /\ closed_from 0 h'
    /\ h' !! length h = Some (OList ys)
    /\ Forall2 (fun kx y => is_category_record h h' kx.1 kx.2 y)
         (enum_from 0 categories) ys.
Proof.
  intros Hd Hc.
  pose proof (collect_loop h display (fun _ => True)
                (fun k c h' y => is_category_record h h' k c y)
                (category_record_spec h display Hd)
                (fun k x h1 h2 y => is_category_record_stable h h1 h2 k x y)
                categories 0%Z (h ++ [OList []]) []) as Hloop.
  assert (Hgood : Forall (fun _ : Category => True) categories)
    by (apply Forall_forall; done).
  specialize (Hloop Hgood (extends_app h _)
                (closed_from_app h (OList []) Hc eq_refl)
                (list_lookup_middle h [] (OList []) _ eq_refl)).
  apply wp_run in Hloop as (out & h' & Hrun & Hout).
  destruct out as [u | e |]; [| done | done].
  destruct Hout as (ys & Hext & Hc' & Hlab & _ & Hall).
  exists h', ys. split; [| done].
  unfold bind at 1. unfold alloc at 1. cbn beta iota.
  unfold bind at 1. unfold collect_round in Hrun. now rewrite Hrun.
Qed.

(** What a category builder returns, run in [h] on [categories]: a new
    list of new records, one per category and in their order, numbered from
    0; the list is one the constructor accepts. *)
Definition returns_category_records (run : outcome val * list obj)
    (h : heap) (categories : list Category) : Prop :=
  exists h' ys,
    run = (Ret (VRef (length h)), h')
    /\ extends h h'
    /\ h' !! length h = Some (OList ys)
    /\ is_seq_of_maps h' (VRef (length h)) = true
    /\ Forall2 (fun kx y => is_category_record h h' kx.1 kx.2 y)
         (enum_from 0 categories) ys.

Lemma categories_run_records (h : heap) (display : Z -> Category -> M val)
    (categories : list Category) :
  display = build_category_record \/ display = make_category_record ->
  closed_from 0 h ->
  returns_category_records
    ((let* info_categories := alloc (OList []) in
      for_enum 0 categories (fun category_id category =>
        let* record := display category_id category in
        list_append info_categories record);;
      ret info_categories) h)
    h categories.
Proof.
  intros Hd Hc.
  destruct (categories_run h display categories Hd Hc)
    as (h' & ys & Hrun & Hext & _ & Hlab & Hall).
  exists h', ys. split; [done |]. split; [done |]. split; [done |].
  split; [| done].
  cbn. rewrite Hlab. apply records_are_maps.
  clear - Hall. induction Hall as [| kx y kxs ys Hy _ IH]; constructor;
    [| done].
  destruct Hy as (ly & lc & entries & -> & _ & _ & Hd & _). eauto.
Qed.

(** In a heap where no reference dangles, [build_categories] and
    [make_categories] raise nothing and return the same records, up to the
    order of the keys: a new list with one new record per category, in the
    order of the categories, whose "id" is the position counted from 0,
    whose "name" and "supercategory" are the name of the category, whose
    "color" is a new list of the channels and whose "file_name" is the file
    name; the objects of the heap are unchanged. *)
Theorem categories_records (h : heap) (categories : list Category) :
  closed_from 0 h ->
  returns_category_records (build_categories categories h) h categories
  /\ returns_category_records (make_categories categories h) h categories.
Proof.
  intros Hc. split.
  - apply (categories_run_records h build_category_record categories);
      [now left | done].
  - apply (categories_run_records h make_category_record categories);
      [now right | done].
Qed.

Lemma categories_records_witness :
  returns_category_records
    (build_categories
       [{| name := "road"; color := [255; 0; 0]%Z; filename := "road.json" |};
        {| name := "tree"; color := [0; 255; 0]%Z; filename := "tree.json" |}]
       [])
    []
    [{| name := "road"; color := [255; 0; 0]%Z; filename := "road.json" |};
     {| name := "tree"; color := [0; 255; 0]%Z; filename := "tree.json" |}]
  /\ returns_category_records
       (make_categories
          [{| name := "road"; color := [255; 0; 0]%Z;
              filename := "road.json" |};
           {| name := "tree"; color := [0; 255; 0]%Z;
              filename := "tree.json" |}]
          [])
       []
       [{| name := "road"; color := [255; 0; 0]%Z; filename := "road.json" |};
        {| name := "tree"; color := [0; 255; 0]%Z; filename := "tree.json" |}].
Proof.
  apply (categories_records []
           [{| name := "road"; color := [255; 0; 0]%Z;
               filename := "road.json" |};
            {| name := "tree"; color := [0; 255; 0]%Z;
               filename := "tree.json" |}]).
  apply closed_b_spec. reflexivity.
Defined.

(** The heap [build_categories] leaves for two categories. *)
Example build_categories_two :
  build_categories
    [{| name := "road"; color := [255; 0; 0]%Z; filename := "road.json" |};
     {| name := "tree"; color := [0; 255; 0]%Z; filename := "tree.json" |}]
    []
  = (Ret (VRef 0),
     [OList [VRef 2; VRef 4];
      OList [VInt 255; VInt 0; VInt 0];
      ODict [("id", VInt 0); ("name", VStr "road"); ("color", VRef 1);
             ("file_name", VStr "road.json");
             ("supercategory", VStr "road")];
      OList [VInt 0; VInt 255; VInt 0];
      ODict [("id", VInt 1); ("name", VStr "tree"); ("color", VRef 3);
             ("file_name", VStr "tree.json");
             ("supercategory", VStr "tree")]]).
Proof. reflexivity. Qed.

Lemma for_enum_app {A} (xs ys : list A) (body : Z -> A -> M unit) :
  forall k (h : heap),
    for_enum k (xs ++ ys) body h
    = (for_enum k xs body;;
       for_enum (k + Z.of_nat (length xs)) ys body) h.
Proof.
  induction xs as [| x xs IH]; intros k h.
  - cbn. unfold bind. cbn. now rewrite Z.add_0_r.
  - cbn [app for_enum length]. unfold bind.
    destruct (body k x h) as [[u | e |] h1]; [| done | done].
    rewrite IH. unfold bind.
    replace (k + 1 + Z.of_nat (length xs))%Z
      with (k + Z.of_nat (S (length xs)))%Z by lia.
    reflexivity.
Qed.

Section ImagesBuilt.

Variable image_size : string -> exn + (Z * Z).

(** The image file can be opened. *)
Definition opens (image_path : string) : Prop :=
  exists size, image_size image_path = inr size.

(** An image record: a new dict with the identifier, the size of the image
    and its path. *)
Definition is_image_record (h h' : heap) (k : Z) (image_path : string)
    (y : val) : Prop :=
  exists ly width height,
    y = VRef ly /\ length h < ly
    /\ image_size image_path = inr (width, height)
    /\ h' !! ly = Some (ODict [("id", VInt k); ("width", VInt width);
                               ("height", VInt height);
                               ("file_name", VStr image_path)]).

Lemma is_image_record_stable (h h1 h2 : heap) (k : Z) (p : string) (y : val) :
  is_image_record h h1 k p y -> keeps_copies h h1 h2 ->
  is_image_record h h2 k p y.
Proof.
  intros (ly & w & hh & -> & Hly & Hsize & Hd) [_ Hsame].
  exists ly, w, hh. split; [done |]. split; [done |]. split; [done |].
  rewrite Hsame; [done | now apply lookup_lt_Some in Hd | lia].
Qed.

Lemma image_record_spec (h : heap) :
  forall k p (hc : heap),
    opens p -> extends h hc -> closed_from 0 hc -> length h < length hc ->
    wp (image_record image_size k p) hc
       (fun y h1 =>
          extends hc h1 /\ closed_from 0 h1
          /\ val_within (S (length h)) (length h1) y
          /\ is_image_record h h1 k p y)
       (fun _ _ => False).
Proof.
  intros k p hc [[w hh] Hsize] Hext Hc Hlen.
  unfold wp, image_record. rewrite Hsize. unfold alloc.
  split; [apply extends_app |].
  split; [now apply closed_from_app |].
  split; [apply val_within_ref; rewrite length_app; cbn; lia |].
  exists (length hc), w, hh. split; [done |]. split; [done |].
  split; [done |]. now apply list_lookup_middle.
Qed.

Lemma images_loop (h : heap) (paths : list string) :
  closed_from 0 h -> Forall opens paths ->
  exists h' ys,
    for_enum 0 paths (collect_round h (image_record image_size))
      (h ++ [OList []])
    = (Ret tt, h')
    /\ extends h h'
    /\ closed_from 0 h'
    /\ h' !! length h = Some (OList ys)
    /\ Forall2 (fun kx y => is_image_record h h' kx.1 kx.2 y)
         (enum_from 0 paths) ys.
Proof.
  intros Hc Hopen.
  pose proof (collect_loop h (image_record image_size) opens
                (fun k p h' y => is_image_record h h' k p y)
                (image_record_spec h)
                (fun k x h1 h2 y => is_image_record_stable h h1 h2 k x y)
                paths 0%Z (h ++ [OList []]) [] Hopen (extends_app h _)
                (closed_from_app h (OList []) Hc eq_refl)
                (list_lookup_middle h [] (OList []) _ eq_refl)) as Hloop.
  apply wp_run in Hloop as (out & h' & Hrun & Hout).
  destruct out as [[] | e |]; [| done | done].
  destruct Hout as (ys & Hext & Hc' & Hlab & _ & Hall).
  now exists h', ys.
Qed.

(** When every image file can be opened (in a heap where no reference
    dangles), [build_images] returns a new list with one new record per
    path, in the order of the paths: its "id" is the position counted from
    0, its "width" and "height" are the size of the image and its
    "file_name" is the path. The list is one the constructor accepts, and
    the objects of the heap are unchanged. *)
Theorem build_images_records (h : heap) (paths : list string) :
  closed_from 0 h -> Forall opens paths ->
  exists h' ys,
    build_images image_size paths h = (Ret (VRef (length h)), h')
    /\ extends h h'
    /\ h' !! length h = Some (OList ys)
    /\ is_seq_of_maps h' (VRef (length h)) = true
    /\ Forall2 (fun kx y => is_image_record h h' kx.1 kx.2 y)
         (enum_from 0 paths) ys.
Proof.
  intros Hc Hopen.
  destruct (images_loop h paths Hc Hopen)
    as (h' & ys & Hrun & Hext & _ & Hlab & Hall).
  exists h', ys. split; [| split; [done |]; split; [done |]; split;
                           [| done]].
  - unfold build_images. unfold bind at 1. unfold alloc at 1.
    cbn beta iota. unfold bind at 1. unfold collect_round in Hrun.
    now rewrite Hrun.
  - cbn. rewrite Hlab. apply records_are_maps.
    clear - Hall. induction Hall as [| kx y kxs ys Hy _ IH]; constructor;
      [| done].
    destruct Hy as (ly & w & hh & -> & _ & _ & Hd). eauto.
Qed.

(** When an image file cannot be opened, and those before it can,
    [build_images] raises the exception of the opening and returns no
    record; the objects of the heap are unchanged. *)
Theorem build_images_error (h : heap) (before after : list string)
    (image_path : string) (e : exn) :
  closed_from 0 h -> Forall opens before ->
  image_size image_path = inl e ->
  exists h',
    build_images image_size (before ++ image_path :: after) h
    = (Raise e, h')
    /\ extends h h'.
Proof.
  intros Hc Hopen Hfail.
  destruct (images_loop h before Hc Hopen)
    as (h' & ys & Hrun & Hext & _ & _ & _).
  exists h'. split; [| done].
  unfold build_images. unfold bind at 1. unfold alloc at 1. cbn beta iota.
  unfold bind at 1.
  change (for_enum 0 (before ++ image_path :: after) _ (h ++ [OList []]))
    with (for_enum 0 (before ++ image_path :: after)
            (collect_round h (image_record image_size)) (h ++ [OList []])).
  rewrite for_enum_app. unfold bind at 1. rewrite Hrun.
  cbn [for_enum]. unfold bind at 1. unfold collect_round at 1.
  unfold bind at 1. unfold image_record at 1. now rewrite Hfail.
Qed.

End ImagesBuilt.

(** A stand-in for the sizes of the image files in the examples: every
    file but "missing.png" is an image of 256 by 256 pixels. *)
Definition demo_size (image_path : string) : exn + (Z * Z) :=
  if String.eqb image_path "missing.png" then inl ValueError
  else inr (256, 256)%Z.

Lemma build_images_records_witness :
  exists h' ys,
    build_images demo_size ["a.png"; "b.png"] [] = (Ret (VRef 0), h')
    /\ extends [] h'
    /\ h' !! 0 = Some (OList ys)
    /\ is_seq_of_maps h' (VRef 0) = true
    /\ Forall2 (fun kx y => is_image_record demo_size [] h' kx.1 kx.2 y)
         (enum_from 0 ["a.png"; "b.png"]) ys.
Proof.
  apply (build_images_records demo_size [] ["a.png"; "b.png"]).
  - apply closed_b_spec. reflexivity.
  - repeat constructor; eexists; reflexivity.
Defined.

Lemma build_images_error_witness :
  exists h',
    build_images demo_size (["a.png"] ++ "missing.png" :: ["b.png"]) []
    = (Raise ValueError, h')
    /\ extends [] h'.
Proof.
  apply (build_images_error demo_size [] ["a.png"] ["b.png"] "missing.png").
  - apply closed_b_spec. reflexivity.
  - repeat constructor; eexists; reflexivity.
  - reflexivity.
Defined.

(** *** Reading a copy *)

Lemma copy_of_atom (h h' : heap) (v v' : val) :
  copy_of h v h' v' -> val_refs v = [] -> v' = v.
Proof.
  intros Hcopy Hv. specialize (Hcopy 0).
  destruct v as [| | | | l]; [| | | | discriminate];
    destruct v' as [| | | | l']; cbn in Hcopy; congruence.
Qed.

Lemma map_eq_Forall2 {A B C} (f : A -> C) (g : B -> C) (xs : list A)
    (ys : list B) :
  map f xs = map g ys -> Forall2 (fun x y => f x = g y) xs ys.
Proof.
  revert ys. induction xs as [| x xs IH]; intros [| y ys] Heq;
    try discriminate; constructor.
  - now injection Heq.
  - apply IH. now injection Heq.
Qed.

(** The copy of a container is a container of the same kind (for a dict,
    with the same keys in the same order) whose values are copies of the
    values. *)
Lemma copy_of_ref (h h' : heap) (l : nat) (o : obj) (y : val) :
  copy_of h (VRef l) h' y -> h !! l = Some o ->
  exists l' o',
    y = VRef l' /\ h' !! l' = Some o' /\ kind_of o' = kind_of o
    /\ Forall2 (fun v v' => copy_of h v h' v') (obj_vals o) (obj_vals o').
Proof.
  intros Hcopy Ho. pose proof (Hcopy 1) as H1. cbn in H1. rewrite Ho in H1.
  destruct y as [| | | | l']; try discriminate.
  cbn in H1. destruct (h' !! l') as [o' |] eqn:Ho'; [| discriminate].
  exists l', o'. split; [done |]. split; [done |].
  split; [now injection H1 |].
  assert (Hlen : length (obj_vals o') = length (obj_vals o)).
  { injection H1 as _ Hmap. apply (f_equal length) in Hmap.
    rewrite !length_map in Hmap. done. }
  apply Forall2_same_length_lookup_2; [done |].
  intros i v v' Hv Hv' depth.
  specialize (Hcopy (S depth)). cbn in Hcopy. rewrite Ho, Ho' in Hcopy.
  injection Hcopy as _ Hmap.
  apply (f_equal (fun ts => ts !! i)) in Hmap.
  rewrite !list_lookup_fmap, Hv, Hv' in Hmap. cbn in Hmap. congruence.
Qed.

Lemma entries_lookup_related (R : val -> val -> Prop)
    (entries entries' : list (string * val)) (key : string) (v : val) :
  map fst entries' = map fst entries ->
  Forall2 R (map snd entries) (map snd entries') ->
  entries_lookup entries key = Some v ->
  exists v', entries_lookup entries' key = Some v' /\ R v v'.
Proof.
  revert entries'. induction entries as [| [k w] entries IH];
    intros [| [k' w'] entries'] Hkeys Hvals Hlook; try discriminate.
  cbn in Hkeys, Hvals, Hlook |- *. injection Hkeys as -> Hkeys.
  apply Forall2_cons in Hvals as [Hw Hvals].
  destruct (String.eqb k key).
  - injection Hlook as <-. eauto.
  - eauto.
Qed.

(** The copy of a dict: a dict with the same keys, in the same order,
    whose values are copies. *)
Lemma copy_of_dict (h h' : heap) (l : nat) (entries : list (string * val))
    (y : val) :
  copy_of h (VRef l) h' y -> h !! l = Some (ODict entries) ->
  exists l' entries',
    y = VRef l' /\ h' !! l' = Some (ODict entries')
    /\ map fst entries' = map fst entries
    /\ Forall2 (fun v v' => copy_of h v h' v')
         (map snd entries) (map snd entries').
Proof.
  intros Hcopy Hl.
  destruct (copy_of_ref h h' l _ y Hcopy Hl)
    as (l' & o' & -> & Hl' & Hkind & Hvals).
  destruct o' as [items | items | entries']; try discriminate.
  exists l', entries'. split; [done |]. split; [done |].
  split; [now injection Hkind | done].
Qed.

(** The copy of a list of integers is a list of the same integers. *)
Lemma copy_of_ints (h h' : heap) (l : nat) (ns : list Z) (y : val) :
  copy_of h (VRef l) h' y -> h !! l = Some (OList (map VInt ns)) ->
  exists l', y = VRef l' /\ h' !! l' = Some (OList (map VInt ns)).
Proof.
  intros Hcopy Hl.
  destruct (copy_of_ref h h' l _ y Hcopy Hl)
    as (l' & o' & -> & Hl' & Hkind & Hvals).
  destruct o' as [items | items | entries']; try discriminate.
  exists l'. split; [done |]. rewrite Hl'. do 2 f_equal.
  cbn in Hvals. clear - Hvals. revert items Hvals.
  induction ns as [| n ns IH]; intros items Hvals.
  - now inversion Hvals.
  - cbn in Hvals. destruct items as [| v items]; [inversion Hvals |].
    apply Forall2_cons in Hvals as [Hv Hvals].
    cbn. rewrite (copy_of_atom _ _ _ _ Hv eq_refl). f_equal. now apply IH.
Qed.

(** *** Looking up what was built *)

Lemma enum_from_lookup {A} (xs : list A) :
  forall (start : Z) (n : nat),
    enum_from start xs !! n
    = (fun x => ((start + Z.of_nat n)%Z, x)) <$> xs !! n.
Proof.
  induction xs as [| x xs IH]; intros start n; [done |].
  destruct n as [| n]; cbn.
  - now rewrite Z.add_0_r.
  - rewrite IH. destruct (xs !! n); cbn; [| done].
    do 2 f_equal. lia.
Qed.

(** In a list of records numbered from [start], the first record with a
    given "id" is the one at that position. *)
Lemma find_numbered {A} (h' : heap) (xs : list A) :
  forall (start : Z) (ys : list val) (k : Z),
    Forall2 (fun kx y =>
               exists ly entries,
                 y = VRef ly /\ h' !! ly = Some (ODict entries)
                 /\ entries_lookup entries "id" = Some (VInt kx.1))
      (enum_from start xs) ys ->
    List.find (id_matches h' k) ys
    = if (start <=? k)%Z then ys !! Z.to_nat (k - start) else None.
Proof.
  induction xs as [| x xs IH]; intros start ys k Hall.
  - inversion Hall; subst. cbn. now destruct (start <=? k)%Z.
  - cbn in Hall. destruct ys as [| y ys]; [inversion Hall |].
    apply Forall2_cons in Hall as [(ly & entries & -> & Hly & Hid) Hall].
    cbn [List.find id_matches]. rewrite Hly, Hid. cbn [eq_int fst].
    destruct (Z.eqb_spec start k) as [-> | Hne].
    + rewrite Z.leb_refl, Z.sub_diag. reflexivity.
    + rewrite (IH (start + 1)%Z ys k Hall).
      destruct (Z.leb_spec start k) as [Hle | Hgt].
      * destruct (Z.leb_spec (start + 1) k) as [Hle' | Hgt']; [| lia].
        replace (Z.to_nat (k - start))
          with (S (Z.to_nat (k - (start + 1)))) by lia.
        reflexivity.
      * destruct (Z.leb_spec (start + 1) k) as [Hle' | Hgt']; [lia | done].
Qed.

(** The fields of a category record. *)
Definition has_category_fields (h' : heap) (k : Z) (category : Category)
    (y : val) : Prop :=
  exists ly lc entries,
    y = VRef ly
    /\ h' !! ly = Some (ODict entries)
    /\ h' !! lc = Some (OList (map VInt (color category)))
    /\ length entries = 5
    /\ entries_lookup entries "id" = Some (VInt k)
    /\ entries_lookup entries "name" = Some (VStr (name category))
    /\ entries_lookup entries "supercategory" = Some (VStr (name category))
    /\ entries_lookup entries "color" = Some (VRef lc)
    /\ entries_lookup entries "file_name" = Some (VStr (filename category)).

Lemma copy_has_category_fields (h h' h'' : heap) (k : Z) (c : Category)
    (x y : val) :
  is_category_record h h' k c x -> copy_of h' x h'' y ->
  has_category_fields h'' k c y.
Proof.
  intros (lx & lc & entries & -> & _ & _ & Hlx & Hlc & H5 & Hid & Hname
          & Hsuper & Hcolor & Hfile) Hcopy.
  destruct (copy_of_dict h' h'' lx entries y Hcopy Hlx)
    as (ly & entries' & -> & Hly & Hkeys & Hvals).
  destruct (entries_lookup_related _ _ _ _ _ Hkeys Hvals Hid)
    as (v1 & Hid' & Hc1).
  destruct (entries_lookup_related _ _ _ _ _ Hkeys Hvals Hname)
    as (v2 & Hname' & Hc2).
  destruct (entries_lookup_related _ _ _ _ _ Hkeys Hvals Hsuper)
    as (v3 & Hsuper' & Hc3).
  destruct (entries_lookup_related _ _ _ _ _ Hkeys Hvals Hcolor)
    as (v4 & Hcolor' & Hc4).
  destruct (entries_lookup_related _ _ _ _ _ Hkeys Hvals Hfile)
    as (v5 & Hfile' & Hc5).
  apply copy_of_atom in Hc1; [| done]. apply copy_of_atom in Hc2; [| done].
  apply copy_of_atom in Hc3; [| done]. apply copy_of_atom in Hc5; [| done].
  subst v1 v2 v3 v5.
  destruct (copy_of_ints h' h'' lc _ v4 Hc4 Hlc) as (lc' & -> & Hlc').
  exists ly, lc', entries'. split; [done |]. split; [done |].
  split; [done |]. split; [| done].
  rewrite <- H5, <- (length_map fst entries'), Hkeys. apply length_map.
Qed.

(** After [build_categories], on an instance whose [categories] is the
    list built, [get_category(k)] returns for every position [k] of a
    category a new record with the identifier [k] and the name, channels
    and file name of that category; for any other [k] it returns [None]. *)
Theorem get_category_of_built (h : heap) (categories0 : list Category)
    (self : Annotation) (h' : heap) (k : Z) :
  closed_from 0 h ->
  build_categories categories0 h = (Ret (categories self), h') ->
  match (if (0 <=? k)%Z then categories0 !! Z.to_nat k else None) with
  | Some category =>
      exists y h'',
        get_category self k h' = (Ret y, h'')
        /\ extends h' h''
        /\ has_category_fields h'' k category y
        /\ forall r, reachable h'' y r -> length h' <= r
  | None => get_category self k h' = (Ret VNone, h')
  end.
Proof.
  intros Hc Hbuild.
  destruct (categories_run h build_category_record categories0
              (or_introl eq_refl) Hc)
    as (h1 & ys & Hrun & Hext & Hc' & Hlab & Hall).
  fold (build_categories categories0) in Hrun.
  rewrite Hrun in Hbuild. injection Hbuild as Hself <-.
  assert (Hids : Forall2 (fun kx y =>
                   exists ly entries,
                     y = VRef ly /\ h1 !! ly = Some (ODict entries)
                     /\ entries_lookup entries "id" = Some (VInt kx.1))
                   (enum_from 0 categories0) ys).
  { eapply Forall2_impl; [exact Hall |].
    intros kx y (ly & lc & entries & -> & _ & _ & Hd & _ & _ & Hid & _).
    eauto. }
  assert (Hhas : Forall (has_id h1) ys).
  { clear - Hids. induction Hids as [| kx y kxs ys Hy _ IH]; constructor;
      [| done].
    destruct Hy as (ly & entries & -> & Hd & Hid).
    now exists ly, entries, (VInt kx.1). }
  pose proof (first_with_id_copy h1 k ys Hc' Hhas) as Hget.
  rewrite (find_numbered h1 categories0 0%Z ys k Hids) in Hget.
  rewrite Z.sub_0_r in Hget.
  assert (Hseq : py_iter (Annotations.categories self) h1 = (Ret ys, h1)).
  { apply py_iter_sequence. exists (length h). split; [done | now left]. }
  unfold get_category, bind. rewrite Hseq.
  destruct (Z.leb_spec 0 k) as [Hle | Hlt]; [| exact Hget].
  destruct (categories0 !! Z.to_nat k) as [category |] eqn:Hcat.
  - assert (Hk : enum_from 0 categories0 !! Z.to_nat k
                 = Some (Z.of_nat (Z.to_nat k), category)).
    { rewrite enum_from_lookup, Hcat. reflexivity. }
    destruct (Forall2_lookup_l _ _ _ _ _ Hall Hk) as (x & Hx & Hrec).
    rewrite Hx in Hget.
    destruct Hget as (y & h'' & Hrun' & Hext' & Hcopy & Hnew).
    exists y, h''. split; [done |]. split; [done |]. split; [| done].
    cbn [fst snd] in Hrec.
    pose proof (copy_has_category_fields h h1 h'' _ category x y Hrec Hcopy)
      as Hfields.
    destruct Hrec as (lx & _ & ex & -> & _ & _ & Hlx & _ & _ & Hidx & _).
    destruct Hfields as (ly & lc & entries & -> & Hly & Hlc & H5 & Hid
                         & Hrest).
    exists ly, lc, entries. split; [done |]. split; [done |].
    split; [done |]. split; [done |]. split; [| done].
    rewrite Hid. do 2 f_equal. lia.
  - assert (Hnone : ys !! Z.to_nat k = None).
    { apply lookup_ge_None. apply lookup_ge_None in Hcat.
      apply Forall2_length in Hall.
      assert (Hlen : length (enum_from 0 categories0) = length categories0).
      { clear. generalize 0%Z. induction categories0 as [| c cs IH];
          intros s; [done |]. cbn. now rewrite IH. }
      lia. }
    now rewrite Hnone in Hget.
Qed.

(** Two categories, and the heap [build_categories] leaves for them. *)
Definition two_categories : list Category :=
  [{| name := "road"; color := [255; 0; 0]%Z; filename := "road.json" |};
   {| name := "tree"; color := [0; 255; 0]%Z; filename := "tree.json" |}].

Definition two_categories_heap : list obj :=
  [OList [VRef 2; VRef 4];
   OList [VInt 255; VInt 0; VInt 0];
   ODict [("id", VInt 0); ("name", VStr "road"); ("color", VRef 1);
          ("file_name", VStr "road.json"); ("supercategory", VStr "road")];
   OList [VInt 0; VInt 255; VInt 0];
   ODict [("id", VInt 1); ("name", VStr "tree"); ("color", VRef 3);
          ("file_name", VStr "tree.json"); ("supercategory", VStr "tree")]].

Lemma get_category_of_built_witness :
  match (if (0 <=? 1)%Z then two_categories !! Z.to_nat 1 else None) with
  | Some category =>
      exists y h'',
        get_category
          {| images := VNone; categories := VRef 0; annotations := VNone;
             info := VNone |}
          1%Z two_categories_heap
        = (Ret y, h'')
        /\ extends two_categories_heap h''
        /\ has_category_fields h'' 1 category y
        /\ forall r, reachable h'' y r -> length two_categories_heap <= r
  | None =>
      get_category
        {| images := VNone; categories := VRef 0; annotations := VNone;
           info := VNone |}
        1%Z two_categories_heap
      = (Ret VNone, two_categories_heap)
  end.
Proof.
  apply (get_category_of_built [] two_categories
           {| images := VNone; categories := VRef 0; annotations := VNone;
              info := VNone |}
           two_categories_heap 1%Z).
  - apply closed_b_spec. reflexivity.
  - reflexivity.
Defined.

(** *** The records [to_dict] returns *)

(** The memo of [deepcopy] never sends two objects to the same copy: a copy
    is a new object, allocated after all those the memo names. *)
Definition memo_inj (memo : gmap nat nat) : Prop :=
  forall l1 l2 y, memo !! l1 = Some y -> memo !! l2 = Some y -> l1 = l2.

(** The copies the memo names are objects of the heap. *)
Definition memo_below (memo : gmap nat nat) (h : heap) : Prop :=
  forall l y, memo !! l = Some y -> y < length h.

Definition keeps_inj
    (copy : val -> gmap nat nat -> heap -> option (val * gmap nat nat * heap))
  : Prop :=
  forall x memo h y memo' h',
    copy x memo h = Some (y, memo', h') ->
    memo_below memo h -> memo_inj memo ->
    memo_below memo' h' /\ memo_inj memo'.

Lemma copy_items_inj copy :
  keeps_inj copy ->
  forall items memo h ys memo' h',
    copy_items copy items memo h = Some (ys, memo', h') ->
    memo_below memo h -> memo_inj memo ->
    memo_below memo' h' /\ memo_inj memo'.
Proof.
  intros Hcopy items. induction items as [| a items IH];
    intros memo h ys memo' h' Hrun Hb Hi; cbn in Hrun.
  - by simplify_eq.
  - destruct (copy a memo h) as [[[a' m1] h1] |] eqn:Ha; [| done].
    destruct (copy_items copy items m1 h1) as [[[ys' m2] h2] |] eqn:Hitems;
      [| done].
    simplify_eq.
    destruct (Hcopy _ _ _ _ _ _ Ha Hb Hi) as [Hb1 Hi1]. eauto.
Qed.

Lemma deepcopy_rec_inj (fuel : nat) : keeps_inj (deepcopy_rec fuel).
Proof.
  induction fuel as [| fuel IH]; intros x memo h y memo' h' Hrun Hb Hi.
  - destruct x as [| | | | l]; cbn in Hrun; simplify_eq; try done.
    destruct (memo !! l); by simplify_eq.
  - destruct x as [| | | | l]; cbn [deepcopy_rec] in Hrun; simplify_eq;
      try done.
    destruct (memo !! l) as [y0 |] eqn:Hm; [by simplify_eq |].
    destruct (h !! l) as [o |] eqn:Ho; [| done].
    destruct (copy_items _ _ _ _) as [[[vals m2] h2] |] eqn:Hitems; [| done].
    simplify_eq.
    destruct (copy_items_inj _ IH _ _ _ _ _ _ Hitems) as [Hb2 Hi2].
    + intros l' y' Hy'. rewrite length_app. cbn.
      destruct (decide (l = l')) as [<- | Hne].
      * rewrite lookup_insert_eq in Hy'. simplify_eq. lia.
      * rewrite lookup_insert_ne in Hy' by done. specialize (Hb _ _ Hy'). lia.
    + intros l1 l2 y' H1 H2.
      destruct (decide (l = l1)) as [<- | Hne1],
          (decide (l = l2)) as [<- | Hne2]; try done.
      * rewrite lookup_insert_eq in H1. rewrite lookup_insert_ne in H2 by done.
        simplify_eq. specialize (Hb _ _ H2). lia.
      * rewrite lookup_insert_eq in H2. rewrite lookup_insert_ne in H1 by done.
        simplify_eq. specialize (Hb _ _ H1). lia.
      * rewrite lookup_insert_ne in H1, H2 by done. eauto.
    + split; [| done]. intros l' y' Hy'. rewrite length_insert. eauto.
Qed.

(** [deepcopy] with its memo: the result is the argument renamed by a memo
    that is injective and whose entries are finished copies, allocated by
    the call. *)
Lemma deepcopy_renames (h : heap) (x : val) :
  closed_from 0 h -> val_within 0 (length h) x ->
  exists memo h',
    deepcopy x h = (Ret (rename memo x), h')
    /\ extends h h'
    /\ closed_from 0 h'
    /\ memo_inj memo
    /\ (forall r, r ∈ val_refs x -> is_Some (memo !! r))
    /\ forall l y, memo !! l = Some y ->
         length h <= y < length h' /\ copied h memo h' l y.
Proof.
  intros Hc Hx.
  destruct (deepcopy_rec_spec h Hc (S (length h)) x ∅ h)
    as (y & memo & h' & Hrun & (Hc' & _ & Hext & Hnew) & Hy & Hdom).
  - split; [apply extends_refl |]. split.
    + intros l y Hy. rewrite lookup_empty in Hy. discriminate.
    + intros l o r Hl Ho Hr. apply lookup_lt_Some in Ho. lia.
  - done.
  - rewrite unmemoized_empty. lia.
  - exists memo, h'. unfold deepcopy. rewrite Hrun. subst y.
    destruct Hc' as (_ & Hok & Hcl).
    split; [done |]. split; [done |]. split.
    { apply closed_between_from.
      apply (closed_between_grow 0 h h'); [lia | | done |].
      - apply (closed_from_between 0 h h Hc), extends_refl.
      - intros l o r Hl. apply Hcl. lia. }
    split.
    { eapply (deepcopy_rec_inj _ _ _ _ _ _ _ Hrun).
      - intros l y Hy. rewrite lookup_empty in Hy. discriminate.
      - intros l1 l2 y Hy. rewrite lookup_empty in Hy. discriminate. }
    split; [done |]. intros l y Hy.
    split; [destruct (Hok l y Hy); lia |].
    apply Hnew; [done | apply lookup_empty].
Qed.

(** A list or tuple of dicts in which no dict is listed twice. *)
Definition records_of (h : heap) (v : val) (xs : list val) : Prop :=
  sequence_at h v xs /\ Forall (fun x => is_map h x = true) xs /\ NoDup xs.

(** An atom is its own copy. *)
Definition same_atom (v w : val) : Prop := val_refs v = [] -> w = v.

(** The second dict has the keys of the first and, where the first holds an
    atom, the same atom. *)
Definition same_fields (ex ey : list (string * val)) : Prop :=
  forall k,
    match entries_lookup ex k with
    | Some v => exists w, entries_lookup ey k = Some w /\ same_atom v w
    | None => entries_lookup ey k = None
    end.

(** [y] names, between [a] and [b] in [hc], a dict with the keys and the
    atoms of the dict [x] names in [h]. *)
Definition record_copy (h : heap) (a b : nat) (hc : heap) (x y : val)
  : Prop :=
  exists lx ly ex ey,
    x = VRef lx /\ y = VRef ly /\ a <= ly < b
    /\ h !! lx = Some (ODict ex) /\ hc !! ly = Some (ODict ey)
    /\ map fst ey = map fst ex
    /\ same_fields ex ey.

Lemma is_map_spec (h : heap) (v : val) :
  is_map h v = true <-> exists l e, v = VRef l /\ h !! l = Some (ODict e).
Proof.
  split.
  - destruct v as [| | | | l]; try done. cbn.
    destruct (h !! l) as [[items | items | e] |] eqn:Hl; try done. eauto.
  - intros (l & e & -> & Hl). cbn. now rewrite Hl.
Qed.

Lemma rename_atom (memo : gmap nat nat) (v : val) : same_atom v (rename memo v).
Proof. intros Hv. now destruct v. Qed.

Lemma renamed_fields (memo : gmap nat nat) (ex : list (string * val)) :
  same_fields ex (zip (map fst ex) (map (rename memo) (map snd ex))).
Proof.
  intros k. induction ex as [| [k' v] ex IH]; [done |]. cbn.
  destruct (String.eqb k' k); [| done].
  eexists. split; [done | apply rename_atom].
Qed.

(** The copy of a sequence of records is a sequence of new records, one per
    record and in the same order; distinct records have distinct copies. *)
Lemma deepcopy_maps (h : heap) (v : val) (xs : list val) :
  closed_from 0 h ->
  sequence_at h v xs -> Forall (fun x => is_map h x = true) xs ->
  exists y ys h',
    deepcopy v h = (Ret y, h')
    /\ extends h h' /\ closed_from 0 h'
    /\ sequence_at h' y ys
    /\ (NoDup xs -> NoDup ys)
    /\ Forall2 (record_copy h (length h) (length h') h') xs ys.
Proof.
  intros Hc (l & -> & Hl) Hmaps.
  assert (Hv : val_within 0 (length h) (VRef l)).
  { apply val_within_ref. destruct Hl as [Hl | Hl];
      apply lookup_lt_Some in Hl; lia. }
  destruct (deepcopy_renames h (VRef l) Hc Hv)
    as (memo & h' & Hrun & Hext & Hc' & Hinj & Hdom & Hall).
  destruct (Hdom l) as [y Hy]; [cbn; now apply list_elem_of_singleton |].
  cbn [rename] in Hrun. rewrite Hy in Hrun.
  destruct (Hall l y Hy) as (Hly & o & Ho & Hcopy & Hrefs).
  assert (Hxs : obj_vals o = xs /\
                (h' !! y = Some (OList (map (rename memo) xs))
                 \/ h' !! y = Some (OTuple (map (rename memo) xs)))).
  { destruct Hl as [Hl | Hl]; rewrite Hl in Ho; injection Ho as <-;
      (split; [done |]); [left | right]; exact Hcopy. }
  destruct Hxs as [Hvals Hy'].
  assert (Hin : forall x, x ∈ xs ->
            exists lx ly ex,
              x = VRef lx /\ h !! lx = Some (ODict ex)
              /\ memo !! lx = Some ly).
  { intros x Hx. rewrite Forall_forall in Hmaps.
    destruct (proj1 (is_map_spec h x) (Hmaps x Hx)) as (lx & ex & -> & Hlx).
    destruct (Hrefs lx) as [ly Hlx'].
    { apply obj_refs_spec. now rewrite Hvals. }
    eauto 6. }
  exists (VRef y), (map (rename memo) xs), h'.
  split; [done |]. split; [done |]. split; [done |].
  split; [now exists y |]. split.
  - intros Hnd. apply NoDup_fmap_2_strong; [| done]. intros x1 x2 H1 H2 Heq.
    destruct (Hin x1 H1) as (l1 & y1 & e1 & -> & _ & Hm1).
    destruct (Hin x2 H2) as (l2 & y2 & e2 & -> & _ & Hm2).
    cbn in Heq. rewrite Hm1, Hm2 in Heq. injection Heq as <-.
    f_equal. eapply Hinj; eauto.
  - apply Forall2_fmap_r, Forall_Forall2_diag, Forall_forall. intros x Hx.
    destruct (Hin x Hx) as (lx & ly & ex & -> & Hlx & Hm).
    destruct (Hall lx ly Hm) as (Hbound & o' & Ho' & Hcopy' & _).
    rewrite Hlx in Ho'. injection Ho' as <-.
    exists lx, ly, ex, (zip (map fst ex) (map (rename memo) (map snd ex))).
    cbn. rewrite Hm. split; [done |]. split; [done |]. split; [done |].
    split; [done |]. split; [exact Hcopy' |].
    split; [| apply renamed_fields].
    apply fst_zip. now rewrite !length_map.
Qed.

Lemma deepcopy_records (h : heap) (v : val) (xs : list val) :
  closed_from 0 h -> records_of h v xs ->
  exists y ys h',
    deepcopy v h = (Ret y, h')
    /\ extends h h' /\ closed_from 0 h'
    /\ sequence_at h' y ys
    /\ NoDup ys
    /\ Forall2 (record_copy h (length h) (length h') h') xs ys.
Proof.
  intros Hc (Hseq & Hmaps & Hnd).
  destruct (deepcopy_maps h v xs Hc Hseq Hmaps)
    as (y & ys & h' & Hrun & Hext & Hc' & Hs & Hn & Hcp).
  exists y, ys, h'. auto 10.
Qed.

Lemma entries_set_keys (e e' : list (string * val)) (key : string)
    (v v' : val) :
  map fst e = map fst e' ->
  map fst (entries_set e key v) = map fst (entries_set e' key v').
Proof.
  revert e'. induction e as [| [k w] e IH]; intros [| [k' w'] e'] Hkeys;
    try discriminate; [done |].
  cbn in Hkeys. injection Hkeys as -> Hkeys. cbn.
  destruct (String.eqb k' key); cbn; f_equal; [done | now apply IH].
Qed.

Lemma entries_lookup_set_eq (e : list (string * val)) (key : string)
    (v : val) :
  entries_lookup (entries_set e key v) key = Some v.
Proof.
  induction e as [| [k w] e IH]; cbn.
  - now rewrite String.eqb_refl.
  - destruct (String.eqb k key) eqn:Hk; cbn; now rewrite Hk.
Qed.

Lemma entries_lookup_set_ne (e : list (string * val)) (key k : string)
    (v : val) :
  k <> key ->
  entries_lookup (entries_set e key v) k = entries_lookup e k.
Proof.
  intros Hne. induction e as [| [k' w] e IH]; cbn.
  - destruct (String.eqb key k) eqn:Hk; [| done].
    apply String.eqb_eq in Hk. congruence.
  - destruct (String.eqb k' key) eqn:Hk; cbn.
    + apply String.eqb_eq in Hk. subst k'.
      destruct (String.eqb key k) eqn:Hk'; [| done].
      apply String.eqb_eq in Hk'. congruence.
    + destruct (String.eqb k' k); [done | exact IH].
Qed.

Section RelativeRecords.

Variable relative_path : val -> val -> exn + option string.
Variables (key : string) (root : val).

(** The record [y] of [h'] is the record [x] of [h] with its path made
    relative: the same keys in the same order ([key] added at the end when
    [x] lacks it), under [key] the path [relative_path] returns for the
    value [x] has there ([None] without one), and under every other key the
    value of [x] when that is an atom, a copy of it otherwise. *)
Definition relative_record (h : heap) (x : val) (h' : heap) (y : val)
  : Prop :=
  exists lx ly ex ey path p,
    x = VRef lx /\ y = VRef ly /\ length h <= ly
    /\ h !! lx = Some (ODict ex) /\ h' !! ly = Some (ODict ey)
    /\ same_atom (default VNone (entries_lookup ex key)) path
    /\ relative_path path root = inr p
    /\ map fst ey = map fst (entries_set ex key VNone)
    /\ entries_lookup ey key = Some (path_val p)
    /\ forall k, k <> key ->
         match entries_lookup ex k with
         | Some v => exists w, entries_lookup ey k = Some w /\ same_atom v w
         | None => entries_lookup ey k = None
         end.

Hypothesis relative_path_returns :
  forall path, exists p, relative_path path root = inr p.

(** What one round of the loop leaves in a record. *)
Definition relative_entries (entries : list (string * val))
  : list (string * val) :=
  match relative_path (default VNone (entries_lookup entries key)) root with
  | inr p => entries_set entries key (path_val p)
  | inl _ => entries
  end.

(** One round of a loop of [to_dict], on a record. *)
Lemma make_relative_run (h : heap) (l : nat) (e : list (string * val)) :
  h !! l = Some (ODict e) ->
  make_relative relative_path key root (VRef l) h
  = (Ret tt, <[l := ODict (relative_entries e)]> h).
Proof.
  intros Hl. unfold make_relative, dict_get, bind.
  rewrite (deref_run h l _ Hl). cbn. unfold relative_entries.
  destruct (relative_path_returns (default VNone (entries_lookup e key)))
    as [p Hp].
  rewrite Hp. unfold setitem, bind. rewrite (deref_run h l _ Hl).
  unfold store. now rewrite Hl.
Qed.

(** A loop of [to_dict] over records returns; it changes the records it
    is given and nothing else, and a record met once holds the entries of one
    round. *)
Lemma relative_loop_run (items : list val) (h : heap) :
  Forall (fun y => is_map h y = true) items ->
  exists h',
    for_each items (make_relative relative_path key root) h = (Ret tt, h')
    /\ length h' = length h
    /\ (forall l, VRef l ∉ items -> h' !! l = h !! l)
    /\ (forall v, is_map h' v = is_map h v)
    /\ (NoDup items ->
        forall l e, VRef l ∈ items -> h !! l = Some (ODict e) ->
               h' !! l = Some (ODict (relative_entries e))).
Proof.
  revert h. induction items as [| x items IH]; intros h Hall.
  - exists h. repeat split; try done. intros _ l e Hin. inversion Hin.
  - apply Forall_cons in Hall as [Hx Hall].
    apply is_map_spec in Hx as (l & e & -> & Hl).
    assert (Hlt : l < length h) by (now apply lookup_lt_Some in Hl).
    set (h1 := <[l := ODict (relative_entries e)]> h).
    assert (Hmap1 : forall v, is_map h1 v = is_map h v).
    { intros [| | | | l']; try done. cbn. unfold h1.
      destruct (decide (l = l')) as [<- | Hne].
      - rewrite list_lookup_insert_eq by done. now rewrite Hl.
      - now rewrite list_lookup_insert_ne. }
    destruct (IH h1) as (h' & Hrun & Hlen & Hframe & Hmap & Heff).
    { eapply Forall_impl; [exact Hall |]. intros v Hv. now rewrite Hmap1. }
    exists h'. cbn [for_each]. unfold bind.
    rewrite (make_relative_run h l e Hl). fold h1. rewrite Hrun.
    split; [done |]. split; [rewrite Hlen; apply length_insert |].
    split.
    { intros l' Hl'. apply not_elem_of_cons in Hl' as [Hne Hl'].
      rewrite (Hframe l' Hl'). unfold h1. apply list_lookup_insert_ne.
      congruence. }
    split; [intros v; now rewrite Hmap, Hmap1 |].
    intros Hnd l' e' Hin Hl'e. apply NoDup_cons in Hnd as [Hnotin Hnd].
    destruct (decide (l' = l)) as [-> | Hne].
    + rewrite (Hframe l Hnotin). unfold h1.
      rewrite list_lookup_insert_eq by done. congruence.
    + apply Heff; [done | |].
      * apply elem_of_cons in Hin as [Heq | Hin]; [congruence | done].
      * unfold h1. now rewrite list_lookup_insert_ne.
Qed.

Lemma relative_of_copy (h hc hc' : heap) (a b : nat) (x y : val) :
  length h <= a ->
  record_copy h a b hc x y ->
  (forall l e, y = VRef l -> hc !! l = Some (ODict e) ->
          hc' !! l = Some (ODict (relative_entries e))) ->
  relative_record h x hc' y.
Proof.
  intros Ha (lx & ly & ex & ey & -> & -> & Hb & Hlx & Hly & Hkeys & Hfields)
    Hdone.
  specialize (Hdone ly ey eq_refl Hly). unfold relative_entries in Hdone.
  destruct (relative_path_returns (default VNone (entries_lookup ey key)))
    as [p Hp].
  rewrite Hp in Hdone.
  exists lx, ly, ex, (entries_set ey key (path_val p)),
    (default VNone (entries_lookup ey key)), p.
  split; [done |]. split; [done |]. split; [lia |]. split; [done |].
  split; [done |]. split.
  { specialize (Hfields key). destruct (entries_lookup ex key) as [v |].
    - destruct Hfields as (w & -> & Hw). exact Hw.
    - now rewrite Hfields. }
  split; [done |]. split; [now apply entries_set_keys |].
  split; [apply entries_lookup_set_eq |].
  intros k Hk. rewrite entries_lookup_set_ne by done. apply Hfields.
Qed.

Lemma relative_of_copies (h hc hc' : heap) (a b : nat) (xs ys : list val) :
  length h <= a ->
  Forall2 (record_copy h a b hc) xs ys ->
  (forall l e, VRef l ∈ ys -> hc !! l = Some (ODict e) ->
          hc' !! l = Some (ODict (relative_entries e))) ->
  Forall2 (fun x y => relative_record h x hc' y) xs ys.
Proof.
  intros Ha Hall. induction Hall as [| x y xs ys Hxy Hall IH]; intros Hdone;
    constructor.
  - apply (relative_of_copy h hc hc' a b); [done | done |].
    intros l e -> Hl. apply Hdone; [| done]. apply elem_of_cons. now left.
  - apply IH. intros l e Hin. apply Hdone. apply elem_of_cons. now right.
Qed.

End RelativeRecords.

(** Runs of [bind] whose first part is known. *)
Lemma bind_run {A B} (m : M A) (k : A -> M B) (h h' : heap) (a : A) :
  m h = (Ret a, h') -> bind m k h = k a h'.
Proof. intros Hm. unfold bind. now rewrite Hm. Qed.

Lemma sequence_at_extends (h h' : heap) (v : val) (xs : list val) :
  extends h h' -> sequence_at h v xs -> sequence_at h' v xs.
Proof.
  intros Hext (l & -> & Hl). exists l. split; [done |].
  destruct Hl as [Hl | Hl]; [left | right];
    now apply (extends_lookup h h').
Qed.

Lemma is_map_kept (h h' : heap) (v : val) :
  extends h h' -> is_map h v = true -> is_map h' v = true.
Proof.
  intros Hext Hv. apply is_map_spec in Hv as (l & e & -> & Hl).
  apply is_map_spec. exists l, e. split; [done |].
  now apply (extends_lookup h h').
Qed.

Lemma records_of_extends (h h' : heap) (v : val) (xs : list val) :
  extends h h' -> records_of h v xs -> records_of h' v xs.
Proof.
  intros Hext (Hseq & Hmaps & Hnd).
  split; [now apply (sequence_at_extends h h') |]. split; [| done].
  eapply Forall_impl; [exact Hmaps |]. intros x. now apply is_map_kept.
Qed.

Lemma record_copy_same (h : heap) (a b : nat) (hc hc' : heap) (x y : val) :
  (forall l, a <= l < b -> hc' !! l = hc !! l) ->
  record_copy h a b hc x y -> record_copy h a b hc' x y.
Proof.
  intros Hsame (lx & ly & ex & ey & -> & -> & Hb & Hlx & Hly & Hrest).
  exists lx, ly, ex, ey. rewrite (Hsame ly Hb). done.
Qed.

Lemma record_copy_base (h h1 : heap) (a b : nat) (hc : heap) (x y : val) :
  extends h h1 -> is_map h x = true ->
  record_copy h1 a b hc x y -> record_copy h a b hc x y.
Proof.
  intros Hext Hx (lx & ly & ex & ey & -> & -> & Hb & Hlx & Hly & Hrest).
  apply is_map_spec in Hx as (l & e & [= <-] & Hl).
  pose proof (extends_lookup h h1 lx _ Hext Hl) as Hl1.
  exists lx, ly, ex, ey. split; [done |]. split; [done |]. split; [done |].
  split; [congruence | done].
Qed.

Lemma record_copies_base (h h1 : heap) (a b : nat) (hc : heap)
    (xs ys : list val) :
  extends h h1 -> Forall (fun x => is_map h x = true) xs ->
  Forall2 (record_copy h1 a b hc) xs ys ->
  Forall2 (record_copy h a b hc) xs ys.
Proof.
  intros Hext Hmaps Hall. induction Hall as [| x y xs ys Hxy Hall IH];
    [constructor |].
  apply Forall_cons in Hmaps as [Hx Hmaps]. constructor; [| now apply IH].
  now apply (record_copy_base h h1).
Qed.

Lemma copies_region (h : heap) (a b : nat) (hc : heap) (xs ys : list val)
    (l : nat) :
  Forall2 (record_copy h a b hc) xs ys -> VRef l ∈ ys ->
  a <= l < b /\ is_map hc (VRef l) = true.
Proof.
  intros Hall Hin. induction Hall as [| x y xs ys Hxy Hall IH];
    [inversion Hin |].
  apply elem_of_cons in Hin as [Hy | Hin]; [| now apply IH].
  destruct Hxy as (lx & ly & ex & ey & _ & Heq & Hb & _ & Hly & _).
  assert (l = ly) as -> by congruence.
  split; [done |]. cbn. now rewrite Hly.
Qed.

Lemma copies_are_maps (h : heap) (a b : nat) (hc : heap) (xs ys : list val) :
  Forall2 (record_copy h a b hc) xs ys ->
  Forall (fun y => is_map hc y = true) ys.
Proof.
  intros Hall. induction Hall as [| x y xs ys Hxy Hall IH]; constructor;
    [| done].
  destruct Hxy as (lx & ly & ex & ey & _ & -> & _ & _ & Hly & _).
  cbn. now rewrite Hly.
Qed.

(** A loop over records leaves the lists and tuples alone. *)
Lemma sequence_kept (h h' : heap) (items : list val) (v : val)
    (xs : list val) :
  (forall l, VRef l ∉ items -> h' !! l = h !! l) ->
  Forall (fun y => is_map h y = true) items ->
  sequence_at h v xs -> sequence_at h' v xs.
Proof.
  intros Hframe Hmaps (l & -> & Hl). exists l. split; [done |].
  rewrite Hframe; [done |]. intros Hin. rewrite Forall_forall in Hmaps.
  specialize (Hmaps _ Hin). cbn in Hmaps.
  destruct Hl as [Hl | Hl]; now rewrite Hl in Hmaps.
Qed.

(** [to_dict] on lists of distinct records, with a [relative_path] that
    returns for the root in use: the call returns a new dict whose
    "images", "categories" and "annotations" are sequences with one new
    record per record of the instance, in the same order. Each has the keys
    and the atoms of its source, except that "file_name" (for images and
    categories) or "image_name" (for annotations) holds what
    [relative_path] returns for the source's value there, [None] standing
    for a missing key; the key is added when missing. The objects that
    existed before the call are unchanged. *)
Theorem to_dict_relative_paths relative_path (self : Annotation)
    (root : val) (h : heap) (xs1 xs2 xs3 : list val) :
  closed_from 0 h ->
  val_within 0 (length h) root ->
  (forall path, exists p,
      relative_path path (if is_true h root then root else VStr ".")
      = inr p) ->
  records_of h (images self) xs1 ->
  records_of h (categories self) xs2 ->
  records_of h (annotations self) xs3 ->
  exists l i c a ys1 ys2 ys3 h',
    to_dict relative_path self root h = (Ret (VRef l), h')
    /\ extends h h'
    /\ h' !! l = Some (ODict [("info", info self); ("images", i);
                              ("categories", c); ("annotations", a)])
    /\ sequence_at h' i ys1 /\ sequence_at h' c ys2 /\ sequence_at h' a ys3
    /\ Forall2 (fun x y =>
                  relative_record relative_path "file_name"
                    (if is_true h root then root else VStr ".") h x h' y)
         xs1 ys1
    /\ Forall2 (fun x y =>
                  relative_record relative_path "file_name"
                    (if is_true h root then root else VStr ".") h x h' y)
         xs2 ys2
    /\ Forall2 (fun x y =>
                  relative_record relative_path "image_name"
                    (if is_true h root then root else VStr ".") h x h' y)
         xs3 ys3.
Proof.
  intros Hc Hroot Hrel R1 R2 R3.
  set (root' := if is_true h root then root else VStr ".") in *.
  destruct (deepcopy_records h _ xs1 Hc R1)
    as (i & ys1 & h1 & Hrun1 & He1 & Hc1 & Hs1 & Hn1 & Hcp1).
  destruct (deepcopy_records h1 _ xs2 Hc1 (records_of_extends h h1 _ _ He1 R2))
    as (c & ys2 & h2 & Hrun2 & He2 & Hc2 & Hs2 & Hn2 & Hcp2).
  assert (He02 : extends h h2) by (eapply extends_trans; eauto).
  destruct (deepcopy_records h2 _ xs3 Hc2 (records_of_extends h h2 _ _ He02 R3))
    as (a & ys3 & h3 & Hrun3 & He3 & Hc3 & Hs3 & Hn3 & Hcp3).
  assert (He03 : extends h h3) by (eapply extends_trans; eauto).
  assert (He13 : extends h1 h3) by (eapply extends_trans; eauto).
  assert (Hl1 : length h <= length h1) by apply He1.
  assert (Hl2 : length h1 <= length h2) by apply He2.
  assert (Hl3 : length h2 <= length h3) by apply He3.
  apply (record_copies_base h h1) in Hcp2; [| done | apply R2].
  apply (record_copies_base h h2) in Hcp3; [| done | apply R3].
  assert (Hcp1' : Forall2 (record_copy h (length h) (length h1) h3) xs1 ys1).
  { eapply Forall2_impl; [exact Hcp1 |]. intros x y.
    apply record_copy_same. intros l Hl. apply He13. lia. }
  assert (Hcp2' : Forall2 (record_copy h (length h1) (length h2) h3) xs2 ys2).
  { eapply Forall2_impl; [exact Hcp2 |]. intros x y.
    apply record_copy_same. intros l Hl. apply He3. lia. }
  clear Hcp1 Hcp2.
  pose proof (copies_are_maps _ _ _ _ _ _ Hcp1') as Hm1.
  pose proof (copies_are_maps _ _ _ _ _ _ Hcp2') as Hm2.
  pose proof (copies_are_maps _ _ _ _ _ _ Hcp3) as Hm3.
  destruct (relative_loop_run relative_path "file_name" root' Hrel ys1 h3 Hm1)
    as (h4 & Hrun4 & Hlen4 & Hf4 & Hmap4 & Heff4).
  assert (Hm2' : Forall (fun y => is_map h4 y = true) ys2).
  { eapply Forall_impl; [exact Hm2 |]. intros y Hy. now rewrite Hmap4. }
  destruct (relative_loop_run relative_path "file_name" root' Hrel ys2 h4 Hm2')
    as (h5 & Hrun5 & Hlen5 & Hf5 & Hmap5 & Heff5).
  assert (Hm3' : Forall (fun y => is_map h5 y = true) ys3).
  { eapply Forall_impl; [exact Hm3 |]. intros y Hy.
    now rewrite Hmap5, Hmap4. }
  destruct (relative_loop_run relative_path "image_name" root' Hrel ys3 h5 Hm3')
    as (h6 & Hrun6 & Hlen6 & Hf6 & Hmap6 & Heff6).
  set (d := ODict [("info", info self); ("images", i); ("categories", c);
                   ("annotations", a)]).
  exists (length h6), i, c, a, ys1, ys2, ys3, (h6 ++ [d]).
  assert (Hreg1 : forall l, VRef l ∈ ys1 -> length h <= l < length h1)
    by (intros l Hl; apply (copies_region _ _ _ _ _ _ l Hcp1' Hl)).
  assert (Hreg2 : forall l, VRef l ∈ ys2 -> length h1 <= l < length h2)
    by (intros l Hl; apply (copies_region _ _ _ _ _ _ l Hcp2' Hl)).
  assert (Hreg3 : forall l, VRef l ∈ ys3 -> length h2 <= l < length h3)
    by (intros l Hl; apply (copies_region _ _ _ _ _ _ l Hcp3 Hl)).
  assert (Hlast : forall l o, h6 !! l = Some o -> (h6 ++ [d]) !! l = Some o).
  { intros l o Hl. rewrite lookup_app_l; [done |].
    now apply lookup_lt_Some in Hl. }
  split.
  { unfold to_dict.
    rewrite (bind_run _ _ h h root'); cycle 1.
    { unfold py_or, bind. rewrite (truthy_run h root Hroot).
      unfold root'. now destruct (is_true h root). }
    rewrite (bind_run _ _ _ _ _ Hrun1), (bind_run _ _ _ _ _ Hrun2),
      (bind_run _ _ _ _ _ Hrun3).
    rewrite (bind_run _ _ h3 h4 tt); cycle 1.
    { rewrite (bind_run _ _ _ _ _ (py_iter_sequence h3 i ys1
                 (sequence_at_extends _ _ _ _ He13 Hs1))).
      exact Hrun4. }
    rewrite (bind_run _ _ h4 h5 tt); cycle 1.
    { rewrite (bind_run _ _ _ _ _ (py_iter_sequence h4 c ys2
                 (sequence_kept _ _ _ _ _ Hf4 Hm1
                    (sequence_at_extends _ _ _ _ He3 Hs2)))).
      exact Hrun5. }
    rewrite (bind_run _ _ h5 h6 tt); cycle 1.
    { rewrite (bind_run _ _ _ _ _ (py_iter_sequence h5 a ys3
                 (sequence_kept _ _ _ _ _ Hf5 Hm2'
                    (sequence_kept _ _ _ _ _ Hf4 Hm1 Hs3)))).
      exact Hrun6. }
    reflexivity. }
  assert (Hkeep : forall l, l < length h -> h6 !! l = h3 !! l).
  { intros l Hl. rewrite Hf6, Hf5, Hf4; [done | | |]; intros Hin.
    - apply Hreg1 in Hin. lia.
    - apply Hreg2 in Hin. lia.
    - apply Hreg3 in Hin. lia. }
  split.
  { split; [rewrite length_app, Hlen6, Hlen5, Hlen4; lia |].
    intros l Hl. rewrite lookup_app_l by (rewrite Hlen6, Hlen5, Hlen4; lia).
    rewrite (Hkeep l Hl). now apply He03. }
  split; [now apply list_lookup_middle |].
  assert (Hseq : forall v ys, sequence_at h3 v ys ->
            sequence_at (h6 ++ [d]) v ys).
  { intros v ys Hv.
    pose proof (sequence_kept _ _ _ _ _ Hf6 Hm3'
                  (sequence_kept _ _ _ _ _ Hf5 Hm2'
                     (sequence_kept _ _ _ _ _ Hf4 Hm1 Hv))) as (l & -> & Hl).
    exists l. split; [done |].
    destruct Hl as [Hl | Hl]; [left | right]; now apply Hlast. }
  split; [apply Hseq; now apply (sequence_at_extends h1 h3) |].
  split; [apply Hseq; now apply (sequence_at_extends h2 h3) |].
  split; [now apply Hseq |].
  split; [| split].
  - apply (relative_of_copies relative_path _ root' Hrel h h3 _ _ _ _ _
             (Nat.le_refl _) Hcp1').
    intros l e Hin Hl. apply Hlast.
    pose proof (Hreg1 l Hin) as Hr.
    rewrite Hf6, Hf5; [now apply Heff4 | |]; intros Hin'.
    + apply Hreg2 in Hin'. lia.
    + apply Hreg3 in Hin'. lia.
  - apply (relative_of_copies relative_path _ root' Hrel h h3 _ _ _ _ _
             Hl1 Hcp2').
    intros l e Hin Hl. apply Hlast.
    pose proof (Hreg2 l Hin) as Hr.
    rewrite Hf6; [apply Heff5; [done | done |] |].
    + rewrite Hf4; [done |]. intros Hin'. apply Hreg1 in Hin'. lia.
    + intros Hin'. apply Hreg3 in Hin'. lia.
  - assert (Hl02 : length h <= length h2) by lia.
    apply (relative_of_copies relative_path _ root' Hrel h h3 _ _ _ _ _
             Hl02 Hcp3).
    intros l e Hin Hl. apply Hlast.
    pose proof (Hreg3 l Hin) as Hr.
    apply Heff6; [done | done |].
    rewrite Hf5, Hf4; [done | |]; intros Hin'.
    + apply Hreg1 in Hin'. lia.
    + apply Hreg2 in Hin'. lia.
Qed.

(** An instance with one image record and no category or annotation. *)
Definition one_image_heap : list obj :=
  [ODict [("id", VInt 0); ("file_name", VStr "/data/a/b.png")];
   OList [VRef 0]; OList []; ODict [("description", VStr "demo")]].

Definition one_image_self : Annotation :=
  {| images := VRef 1; categories := VRef 2; annotations := VRef 2;
     info := VRef 3 |}.

Lemma to_dict_relative_paths_witness :
  exists l i c a ys1 ys2 ys3 h',
    to_dict keep_path one_image_self (VStr "/data") one_image_heap
    = (Ret (VRef l), h')
    /\ extends one_image_heap h'
    /\ h' !! l = Some (ODict [("info", info one_image_self); ("images", i);
                              ("categories", c); ("annotations", a)])
    /\ sequence_at h' i ys1 /\ sequence_at h' c ys2 /\ sequence_at h' a ys3
    /\ Forall2 (fun x y =>
                  relative_record keep_path "file_name"
                    (if is_true one_image_heap (VStr "/data")
                     then VStr "/data" else VStr ".")
                    one_image_heap x h' y)
         [VRef 0] ys1
    /\ Forall2 (fun x y =>
                  relative_record keep_path "file_name"
                    (if is_true one_image_heap (VStr "/data")
                     then VStr "/data" else VStr ".")
                    one_image_heap x h' y)
         [] ys2
    /\ Forall2 (fun x y =>
                  relative_record keep_path "image_name"
                    (if is_true one_image_heap (VStr "/data")
                     then VStr "/data" else VStr ".")
                    one_image_heap x h' y)
         [] ys3.
Proof.
  apply (to_dict_relative_paths keep_path one_image_self (VStr "/data")
           one_image_heap [VRef 0] [] []).
  - apply closed_b_spec. reflexivity.
  - apply within_b_spec. reflexivity.
  - intros path. eexists. reflexivity.
  - split; [exists 1; split; [reflexivity | left; reflexivity] |].
    split; [repeat constructor | apply NoDup_singleton].
  - split; [exists 2; split; [reflexivity | left; reflexivity] |].
    split; [constructor | apply NoDup_nil_2].
  - split; [exists 2; split; [reflexivity | left; reflexivity] |].
    split; [constructor | apply NoDup_nil_2].
Defined.

(** A stand-in for [relative_path] that drops the first character of a
    path. *)
Definition drop_first (path root : val) : exn + option string :=
  inr (match path with
       | VStr (String _ s) => Some s
       | VStr s => Some s
       | _ => None
       end).

(** A record listed twice is copied once and met twice by the loop: its
    path is made relative twice. *)
Example to_dict_record_listed_twice :
  exists h',
    to_dict drop_first
      {| images := VRef 1; categories := VRef 2; annotations := VRef 2;
         info := VNone |}
      VNone
      [ODict [("file_name", VStr "abc")]; OList [VRef 0; VRef 0]; OList []]
    = (Ret (VRef 7), h')
    /\ h' !! 7 = Some (ODict [("info", VNone); ("images", VRef 3);
                              ("categories", VRef 5);
                              ("annotations", VRef 6)])
    /\ h' !! 3 = Some (OList [VRef 4; VRef 4])
    /\ h' !! 4 = Some (ODict [("file_name", VStr "c")]).
Proof. eexists. split; [vm_compute; reflexivity |]. done. Qed.

Lemma bind_raise {A B} (m : M A) (k : A -> M B) (h h' : heap) (e : exn) :
  m h = (Raise e, h') -> bind m k h = (Raise e, h').
Proof. intros Hm. unfold bind. now rewrite Hm. Qed.

(** When [relative_path] raises on the "file_name" of the first image
    record ([None] standing for a missing key), [to_dict] raises the same
    exception; the objects that existed before the call are unchanged. *)
Theorem to_dict_raises relative_path (self : Annotation) (root : val)
    (h : heap) (lx : nat) (ex : list (string * val)) (xs : list val)
    (e : exn) :
  closed_from 0 h ->
  val_within 0 (length h) root ->
  val_within 0 (length h) (categories self) ->
  val_within 0 (length h) (annotations self) ->
  records_of h (images self) (VRef lx :: xs) ->
  h !! lx = Some (ODict ex) ->
  val_refs (default VNone (entries_lookup ex "file_name")) = [] ->
  relative_path (default VNone (entries_lookup ex "file_name"))
    (if is_true h root then root else VStr ".") = inl e ->
  exists h',
    to_dict relative_path self root h = (Raise e, h') /\ extends h h'.
Proof.
  intros Hc Hroot Hcat Hann R1 Hlx Hatom Hrel.
  set (root' := if is_true h root then root else VStr ".") in *.
  destruct (deepcopy_records h _ _ Hc R1)
    as (i & ys1 & h1 & Hrun1 & He1 & Hc1 & Hs1 & Hn1 & Hcp1).
  destruct (deepcopy_returns h1 (categories self) Hc1)
    as (c & h2 & Hrun2 & He2 & Hnew2 & _ & _).
  { eapply val_within_weaken; [exact Hcat | apply He1]. }
  assert (He02 : extends h h2) by (eapply extends_trans; eauto).
  assert (Hc2 : closed_from 0 h2).
  { apply closed_between_from.
    apply (closed_between_grow 0 h1 h2); [lia | | done | done].
    apply (closed_from_between 0 h1 h1 Hc1), extends_refl. }
  destruct (deepcopy_returns h2 (annotations self) Hc2)
    as (a & h3 & Hrun3 & He3 & _ & _ & _).
  { eapply val_within_weaken; [exact Hann | apply He02]. }
  assert (He13 : extends h1 h3) by (eapply extends_trans; eauto).
  exists h3. split; [| eapply extends_trans; eauto].
  destruct ys1 as [| y ys1]; [inversion Hcp1 |].
  apply Forall2_cons in Hcp1 as [Hxy _].
  destruct Hxy
    as (lx' & ly & ex' & ey & [= <-] & -> & Hb & Hlx' & Hly & _ & Hfields).
  assert (ex' = ex) as -> by congruence.
  assert (Hpath : default VNone (entries_lookup ey "file_name")
                  = default VNone (entries_lookup ex "file_name")).
  { specialize (Hfields "file_name").
    destruct (entries_lookup ex "file_name") as [v |].
    - destruct Hfields as (w & -> & Hw). now apply Hw.
    - now rewrite Hfields. }
  unfold to_dict.
  rewrite (bind_run _ _ h h root'); cycle 1.
  { unfold py_or, bind. rewrite (truthy_run h root Hroot).
    unfold root'. now destruct (is_true h root). }
  rewrite (bind_run _ _ _ _ _ Hrun1), (bind_run _ _ _ _ _ Hrun2),
    (bind_run _ _ _ _ _ Hrun3).
  apply bind_raise.
  rewrite (bind_run _ _ _ _ _ (py_iter_sequence h3 i _
             (sequence_at_extends _ _ _ _ He13 Hs1))).
  cbn [for_each]. apply bind_raise.
  pose proof (extends_lookup h1 h3 ly _ He13 Hly) as Hly3.
  unfold make_relative, dict_get, bind. rewrite (deref_run h3 ly _ Hly3).
  cbn. rewrite Hpath, Hrel. reflexivity.
Qed.

(** A stand-in for [relative_path] that rejects what is not a string. *)
Definition no_path (path root : val) : exn + option string :=
  match path with VStr s => inr (Some s) | _ => inl TypeError end.

Lemma to_dict_raises_witness :
  exists h',
    to_dict no_path
      {| images := VRef 1; categories := VRef 2; annotations := VRef 2;
         info := VNone |}
      VNone [ODict [("id", VInt 0)]; OList [VRef 0]; OList []]
    = (Raise TypeError, h')
    /\ extends [ODict [("id", VInt 0)]; OList [VRef 0]; OList []] h'.
Proof.
  apply (to_dict_raises no_path
           {| images := VRef 1; categories := VRef 2; annotations := VRef 2;
              info := VNone |}
           VNone [ODict [("id", VInt 0)]; OList [VRef 0]; OList []]
           0 [("id", VInt 0)] [] TypeError).
  - apply closed_b_spec. reflexivity.
  - apply within_b_spec. reflexivity.
  - apply within_b_spec. reflexivity.
  - apply within_b_spec. reflexivity.
  - split; [exists 1; split; [reflexivity | left; reflexivity] |].
    split; [repeat constructor | apply NoDup_singleton].
  - reflexivity.
  - reflexivity.
  - reflexivity.
Defined.


Section RelativeLoop.

Variable relative_path : val -> val -> exn + option string.
Variables (key : string) (root : val).


End RelativeLoop.







End Annotations.
